(** * codemonkey-games-launcher: the launcher server, the coverflow frontend
      and the gamepad subsystem, embedded and checked against their
      specification.

    Layout of the development:
    - [Str]      string helpers mirroring the JavaScript string methods used;
    - [Fs]       the filesystem as seen through the Deno calls of the server;
    - [Server]   [listGames], [saveZipToDir] and [handleApi] (main.ts);
    - [Frontend] [focusIndex], [deleteGame] and friends (static/app.js);
    - [Gamepad]  [GamepadManager] (static/gamepad-support.js);
    - [Cards], [Pages], [Detection], [Keyboard]  the title wrapping of the
      placeholder cards (static/app.js), the helper block put into game
      pages (main.ts), the button detection of the configurator
      (gamepad-support.js) and the key presses of the launcher page.

    Strings are sequences of 8-bit code units ([string]); file contents and
    request bodies are [list Byte.byte]. *)

From Stdlib Require Import ZArith List String Ascii Lia Permutation Sorted QArith Qabs.
From stdpp Require Import gmap strings.

Local Open Scope string_scope.
Local Open Scope Z_scope.
Local Open Scope list_scope.
Local Open Scope stdpp_scope.

(** ** JavaScript string methods *)

Module Str.

(** [s.toLowerCase()] on the ASCII range; code units above 127 are left
    alone (none of them lower-cases to an ASCII letter in one code unit). *)
Definition lower_char (c : ascii) : ascii :=
  let n := nat_of_ascii c in
  if ((65 <=? n) && (n <=? 90))%nat then ascii_of_nat (n + 32) else c.

Fixpoint toLowerCase (s : string) : string :=
  match s with
  | EmptyString => EmptyString
  | String c s' => String (lower_char c) (toLowerCase s')
  end.

(** [s.startsWith(p)] *)
Fixpoint startsWith (s p : string) : bool :=
  match p, s with
  | EmptyString, _ => true
  | String a p', String b s' => if Ascii.eqb a b then startsWith s' p' else false
  | String _ _, EmptyString => false
  end.

(** [s.endsWith(p)] *)
Definition endsWith (s p : string) : bool :=
  startsWith (String.rev s) (String.rev p).

(** [s.split(sep)] for a one-character separator. *)
Fixpoint split_go (sep : ascii) (cur : string) (s : string) : list string :=
  match s with
  | EmptyString => [String.rev cur]
  | String c s' =>
      if Ascii.eqb c sep then String.rev cur :: split_go sep EmptyString s'
      else split_go sep (String c cur) s'
  end.
Definition split (sep : ascii) (s : string) : list string :=
  split_go sep EmptyString s.

(** [a[i]] on an array of strings; [None] is JavaScript's [undefined]. *)
Definition at_index (l : list string) (i : nat) : option string := nth_error l i.

(** [s.replace(/[-_]/g, " ")] *)
Fixpoint replace_dash_underscore (s : string) : string :=
  match s with
  | EmptyString => EmptyString
  | String c s' =>
      String (if Ascii.eqb c "-" || Ascii.eqb c "_" then " "%char else c)
             (replace_dash_underscore s')
  end.

Definition is_alnum_lower (c : ascii) : bool :=
  let n := nat_of_ascii c in
  (((97 <=? n) && (n <=? 122)) || ((48 <=? n) && (n <=? 57)))%nat.

(** [s.replace(/[^a-z0-9]+/g, "-")]; [in_run] says that the previous
    character already belonged to the run being collapsed. *)
Fixpoint collapse_non_alnum (in_run : bool) (s : string) : string :=
  match s with
  | EmptyString => EmptyString
  | String c s' =>
      if is_alnum_lower c then String c (collapse_non_alnum false s')
      else if in_run then collapse_non_alnum true s'
      else String "-" (collapse_non_alnum true s')
  end.

Fixpoint drop_leading_hyphens (s : string) : string :=
  match s with
  | String c s' => if Ascii.eqb c "-" then drop_leading_hyphens s' else s
  | EmptyString => EmptyString
  end.

(** [s.replace(/^-+|-+$/g, "")] *)
Definition trim_hyphens (s : string) : string :=
  String.rev (drop_leading_hyphens (String.rev (drop_leading_hyphens s))).

(** The id derivation shared by both add-game routes:
    [name.toLowerCase().replace(/[^a-z0-9]+/g, "-").replace(/^-+|-+$/g, "")]. *)
Definition slugify (name : string) : string :=
  trim_hyphens (collapse_non_alnum false (toLowerCase name)).

Fixpoint contains_char (c : ascii) (s : string) : bool :=
  match s with
  | EmptyString => false
  | String d s' => Ascii.eqb d c || contains_char c s'
  end.

Fixpoint drop (n : nat) (s : string) : string :=
  match n, s with
  | O, _ => s
  | S n', String _ s' => drop n' s'
  | S _, EmptyString => EmptyString
  end.

Fixpoint take (n : nat) (s : string) : string :=
  match n, s with
  | S n', String c s' => String c (take n' s')
  | _, _ => EmptyString
  end.

(** [a || d] for a string that may be missing: [undefined], [null] and the
    empty string are falsy. *)
Definition or_default (a : option string) (d : string) : string :=
  match a with
  | Some s => if decide (s = "") then d else s
  | None => d
  end.

(** What [.] cannot match in a regular expression without the [s] flag. *)
Definition is_line_terminator (c : ascii) : bool :=
  Ascii.eqb c "010" || Ascii.eqb c "013".

Fixpoint has_line_terminator (s : string) : bool :=
  match s with
  | EmptyString => false
  | String c s' => is_line_terminator c || has_line_terminator s'
  end.

End Str.

(** ** The filesystem through Deno's eyes *)

Module Fs.

Definition bytes := list Byte.byte.

(** What [Deno.stat] can tell about a path that exists. *)
Inductive entry :=
| FileE (content : bytes)
| DirE.

Definition isDirectory (e : entry) : bool :=
  match e with DirE => true | FileE _ => false end.
Definition isFile (e : entry) : bool :=
  match e with FileE _ => true | DirE => false end.

(** A filesystem maps an absolute path, a list of segments, to what is
    there. *)
Abbreviation t := (gmap (list string) entry).

(** [join(base, seg)] of std/path for one slash-free segment: empty and
    ["."] segments vanish, [".."] climbs. *)
Definition join (base : list string) (seg : string) : list string :=
  if decide (seg = "" ∨ seg = ".") then base
  else if decide (seg = "..") then removelast base
  else base ++ [seg].

(** The names a directory entry can carry. *)
Definition proper_name (seg : string) : Prop :=
  seg ≠ "" ∧ seg ≠ "." ∧ seg ≠ "..".

(** [Deno.stat(p)]; [None] stands for the NotFound rejection. *)
Definition stat (fs : t) (p : list string) : option entry := fs !! p.

Definition child_of (dir q : list string) : option string :=
  match last q with
  | Some n => if decide (q = dir ++ [n]) then Some n else None
  | None => None
  end.

Definition children (fs : t) (dir : list string) : list (string * entry) :=
  omap (λ qe : list string * entry, (λ n, (n, qe.2)) <$> child_of dir qe.1)
       (map_to_list fs).

(** [Deno.readDir(dir)]: the immediate children with their kind. *)
Definition readDir (fs : t) (dir : list string) : option (list (string * entry)) :=
  match fs !! dir with
  | Some DirE => Some (children fs dir)
  | _ => None
  end.

(** [Deno.remove(p, { recursive: true })] *)
Definition remove_recursive (fs : t) (p : list string) : t :=
  filter (λ qe : list string * entry, ¬ (p `prefix_of` qe.1)) fs.

(** [Deno.writeFile(p, data)]: creates or truncates; rejects when [p] is a
    directory or when its parent is not one. *)
Definition writeFile (fs : t) (p : list string) (data : bytes) : option t :=
  match fs !! p with
  | Some DirE => None
  | _ =>
      match fs !! removelast p with
      | Some DirE => Some (<[p := FileE data]> fs)
      | _ => None
      end
  end.

(** [ensureDir(p)] of std/fs: creates [p] and its missing ancestors;
    rejects when a file is in the way. [pre] is the part of the path
    already walked. *)
Fixpoint ensureDir_from (fs : t) (pre rest : list string) : option t :=
  match fs !! pre with
  | Some (FileE _) => None
  | _ =>
      let fs' := <[pre := DirE]> fs in
      match rest with
      | [] => Some fs'
      | s :: rest' => ensureDir_from fs' (pre ++ [s]) rest'
      end
  end.
Definition ensureDir (fs : t) (p : list string) : option t :=
  ensureDir_from fs [] p.

(** [copy(src, dest, { overwrite: true })] of std/fs walks the source tree.
    [descendants ex base] are the entries strictly below [base], with their
    path relative to it. *)
Definition strip_prefix (base q : list string) : option (list string) :=
  if decide (base `prefix_of` q) then Some (List.skipn (length base) q) else None.

Definition descendants (ex : t) (base : list string) : list (list string * entry) :=
  omap (λ qe : list string * entry,
          match strip_prefix base qe.1 with
          | Some (s :: r) => Some (s :: r, qe.2)
          | _ => None
          end)
       (map_to_list ex).

(** One step of the walk: [copyDir] refuses to replace a non-directory,
    [Deno.copyFile] cannot write onto a directory. *)
Definition copy_entry (dest : list string) (f : t)
    (re : list string * entry) : option t :=
  let d := dest ++ re.1 in
  match re.2, f !! d with
  | DirE, Some (FileE _) => None
  | DirE, _ => Some (<[d := DirE]> f)
  | FileE _, Some DirE => None
  | FileE b, _ => Some (<[d := FileE b]> f)
  end.

(** The walk stops at the first refusal and leaves what it had copied. *)
Fixpoint copy_walk (dest : list string) (f : t)
    (l : list (list string * entry)) : t * bool :=
  match l with
  | [] => (f, true)
  | re :: l' =>
      match copy_entry dest f re with
      | Some f' => copy_walk dest f' l'
      | None => (f, false)
      end
  end.

End Fs.

(** ** The server (main.ts) *)

Module Server.
Import Fs.

(** [type GameEntry] *)
Record GameEntry := {
  id : string;
  name : string;
  path : list string;
  urlPath : string;
  hasThumbnail : bool;
}.

(** What [fetch(url)] can do: reject, or resolve to a response. *)
Inductive FetchResult :=
| FetchRejects
| FetchResponse (ok : bool) (payload : bytes).

(** Everything the server takes from its platform: the collation behind
    [String.prototype.localeCompare], the network, and the archivers run
    through [Deno.Command] ([None]: the command is missing or exits
    unsuccessfully; [Some ex]: the tree left in the extraction directory,
    with paths relative to it). *)
Record Platform := {
  localeCompare : string → string → Z;
  fetch : string → FetchResult;
  unzip : bytes → option Fs.t;
  ditto : bytes → option Fs.t;
  os_is_darwin : bool;
}.

(** Observable calls out of the process, oldest first. *)
Inductive Effect :=
| EFetch (url : string)
| ERun (command : string).

Record State := {
  fs : Fs.t;
  log : list Effect;
}.

(** A computation either returns or throws, and leaves a state behind. *)
Inductive Res (A : Type) :=
| Ok (a : A)
| Throw.
Arguments Ok {A} a.
Arguments Throw {A}.

Definition M (A : Type) := State → Res A * State.

Definition ret {A} (a : A) : M A := λ st, (Ok a, st).
Definition throw {A} : M A := λ st, (Throw, st).
Definition bind {A B} (m : M A) (k : A → M B) : M B :=
  λ st, match m st with
        | (Ok a, st') => k a st'
        | (Throw, st') => (Throw, st')
        end.
Definition try_catch {A} (m : M A) (handler : M A) : M A :=
  λ st, match m st with
        | (Ok a, st') => (Ok a, st')
        | (Throw, st') => handler st'
        end.
Definition get_fs : M Fs.t := λ st, (Ok (fs st), st).
Definition put_fs (f : Fs.t) : M unit :=
  λ st, (Ok tt, {| fs := f; log := log st |}).
Definition emit (e : Effect) : M unit :=
  λ st, (Ok tt, {| fs := fs st; log := log st ++ [e] |}).
Definition lift_option {A} (o : option A) : M A :=
  match o with Some a => ret a | None => throw end.

#[global] Instance M_ret : MRet M := @ret.
#[global] Instance M_bind : MBind M := λ A B k m, bind m k.

(** [entries.sort(cmp)]: the sort is stable and the comparator consistent,
    which fixes the result; insertion from the right computes it. *)
Fixpoint insert_by {A} (cmp : A → A → Z) (x : A) (l : list A) : list A :=
  match l with
  | [] => [x]
  | y :: l' => if cmp x y <=? 0 then x :: l else y :: insert_by cmp x l'
  end.
Definition sort_by {A} (cmp : A → A → Z) (l : list A) : list A :=
  foldr (insert_by cmp) [] l.

Definition thumbnail_present (f : Fs.t) (fsPath : list string) : bool :=
  match stat f (join fsPath "thumbnail.png") with
  | Some e => isFile e
  | None => false
  end.

(** The body of the [for await] loop of [listGames] for one [dirEntry]. *)
Definition game_entry (GAMES_DIR : list string) (f : Fs.t)
    (dirEntry : string * entry) : option GameEntry :=
  if negb (isDirectory dirEntry.2) then None
  else
    let id := dirEntry.1 in
    let fsPath := join GAMES_DIR id in
    Some {| id := id;
            name := Str.replace_dash_underscore id;
            path := fsPath;
            urlPath := "/games/" +:+ id +:+ "/";
            hasThumbnail := thumbnail_present f fsPath |}.

Definition listGames (P : Platform) (GAMES_DIR : list string) : M (list GameEntry) :=
  f ← get_fs;
  dirEntries ← lift_option (readDir f GAMES_DIR);
  ret (sort_by (λ a b, localeCompare P (name a) (name b))
               (omap (game_entry GAMES_DIR f) dirEntries)).

Definition ensureDirM (p : list string) : M unit :=
  f ← get_fs;
  f' ← lift_option (ensureDir f p);
  put_fs f'.

(** [copy(base, targetDir, { overwrite: true })], the source living in the
    extraction directory [ex] (whose root is its path [[]]). *)
Definition copy (ex : Fs.t) (base dest : list string) : M unit :=
  f ← get_fs;
  match (if decide (base = []) then Some DirE else ex !! base) with
  | None => throw
  | Some (FileE b) =>
      match f !! dest with
      | Some DirE => throw
      | _ => put_fs (<[dest := FileE b]> f)
      end
  | Some DirE =>
      match f !! dest with
      | Some (FileE _) => throw
      | _ =>
          let r := copy_walk dest (<[dest := DirE]> f) (descendants ex base) in
          put_fs r.1;;
          if r.2 then ret tt else throw
      end
  end.

(** The two archivers of [saveZipToDir]: [unzip], then [ditto] on macOS. The
    temporary zip file and extraction directory live outside the library
    and are kept out of [fs]; the extracted tree is handed over as a value. *)
Definition extract (P : Platform) (zipBytes : bytes) : M Fs.t :=
  emit (ERun "unzip");;
  match unzip P zipBytes with
  | Some ex => ret ex
  | None =>
      if os_is_darwin P then
        emit (ERun "/usr/bin/ditto");;
        lift_option (ditto P zipBytes)
      else throw
  end.

(** What the archivers leave behind, if anything. *)
Definition archive_of (P : Platform) (zipBytes : bytes) : option Fs.t :=
  match unzip P zipBytes with
  | Some ex => Some ex
  | None => if os_is_darwin P then ditto P zipBytes else None
  end.

(** "Determine base directory inside extracted content": the path of
    [base] relative to [extractRoot]. *)
Definition resolve_base (ex : Fs.t) (subdirHint : option string) : list string :=
  let topLevel := (children ex []).*1 in
  let base := match topLevel with
              | [only] => join [] only
              | _ => []
              end in
  let hint := Str.toLowerCase (Str.or_default subdirHint "root") in
  if decide (hint = "dist" ∨ hint = "docs") then join base hint else base.

Definition saveZipToDir (P : Platform) (zipBytes : bytes)
    (targetDir : list string) (subdirHint : option string) : M unit :=
  ensureDirM targetDir;;
  ex ← extract P zipBytes;
  let base := resolve_base ex subdirHint in
  ensureDirM targetDir;;
  copy ex base targetDir.

(** [String(repo).match(/github.com\/(.+?)\/(.+?)(?:\.git)?$/)].
    [match_host] consumes [github], any one character and [com/]. *)
Definition match_host (s : string) : option string :=
  if Str.startsWith s "github" then
    match Str.drop 6 s with
    | String c rest =>
        if Str.is_line_terminator c then None
        else if Str.startsWith rest "com/" then Some (Str.drop 4 rest) else None
    | EmptyString => None
    end
  else None.

(** The lazy first group: the shortest non-empty run followed by a slash
    after which something is left. [acc] is the run so far, reversed. *)
Fixpoint find_owner (acc t : string) : option (string * string) :=
  match t with
  | EmptyString => None
  | String c t' =>
      if Ascii.eqb c "/" && negb (bool_decide (acc = ""))
         && negb (bool_decide (t' = ""))
      then Some (String.rev acc, t')
      else find_owner (String c acc) t'
  end.

(** The lazy second group against [(?:\.git)?$]. *)
Definition repo_name (r : string) : string :=
  if Str.endsWith r ".git" && (4 <? String.length r)%nat
  then Str.take (String.length r - 4) r
  else r.

Definition match_at (s : string) : option (string * string) :=
  t ← match_host s;
  if Str.has_line_terminator t then None
  else
    '(owner, r) ← find_owner "" t;
    Some (owner, repo_name r).

(** The match is tried at every start position, leftmost first. *)
Fixpoint match_repo (s : string) : option (string * string) :=
  match match_at s with
  | Some m => Some m
  | None =>
      match s with
      | String _ s' => match_repo s'
      | EmptyString => None
      end
  end.

(** Requests and responses, as far as [handleApi] looks at them. *)
Record GithubJson := {
  repo : option string;
  branch : option string;
  subdir : option string;
  gname : option string;
}.

Record Form := {
  file : option bytes;
  fname : option string;
  fsubdir : option string;
}.

Record Request := {
  method : string;
  pathname : string;
  rawBody : bytes;
  jsonBody : option GithubJson;
  formData : option Form;
}.

Inductive Body :=
| Text (s : string)
| JsonGames (games : list GameEntry)
| JsonOkId (id : string)
| JsonOk.

Record Response := {
  status : Z;
  body : Body;
}.

Definition json (b : Body) : Response := {| status := 200; body := b |}.
Definition text (s : string) (code : Z) : Response := {| status := code; body := Text s |}.

(** [try { const stat = await Deno.stat(target);
          if (!stat.isDirectory) throw ... } catch { ... }] *)
Definition is_existing_directory (f : Fs.t) (target : list string) : bool :=
  match stat f target with
  | Some e => isDirectory e
  | None => false
  end.

Definition zipUrl (owner repoName useBranch : string) : string :=
  "https://codeload.github.com/" +:+ owner +:+ "/" +:+ repoName
    +:+ "/zip/refs/heads/" +:+ useBranch.

(** [handleApi]: [None] is the [undefined] that sends the request on to
    the static routes. *)
Definition handleApi (P : Platform) (GAMES_DIR : list string)
    (req : Request) : M (option Response) :=
  if bool_decide (pathname req = "/api/games") && bool_decide (method req = "GET") then
    games ← listGames P GAMES_DIR;
    ret (Some (json (JsonGames games)))
  else if bool_decide (pathname req = "/api/add-game/from-zip")
          && bool_decide (method req = "POST") then
    form ← lift_option (formData req);
    let name := Str.or_default (fname form) "game" in
    let subdir := Str.or_default (fsubdir form) "root" in
    match file form with
    | None => ret (Some (text "file required" 400))
    | Some zipBytes =>
        let id := Str.slugify name in
        let target := join GAMES_DIR id in
        ensureDirM target;;
        saveZipToDir P zipBytes target (Some subdir);;
        ret (Some (json (JsonOkId id)))
    end
  else if bool_decide (pathname req = "/api/add-game/from-github")
          && bool_decide (method req = "POST") then
    j ← lift_option (jsonBody req);
    match repo j with
    | None => ret (Some (text "repo required" 400))
    | Some r =>
        if bool_decide (r = "") then ret (Some (text "repo required" 400))
        else
          match match_repo r with
          | None => ret (Some (text "invalid repo url" 400))
          | Some (owner, repoName) =>
              let useBranch := Str.or_default (branch j) "main" in
              let url := zipUrl owner repoName useBranch in
              emit (EFetch url);;
              match fetch P url with
              | FetchRejects => throw
              | FetchResponse false _ => ret (Some (text "download failed" 502))
              | FetchResponse true zipBytes =>
                  let id := Str.slugify (Str.or_default (gname j) repoName) in
                  let target := join GAMES_DIR id in
                  ensureDirM target;;
                  saveZipToDir P zipBytes target
                    (Some (Str.or_default (subdir j) "root"));;
                  ret (Some (json (JsonOkId id)))
              end
          end
    end
  else if Str.startsWith (pathname req) "/api/games/"
          && Str.endsWith (pathname req) "/thumbnail"
          && bool_decide (method req = "POST") then
    id ← lift_option (Str.at_index (Str.split "/" (pathname req)) 3);
    let target := join GAMES_DIR id in
    f ← get_fs;
    if negb (is_existing_directory f target) then ret (Some (text "not found" 404))
    else
      f' ← lift_option (writeFile f (join target "thumbnail.png") (rawBody req));
      put_fs f';;
      ret (Some (json JsonOk))
  else if Str.startsWith (pathname req) "/api/games/"
          && bool_decide (method req = "DELETE") then
    id ← lift_option (Str.at_index (Str.split "/" (pathname req)) 3);
    let target := join GAMES_DIR id in
    f ← get_fs;
    if negb (is_existing_directory f target) then ret (Some (text "not found" 404))
    else
      put_fs (remove_recursive f target);;
      ret (Some (json JsonOk))
  else ret None.

End Server.

(** ** The launcher frontend (static/app.js) *)

Module Frontend.

(** The module-level variables [games], [focusedIndex], [currentGame] and
    the [playing] class of the document body. *)
Record State := {
  games : list Server.GameEntry;
  focusedIndex : Z;
  currentGame : option Server.GameEntry;
  playing : bool;
}.

Definition initial : State :=
  {| games := []; focusedIndex := 0; currentGame := None; playing := false |}.

Definition set_focusedIndex (i : Z) (st : State) : State :=
  {| games := games st; focusedIndex := i;
     currentGame := currentGame st; playing := playing st |}.

Definition set_games (l : list Server.GameEntry) (st : State) : State :=
  {| games := l; focusedIndex := focusedIndex st;
     currentGame := currentGame st; playing := playing st |}.

(** [games[i]] *)
Definition game_at (l : list Server.GameEntry) (i : Z) : option Server.GameEntry :=
  if 0 <=? i then nth_error l (Z.to_nat i) else None.

Definition openGame (game : Server.GameEntry) (st : State) : State :=
  {| games := games st; focusedIndex := focusedIndex st;
     currentGame := Some game; playing := true |}.

Definition exitGame (st : State) : State :=
  {| games := games st; focusedIndex := focusedIndex st;
     currentGame := None; playing := false |}.

(** [Math.max(0, Math.min(games.length - 1, i))] *)
Definition clamp (len : nat) (i : Z) : Z :=
  Z.max 0 (Z.min (Z.of_nat len - 1) i).

Definition focusIndex (i : Z) (open : bool) (st : State) : State :=
  if bool_decide (length (games st) = 0%nat) then st
  else
    let st1 := set_focusedIndex (clamp (length (games st)) i) st in
    if open then
      match game_at (games st1) (focusedIndex st1) with
      | Some game => openGame game st1
      | None => st1
      end
    else st1.

(** [renderCoverflow] rebuilds the cards and ends in
    [focusIndex(focusedIndex, false)]. *)
Definition renderCoverflow (st : State) : State :=
  focusIndex (focusedIndex st) false st.

(** [fetchGames], once [/api/games] has answered with [fetched]. *)
Definition fetchGames (fetched : list Server.GameEntry) (st : State) : State :=
  renderCoverflow (set_games fetched st).

(** [globalKeyHandler], as far as it touches the state above. *)
Definition globalKeyHandler (key : string) (st : State) : State :=
  let st1 := if bool_decide (key = "ArrowLeft")
             then focusIndex (focusedIndex st - 1) false st else st in
  let st2 := if bool_decide (key = "ArrowRight")
             then focusIndex (focusedIndex st1 + 1) false st1 else st1 in
  let st3 := if (bool_decide (key = "Enter") || bool_decide (key = " "))
                && negb (playing st2)
             then focusIndex (focusedIndex st2) true st2 else st2 in
  if bool_decide (key = "Escape") && playing st3 then exitGame st3 else st3.

(** [a.splice(start, 1)] for an integer [start]. *)
Definition splice1 {A} (l : list A) (start : Z) : list A :=
  let len := Z.of_nat (length l) in
  let s := if start <? 0 then Z.max (len + start) 0 else Z.min start len in
  firstn (Z.to_nat s) l ++ skipn (S (Z.to_nat s)) l.

(** [deleteGame(gameId, gameIndex)]: [confirmed] is the answer to the
    [confirm] dialog, [res] the fate of the DELETE request ([None]: the
    fetch rejected, [Some ok]: it resolved with [res.ok = ok]). *)
Definition deleteGame (gameIndex : Z) (confirmed : bool) (res : option bool)
    (st : State) : State :=
  if negb confirmed then st
  else
    match res with
    | Some true =>
        let st1 := set_games (splice1 (games st) gameIndex) st in
        let st2 := if focusedIndex st1 >=? Z.of_nat (length (games st1))
                   then set_focusedIndex
                          (Z.max 0 (Z.of_nat (length (games st1)) - 1)) st1
                   else st1 in
        renderCoverflow st2
    | _ => st
    end.

(** Everything that writes [games] or [focusedIndex]. *)
Inductive Op :=
| Focus (i : Z) (open : bool)
| Key (key : string)
| Fetched (l : list Server.GameEntry)
| Delete (gameIndex : Z) (confirmed : bool) (res : option bool)
| Exit.

Definition step (op : Op) (st : State) : State :=
  match op with
  | Focus i open => focusIndex i open st
  | Key k => globalKeyHandler k st
  | Fetched l => fetchGames l st
  | Delete gi c r => deleteGame gi c r st
  | Exit => exitGame st
  end.

Definition run (ops : list Op) (st : State) : State :=
  fold_left (λ s op, step op s) ops st.

(** The bound the specification asks of [focusedIndex]. *)
Definition focus_in_bounds (st : State) : Prop :=
  games st ≠ [] → 0 ≤ focusedIndex st < Z.of_nat (length (games st)).

End Frontend.

(** ** The gamepad subsystem (static/gamepad-support.js) *)

Module Gamepad.

(** One slot of the button mapping. *)
Record ButtonMapping := {
  gamepadButton : Z;
  keyboardKey : string;
  keyCode : Z;
}.

(** A group is a JavaScript object used as an ordered dictionary from the
    logical button name to its slot ([for ... in] walks it in insertion
    order). *)
Abbreviation Group := (list (string * ButtonMapping)).

Record Mapping := {
  dpad : option Group;
  face : option Group;
  shoulder : option Group;
  special : option Group;
}.

Definition slot (b : Z) (k : string) (c : Z) : ButtonMapping :=
  {| gamepadButton := b; keyboardKey := k; keyCode := c |}.

Definition defaultMapping : Mapping := {|
  dpad := Some [("up", slot 12 "ArrowUp" 38); ("down", slot 13 "ArrowDown" 40);
                ("left", slot 14 "ArrowLeft" 37); ("right", slot 15 "ArrowRight" 39)];
  face := Some [("btnBottom", slot 0 " " 32); ("btnRight", slot 1 "c" 67);
                ("btnLeft", slot 2 "c" 67); ("btnTop", slot 3 " " 32)];
  shoulder := Some [("leftShoulder", slot 4 "q" 81); ("rightShoulder", slot 5 "e" 69);
                    ("leftTrigger", slot 6 "r" 82); ("rightTrigger", slot 7 "t" 84)];
  special := Some [("select", slot 8 "Backspace" 8); ("start", slot 9 "Enter" 13);
                   ("leftStick", slot 10 "f" 70); ("rightStick", slot 11 "g" 71);
                   ("home", slot 16 "h" 72)];
|}.

(** [mapping[groupName]] *)
Definition group_of (m : Mapping) (groupName : string) : option Group :=
  if bool_decide (groupName = "dpad") then dpad m
  else if bool_decide (groupName = "face") then face m
  else if bool_decide (groupName = "shoulder") then shoulder m
  else if bool_decide (groupName = "special") then special m
  else None.

(** [group[buttonName]] and [buttonName in group] *)
Fixpoint lookup_button (g : Group) (buttonName : string) : option ButtonMapping :=
  match g with
  | [] => None
  | (n, m) :: g' => if bool_decide (n = buttonName) then Some m else lookup_button g' buttonName
  end.

Definition has_button (g : Group) (buttonName : string) : bool :=
  match lookup_button g buttonName with Some _ => true | None => false end.

(** [mapping[groupName][buttonName]]; [None] is the TypeError of reading a
    property of [undefined] one step later. *)
Definition slot_of (m : Mapping) (groupName buttonName : string) : option ButtonMapping :=
  g ← group_of m groupName; lookup_button g buttonName.

(** *** Persistence *)

(** [JSON.stringify] and [JSON.parse], restricted to mappings. *)
Record Json := {
  stringify : Mapping → string;
  parse : string → option Mapping;
}.

(** [localStorage] *)
Abbreviation Storage := (gmap string string).

Definition saveMapping (J : Json) (currentMapping : Mapping) (localStorage : Storage) : Storage :=
  <["gamepadMapping" := stringify J currentMapping]> localStorage.

Definition needsMigration (f : Group) : bool :=
  has_button f "north" || has_button f "east"
  || has_button f "south" || has_button f "west".

(** [f.north || this.defaultMapping.face.btnTop] and its three siblings. *)
Definition or_default_slot (legacy : option ButtonMapping) (newName : string)
    : option ButtonMapping :=
  match legacy with
  | Some s => Some s
  | None => slot_of defaultMapping "face" newName
  end.

Definition migrate_face (f : Group) : Group :=
  if needsMigration f then
    omap (λ p : string * string,
            (λ s, (p.1, s)) <$> or_default_slot (lookup_button f p.2) p.1)
         [("btnTop", "north"); ("btnRight", "east");
          ("btnBottom", "south"); ("btnLeft", "west")]
  else f.

Definition migrate (mapping : Mapping) : Mapping :=
  match face mapping with
  | Some f => {| dpad := dpad mapping; face := Some (migrate_face f);
                 shoulder := shoulder mapping; special := special mapping |}
  | None => mapping
  end.

(** [loadMapping]; [None] is [JSON.parse] throwing. *)
Definition loadMapping (J : Json) (localStorage : Storage) : option Mapping :=
  mapping ← match localStorage !! "gamepadMapping" with
            | Some saved => if bool_decide (saved = "") then Some defaultMapping
                            else parse J saved
            | None => Some defaultMapping
            end;
  Some (migrate mapping).

(** *** Per-frame input processing *)

(** A [Gamepad] object as the manager reads it: [buttons[i].pressed] and
    [axes]. Axis values are rationals. *)
Record Controller := {
  buttons : list bool;
  axes : list Q;
}.

(** [controller.buttons[i]], then its [pressed]. *)
Definition button (c : Controller) (i : Z) : option bool :=
  if 0 <=? i then nth_error (buttons c) (Z.to_nat i) else None.

(** [controller.buttons[i]?.pressed] in a condition. *)
Definition pressed (c : Controller) (i : Z) : bool :=
  match button c i with Some b => b | None => false end.

(** A value stored under a key of [buttonState[index]]: a boolean, or the
    four-way object kept for an analog stick. *)
Inductive BSVal :=
| BBool (b : bool)
| BStick (left right up down : bool).

(** Truthiness of [o[key]]: a missing key and [false] are falsy, objects
    are truthy. *)
Definition truthy (v : option BSVal) : bool :=
  match v with
  | Some (BBool b) => b
  | Some (BStick _ _ _ _) => true
  | None => false
  end.

Inductive Direction := DLeft | DRight | DUp | DDown.

(** The parts of the page the manager reads back. *)
Record World := {
  playing : bool;
  osdOpen : bool;
  gameMenuOpen : bool;
  configuratorVisible : bool;
  osdButtons : nat;
  gameMenuButtons : nat;
}.

(** What the manager does to the page. *)
Inductive Action :=
| KeyboardEvent (eventType : string) (m : ButtonMapping)
| ToggleFullscreen
| CloseConfigurator
| FocusIndex (delta : Z) (open : bool)
| ShowGameMenu
| ToggleOSD (show : bool)
| DeferInitOSDFocus
| HideGameMenu
| FocusOSDItem (i : Z)
| ClickOSDItem (i : Z)
| FocusGameMenuItem (i : Z)
| ClickGameMenuItem (i : Z)
| InitOSDFocus (i : Z)
| InitGameMenuFocus (i : Z).

Record St := {
  currentMapping : Mapping;
  buttonState : gmap nat (gmap string BSVal);
  testingMode : bool;
  wasOSDOpen : bool;
  wasGameMenuOpen : bool;
  osdFocusIndex : Z;
  gameMenuFocusIndex : Z;
  world : World;
  trace : list Action;
}.

Definition set_buttonState (v : gmap nat (gmap string BSVal)) (st : St) : St :=
  {| currentMapping := currentMapping st; buttonState := v;
     testingMode := testingMode st; wasOSDOpen := wasOSDOpen st;
     wasGameMenuOpen := wasGameMenuOpen st; osdFocusIndex := osdFocusIndex st;
     gameMenuFocusIndex := gameMenuFocusIndex st; world := world st;
     trace := trace st |}.
Definition set_testingMode (v : bool) (st : St) : St :=
  {| currentMapping := currentMapping st; buttonState := buttonState st;
     testingMode := v; wasOSDOpen := wasOSDOpen st;
     wasGameMenuOpen := wasGameMenuOpen st; osdFocusIndex := osdFocusIndex st;
     gameMenuFocusIndex := gameMenuFocusIndex st; world := world st;
     trace := trace st |}.
Definition set_wasOSDOpen (v : bool) (st : St) : St :=
  {| currentMapping := currentMapping st; buttonState := buttonState st;
     testingMode := testingMode st; wasOSDOpen := v;
     wasGameMenuOpen := wasGameMenuOpen st; osdFocusIndex := osdFocusIndex st;
     gameMenuFocusIndex := gameMenuFocusIndex st; world := world st;
     trace := trace st |}.
Definition set_wasGameMenuOpen (v : bool) (st : St) : St :=
  {| currentMapping := currentMapping st; buttonState := buttonState st;
     testingMode := testingMode st; wasOSDOpen := wasOSDOpen st;
     wasGameMenuOpen := v; osdFocusIndex := osdFocusIndex st;
     gameMenuFocusIndex := gameMenuFocusIndex st; world := world st;
     trace := trace st |}.
Definition set_osdFocusIndex (v : Z) (st : St) : St :=
  {| currentMapping := currentMapping st; buttonState := buttonState st;
     testingMode := testingMode st; wasOSDOpen := wasOSDOpen st;
     wasGameMenuOpen := wasGameMenuOpen st; osdFocusIndex := v;
     gameMenuFocusIndex := gameMenuFocusIndex st; world := world st;
     trace := trace st |}.
Definition set_gameMenuFocusIndex (v : Z) (st : St) : St :=
  {| currentMapping := currentMapping st; buttonState := buttonState st;
     testingMode := testingMode st; wasOSDOpen := wasOSDOpen st;
     wasGameMenuOpen := wasGameMenuOpen st; osdFocusIndex := osdFocusIndex st;
     gameMenuFocusIndex := v; world := world st;
     trace := trace st |}.
Definition set_world (v : World) (st : St) : St :=
  {| currentMapping := currentMapping st; buttonState := buttonState st;
     testingMode := testingMode st; wasOSDOpen := wasOSDOpen st;
     wasGameMenuOpen := wasGameMenuOpen st; osdFocusIndex := osdFocusIndex st;
     gameMenuFocusIndex := gameMenuFocusIndex st; world := v;
     trace := trace st |}.
Definition set_trace (v : list Action) (st : St) : St :=
  {| currentMapping := currentMapping st; buttonState := buttonState st;
     testingMode := testingMode st; wasOSDOpen := wasOSDOpen st;
     wasGameMenuOpen := wasGameMenuOpen st; osdFocusIndex := osdFocusIndex st;
     gameMenuFocusIndex := gameMenuFocusIndex st; world := world st;
     trace := v |}.

(** [this.buttonState[controllerIndex][key] = v] *)
Definition set_flag (controllerIndex : nat) (key : string) (v : BSVal) (st : St) : St :=
  set_buttonState
    (<[controllerIndex := <[key := v]> (default ∅ (buttonState st !! controllerIndex))]>
       (buttonState st)) st.

Definition set_flag_bool (controllerIndex : nat) (key : string) (b : bool) (st : St) : St :=
  set_flag controllerIndex key (BBool b) st.

(** A call into the page ([window.toggleOSD], [window.focusIndex], a
    [click()], an event dispatched into the game frame, ...): it is
    recorded, and the page reacts through [react]. *)
Definition perform (react : Action → World → World) (a : Action) (st : St) : St :=
  set_world (react a (world st)) (set_trace (trace st ++ [a]) st).

(** A DOM change no page code listens to ([focus()]): recorded only. *)
Definition note (a : Action) (st : St) : St :=
  set_trace (trace st ++ [a]) st.

Definition isOSDOpen (st : St) : bool := osdOpen (world st).
Definition isGameMenuOpen (st : St) : bool := gameMenuOpen (world st).
Definition isAnyOverlayOpen (st : St) : bool := isOSDOpen st || isGameMenuOpen st.
Definition isConfiguratorOpen (st : St) : bool := configuratorVisible (world st).
Definition isTestingActive (st : St) : bool := testingMode st && isConfiguratorOpen st.
Definition shouldSwallowFor (controllerIndex : nat) (st : St) : bool :=
  isTestingActive st.

(** [closeConfigurator]: drops the [visible] class and ends with
    [setTestingMode(false)]. *)
Definition closeConfigurator (st : St) : St :=
  let w := world st in
  set_testingMode false
    (set_world {| playing := playing w; osdOpen := osdOpen w;
                  gameMenuOpen := gameMenuOpen w; configuratorVisible := false;
                  osdButtons := osdButtons w; gameMenuButtons := gameMenuButtons w |}
       (note CloseConfigurator st)).

Definition dispatchKeyboardEvent (react : Action → World → World)
    (eventType : string) (mapping : ButtonMapping) (st : St) : St :=
  if negb (playing (world st)) then st
  else if isAnyOverlayOpen st then st
  else
    let st1 := perform react (KeyboardEvent eventType mapping) st in
    if bool_decide (keyboardKey mapping = " ") && bool_decide (eventType = "keydown")
    then perform react (KeyboardEvent "keypress" mapping) st1
    else st1.

Definition handleSpecialActions (react : Action → World → World)
    (groupName buttonName : string) (st : St) : St :=
  if bool_decide (groupName = "special") && bool_decide (buttonName = "home")
  then perform react ToggleFullscreen st
  else st.

Definition overlay_group (groupName : string) : bool :=
  bool_decide (groupName = "dpad") || bool_decide (groupName = "face")
  || bool_decide (groupName = "shoulder").

(** The [for (let buttonName in group)] loop of [processButtonGroup]; the
    [return] of the configurator branch leaves the loop. *)
Fixpoint processButtons (react : Action → World → World) (groupName : string)
    (controller : Controller) (controllerIndex : nat)
    (prevButtonState : gmap string BSVal) (group : Group) (st : St) : St :=
  match group with
  | [] => st
  | (buttonName, mapping) :: rest =>
      match button controller (gamepadButton mapping) with
      | None => processButtons react groupName controller controllerIndex
                  prevButtonState rest st
      | Some isPressed =>
          let wasPressed := truthy (prevButtonState !! buttonName) in
          let swallow := shouldSwallowFor controllerIndex st in
          let finish := λ st', processButtons react groupName controller
                            controllerIndex prevButtonState rest
                            (set_flag_bool controllerIndex buttonName isPressed st') in
          let isFace := λ n, bool_decide (groupName = "face") && bool_decide (buttonName = n) in
          if isPressed && negb wasPressed then
            if swallow then finish st
            else if isConfiguratorOpen st && isFace "btnRight" then
              set_flag_bool controllerIndex "faceEast" true (closeConfigurator st)
            else if isAnyOverlayOpen st && overlay_group groupName then
              let st1 := if isFace "btnBottom"
                         then set_flag_bool controllerIndex "faceSouth" true st else st in
              let st2 := if isFace "btnRight"
                         then set_flag_bool controllerIndex "faceEast" true st1 else st1 in
              finish st2
            else
              finish (handleSpecialActions react groupName buttonName
                        (dispatchKeyboardEvent react "keydown" mapping st))
          else if negb isPressed && wasPressed then
            if swallow then finish st
            else if isAnyOverlayOpen st && overlay_group groupName then
              let st1 := if isFace "btnBottom"
                         then set_flag_bool controllerIndex "faceSouth" false st else st in
              let st2 := if isFace "btnRight"
                         then set_flag_bool controllerIndex "faceEast" false st1 else st1 in
              finish st2
            else finish (dispatchKeyboardEvent react "keyup" mapping st)
          else finish st
      end
  end.

Definition processButtonGroup (react : Action → World → World) (groupName : string)
    (controller : Controller) (controllerIndex : nat)
    (prevButtonState : gmap string BSVal) (st : St) : St :=
  match group_of (currentMapping st) groupName with
  | None => st
  | Some group => processButtons react groupName controller controllerIndex
                    prevButtonState group st
  end.

(** *** Overlay and launcher helpers *)

Definition normalize_focus (i : Z) : Z := if i <? 0 then 0 else i.

Definition initOSDFocus (st : St) : St :=
  let n := Z.of_nat (osdButtons (world st)) in
  if n =? 0 then set_osdFocusIndex (-1) st
  else
    let i := if (osdFocusIndex st <? 0) || (osdFocusIndex st >=? n)
             then 0 else osdFocusIndex st in
    note (InitOSDFocus i) (set_osdFocusIndex i st).

Definition initGameMenuFocus (st : St) : St :=
  let n := Z.of_nat (gameMenuButtons (world st)) in
  if n =? 0 then set_gameMenuFocusIndex (-1) st
  else
    let i := if (gameMenuFocusIndex st <? 0) || (gameMenuFocusIndex st >=? n)
             then 0 else gameMenuFocusIndex st in
    note (InitGameMenuFocus i) (set_gameMenuFocusIndex i st).

Definition handleOSDNavigation (direction : Direction) (st : St) : St :=
  let n := Z.of_nat (osdButtons (world st)) in
  if n =? 0 then st
  else
    let i0 := normalize_focus (osdFocusIndex st) in
    let i := match direction with
             | DUp | DLeft => Z.rem (i0 - 1 + n) n
             | DDown | DRight => Z.rem (i0 + 1) n
             end in
    note (FocusOSDItem i) (set_osdFocusIndex i st).

Definition activateFocusedOSDItem (react : Action → World → World) (st : St) : St :=
  if Z.of_nat (osdButtons (world st)) =? 0 then st
  else
    let i := normalize_focus (osdFocusIndex st) in
    perform react (ClickOSDItem i) (set_osdFocusIndex i st).

Definition handleGameMenuNavigation (direction : Direction) (st : St) : St :=
  let n := Z.of_nat (gameMenuButtons (world st)) in
  if n =? 0 then st
  else
    let i0 := normalize_focus (gameMenuFocusIndex st) in
    let i := match direction with
             | DUp | DLeft => Z.rem (i0 - 1 + n) n
             | DDown | DRight => Z.rem (i0 + 1) n
             end in
    note (FocusGameMenuItem i) (set_gameMenuFocusIndex i st).

Definition activateFocusedGameMenuItem (react : Action → World → World) (st : St) : St :=
  if Z.of_nat (gameMenuButtons (world st)) =? 0 then st
  else
    let i := normalize_focus (gameMenuFocusIndex st) in
    perform react (ClickGameMenuItem i) (set_gameMenuFocusIndex i st).

Definition handleLauncherNavigation (react : Action → World → World)
    (direction : Direction) (st : St) : St :=
  match direction with
  | DLeft => perform react (FocusIndex (-1) false) st
  | DRight => perform react (FocusIndex 1 false) st
  | _ => st
  end.

(** [handleLauncherAction('select')] *)
Definition handleLauncherAction (react : Action → World → World) (st : St) : St :=
  perform react (FocusIndex 0 true) st.

Definition handleStartButton (react : Action → World → World) (st : St) : St :=
  perform react ShowGameMenu st.

Definition routeNavigation (react : Action → World → World)
    (direction : Direction) (st : St) : St :=
  if isGameMenuOpen st then handleGameMenuNavigation direction st
  else if isOSDOpen st then handleOSDNavigation direction st
  else handleLauncherNavigation react direction st.

(** *** Analog sticks *)

Definition Qltb (a b : Q) : bool := negb (Qle_bool b a).

(** [applyDeadzone(value, 0.15)] *)
Definition applyDeadzone (value : Q) : Q :=
  if Qltb (3 # 20) (Qabs.Qabs value) then value else 0%Q.

(** [controller.axes[i] || 0] *)
Definition axis (c : Controller) (i : nat) : Q := nth i (axes c) 0%Q.

(** The four properties read off [prevState]: a stick object has them, a
    boolean left there by someone else does not. *)
Definition stick_fields (v : option BSVal) : bool * bool * bool * bool :=
  match v with
  | Some (BStick l r u d) => (l, r, u, d)
  | _ => (false, false, false, false)
  end.

Definition processAnalogToDigital (react : Action → World → World)
    (stick : Q * Q) (controllerIndex : nat) (stickName : string) (st : St) : St :=
  let threshold := (1 # 2)%Q in
  let leftPressed := Qltb stick.1 (- threshold)%Q in
  let rightPressed := Qltb threshold stick.1 in
  let upPressed := Qltb stick.2 (- threshold)%Q in
  let downPressed := Qltb threshold stick.2 in
  let now := BStick leftPressed rightPressed upPressed downPressed in
  if shouldSwallowFor controllerIndex st then
    set_flag controllerIndex stickName now st
  else
    let '(wasLeft, wasRight, wasUp, wasDown) :=
      stick_fields (buttonState st !! controllerIndex ≫= λ bs, bs !! stickName) in
    let st1 := if leftPressed && negb wasLeft
               then routeNavigation react DLeft st else st in
    let st2 := if rightPressed && negb wasRight
               then routeNavigation react DRight st1 else st1 in
    let st3 := if upPressed && negb wasUp
               then routeNavigation react DUp st2 else st2 in
    let st4 := if downPressed && negb wasDown
               then routeNavigation react DDown st3 else st3 in
    set_flag controllerIndex stickName now st4.

(** [processAnalogSticks]; the write-only [analogState] is left out. *)
Definition processAnalogSticks (react : Action → World → World)
    (controller : Controller) (controllerIndex : nat) (st : St) : St :=
  if (length (axes controller) <? 4)%nat then st
  else
    let leftStick := (applyDeadzone (axis controller 0), applyDeadzone (axis controller 1)) in
    let rightStick := (applyDeadzone (axis controller 2), applyDeadzone (axis controller 3)) in
    processAnalogToDigital react rightStick controllerIndex "rightStick"
      (processAnalogToDigital react leftStick controllerIndex "leftStick" st).

(** *** Launcher, OSD and game-menu controls *)

(** [if (down && !prev[key]) { act; state[key] = true }
     else if (!down) { state[key] = false }] *)
Definition on_edge (down wasDown : bool) (act : St → St)
    (controllerIndex : nat) (key : string) (st : St) : St :=
  if down && negb wasDown then set_flag_bool controllerIndex key true (act st)
  else if negb down then set_flag_bool controllerIndex key false st
  else st.

Definition processLauncherControls (react : Action → World → World)
    (controller : Controller) (controllerIndex : nat)
    (prevButtonState : gmap string BSVal) (st : St) : option St :=
  if playing (world st) then Some st
  else if isAnyOverlayOpen st then Some st
  else if shouldSwallowFor controllerIndex st then Some st
  else
    left ← slot_of (currentMapping st) "dpad" "left";
    let st1 := on_edge (pressed controller (gamepadButton left))
                 (truthy (prevButtonState !! "dpadLeft"))
                 (handleLauncherNavigation react DLeft) controllerIndex "dpadLeft" st in
    right ← slot_of (currentMapping st1) "dpad" "right";
    let st2 := on_edge (pressed controller (gamepadButton right))
                 (truthy (prevButtonState !! "dpadRight"))
                 (handleLauncherNavigation react DRight) controllerIndex "dpadRight" st1 in
    btnBottom ← slot_of (currentMapping st2) "face" "btnBottom";
    let st3 := on_edge (pressed controller (gamepadButton btnBottom))
                 (truthy (prevButtonState !! "faceSouth"))
                 (handleLauncherAction react) controllerIndex "faceSouth" st2 in
    start ← slot_of (currentMapping st3) "special" "start";
    Some (on_edge (pressed controller (gamepadButton start))
            (truthy (prevButtonState !! "startPressed"))
            (handleStartButton react) controllerIndex "startPressed" st3).

Definition processOSDControls (react : Action → World → World)
    (controller : Controller) (controllerIndex : nat)
    (prevButtonState : gmap string BSVal) (st : St) : option St :=
  if shouldSwallowFor controllerIndex st then Some st
  else
    select ← slot_of (currentMapping st) "special" "select";
    down ← slot_of (currentMapping st) "dpad" "down";
    let selectPressed := pressed controller (gamepadButton select) in
    let downPressed := pressed controller (gamepadButton down) in
    if negb (isOSDOpen st) then
      Some (on_edge (selectPressed && downPressed)
              (truthy (prevButtonState !! "osdCombo"))
              (λ s, perform react DeferInitOSDFocus (perform react (ToggleOSD true) s))
              controllerIndex "osdCombo" st)
    else
      up ← slot_of (currentMapping st) "dpad" "up";
      let st1 := on_edge (pressed controller (gamepadButton up))
                   (truthy (prevButtonState !! "dpadUp"))
                   (handleOSDNavigation DUp) controllerIndex "dpadUp" st in
      let st2 := on_edge (pressed controller (gamepadButton down))
                   (truthy (prevButtonState !! "dpadDown"))
                   (handleOSDNavigation DDown) controllerIndex "dpadDown" st1 in
      btnBottom ← slot_of (currentMapping st2) "face" "btnBottom";
      let st3 := on_edge (pressed controller (gamepadButton btnBottom))
                   (truthy (prevButtonState !! "faceSouth"))
                   (activateFocusedOSDItem react) controllerIndex "faceSouth" st2 in
      btnRight ← slot_of (currentMapping st3) "face" "btnRight";
      Some (on_edge (pressed controller (gamepadButton btnRight))
              (truthy (prevButtonState !! "faceEast"))
              (perform react (ToggleOSD false)) controllerIndex "faceEast" st3).

Definition processGameMenuControls (react : Action → World → World)
    (controller : Controller) (controllerIndex : nat)
    (prevButtonState : gmap string BSVal) (st : St) : option St :=
  if shouldSwallowFor controllerIndex st then Some st
  else if negb (isGameMenuOpen st) then Some st
  else
    up ← slot_of (currentMapping st) "dpad" "up";
    let st1 := on_edge (pressed controller (gamepadButton up))
                 (truthy (prevButtonState !! "gmDpadUp"))
                 (handleGameMenuNavigation DUp) controllerIndex "gmDpadUp" st in
    down ← slot_of (currentMapping st1) "dpad" "down";
    let st2 := on_edge (pressed controller (gamepadButton down))
                 (truthy (prevButtonState !! "gmDpadDown"))
                 (handleGameMenuNavigation DDown) controllerIndex "gmDpadDown" st1 in
    btnBottom ← slot_of (currentMapping st2) "face" "btnBottom";
    let aPressed := pressed controller (gamepadButton btnBottom) in
    let st3 :=
      if aPressed && negb (truthy (prevButtonState !! "gmFaceSouth")) then
        set_flag_bool controllerIndex "faceSouth" true
          (set_flag_bool controllerIndex "gmFaceSouth" true
             (activateFocusedGameMenuItem react st2))
      else if negb aPressed then
        set_flag_bool controllerIndex "faceSouth" false
          (set_flag_bool controllerIndex "gmFaceSouth" false st2)
      else st2 in
    btnRight ← slot_of (currentMapping st3) "face" "btnRight";
    start ← slot_of (currentMapping st3) "special" "start";
    let bPressed := pressed controller (gamepadButton btnRight) in
    let startPressed := pressed controller (gamepadButton start) in
    let closePressed := bPressed || startPressed in
    if closePressed && negb (truthy (prevButtonState !! "gmClose")) then
      let st4 := set_flag_bool controllerIndex "gmClose" true
                   (perform react HideGameMenu st3) in
      let st5 := if bPressed then set_flag_bool controllerIndex "faceEast" true st4
                 else st4 in
      Some (if startPressed then set_flag_bool controllerIndex "startPressed" true st5
            else st5)
    else if negb closePressed then
      Some (set_flag_bool controllerIndex "startPressed" false
              (set_flag_bool controllerIndex "faceEast" false
                 (set_flag_bool controllerIndex "gmClose" false st3)))
    else Some st3.

(** "Detect OSD open/close edge to initialize focus", and the same for
    the game menu: the head of the loop body of [processInputs]. *)
Definition overlay_bookkeeping (st : St) : St :=
  let osdOpen := isOSDOpen st in
  let st1 := if osdOpen && negb (wasOSDOpen st) then initOSDFocus st else st in
  let st2 := set_wasOSDOpen osdOpen st1 in
  let gameMenuOpen := isGameMenuOpen st2 in
  let st3 := if gameMenuOpen && negb (wasGameMenuOpen st2)
             then initGameMenuFocus st2 else st2 in
  set_wasGameMenuOpen gameMenuOpen st3.

(** The body of the [for (let controllerIndex in this.controllers)] loop
    of [processInputs]. *)
Definition processController (react : Action → World → World)
    (controllerIndex : nat) (controller : Controller) (st : St) : option St :=
  let prevButtonState := default ∅ (buttonState st !! controllerIndex) in
  let st4 := overlay_bookkeeping st in
  let st5 := processButtonGroup react "dpad" controller controllerIndex prevButtonState st4 in
  let st6 := processButtonGroup react "face" controller controllerIndex prevButtonState st5 in
  let st7 := processButtonGroup react "shoulder" controller controllerIndex prevButtonState st6 in
  let st8 := processButtonGroup react "special" controller controllerIndex prevButtonState st7 in
  let st9 := processAnalogSticks react controller controllerIndex st8 in
  st10 ← processLauncherControls react controller controllerIndex prevButtonState st9;
  st11 ← processOSDControls react controller controllerIndex prevButtonState st10;
  processGameMenuControls react controller controllerIndex prevButtonState st11.

(** [processInputs]: [controllers] lists [this.controllers] in the order
    of the [for ... in] loop; [None] is an uncaught TypeError. *)
Fixpoint processInputs (react : Action → World → World)
    (controllers : list (nat * Controller)) (st : St) : option St :=
  match controllers with
  | [] => Some st
  | (controllerIndex, controller) :: rest =>
      st' ← processController react controllerIndex controller st;
      processInputs react rest st'
  end.

(** Several frames in a row, each with its own snapshot of the pads. *)
Fixpoint frames (react : Action → World → World)
    (fs : list (list (nat * Controller))) (st : St) : option St :=
  match fs with
  | [] => Some st
  | controllers :: fs' =>
      st' ← processInputs react controllers st;
      frames react fs' st'
  end.

(** [addGamepad]: the initial [buttonState] of a controller. *)
Definition initialButtonState : gmap string BSVal :=
  list_to_map
    [("dpadLeft", BBool false); ("dpadRight", BBool false);
     ("dpadUp", BBool false); ("dpadDown", BBool false);
     ("faceSouth", BBool false); ("faceNorth", BBool false);
     ("faceEast", BBool false); ("faceWest", BBool false);
     ("osdCombo", BBool false);
     ("leftStick", BStick false false false false);
     ("rightStick", BStick false false false false)].

Definition addGamepad (index : nat) (st : St) : St :=
  set_buttonState (<[index := initialButtonState]> (buttonState st)) st.

(** The two actions that only restore keyboard focus inside an overlay
    that something else has just opened. *)
Definition focus_housekeeping (a : Action) : Prop :=
  match a with
  | InitOSDFocus _ | InitGameMenuFocus _ => True
  | _ => False
  end.

(** [st'] differs from [st] by bookkeeping only: the page, the testing
    switch and the mapping are the same, and nothing was done to the page
    except focus housekeeping. *)
Definition quiet (st st' : St) : Prop :=
  world st' = world st ∧
  testingMode st' = testingMode st ∧
  currentMapping st' = currentMapping st ∧
  ∃ extra, trace st' = trace st ++ extra ∧ Forall focus_housekeeping extra.

(** The same with no action at all, and the overlay edge detectors
    untouched. *)
Definition silent (st st' : St) : Prop :=
  world st' = world st ∧
  testingMode st' = testingMode st ∧
  currentMapping st' = currentMapping st ∧
  trace st' = trace st ∧
  wasOSDOpen st' = wasOSDOpen st ∧
  wasGameMenuOpen st' = wasGameMenuOpen st.

(** No overlay has been opened since the manager last looked. *)
Definition settled (st : St) : Prop :=
  (isOSDOpen st = true → wasOSDOpen st = true) ∧
  (isGameMenuOpen st = true → wasGameMenuOpen st = true).

End Gamepad.

(** ** Sample data *)

Module Sample.
Import Fs Server.

(** A collation: code-unit order. *)
Definition code_unit_compare (a b : string) : Z :=
  if String.leb a b then (if String.leb b a then 0 else -1) else 1.

(** What a GitHub branch archive looks like once extracted. *)
Definition repo_main_archive : Fs.t :=
  list_to_map
    [(["repo-main"], DirE);
     (["repo-main"; "README.md"], FileE [Byte.x23]);
     (["repo-main"; "dist"], DirE);
     (["repo-main"; "dist"; "index.html"], FileE [Byte.x3c; Byte.x21])].

Definition main_branch_url : string :=
  "https://codeload.github.com/user/repo/zip/refs/heads/main".

Definition platform : Platform := {|
  localeCompare := code_unit_compare;
  fetch := λ url, if bool_decide (url = main_branch_url)
                  then FetchResponse true [Byte.x50; Byte.x4b]
                  else FetchResponse false [];
  unzip := λ _, Some repo_main_archive;
  ditto := λ _, None;
  os_is_darwin := false;
|}.

Definition GAMES_DIR : list string := ["app"; "games"].

Definition library : Fs.t :=
  list_to_map
    [([], DirE); (["app"], DirE); (GAMES_DIR, DirE);
     (GAMES_DIR ++ ["space-runner"], DirE);
     (GAMES_DIR ++ ["space-runner"; "index.html"], FileE [Byte.x3c]);
     (GAMES_DIR ++ ["puzzle_box"], DirE);
     (GAMES_DIR ++ ["puzzle_box"; "thumbnail.png"], FileE [Byte.x89]);
     (GAMES_DIR ++ ["pong"], DirE);
     (GAMES_DIR ++ ["pong"; "index.html"], FileE [Byte.x3c]);
     (GAMES_DIR ++ ["notes.txt"], FileE [Byte.x68])].

Definition server : State := {| fs := library; log := [] |}.

Definition request (m p : string) : Request :=
  {| method := m; pathname := p; rawBody := [];
     jsonBody := None; formData := None |}.

Definition upload (p : string) (data : bytes) : Request :=
  {| method := "POST"; pathname := p; rawBody := data;
     jsonBody := None; formData := None |}.

Definition github_request (j : GithubJson) : Request :=
  {| method := "POST"; pathname := "/api/add-game/from-github"; rawBody := [];
     jsonBody := Some j; formData := None |}.

Definition repo_on (b : option string) : GithubJson :=
  {| repo := Some "https://github.com/user/repo.git"; branch := b;
     subdir := Some "dist"; gname := None |}.

Definition game (i : string) : GameEntry :=
  {| id := i; name := Str.replace_dash_underscore i;
     path := join GAMES_DIR i; urlPath := "/games/" +:+ i +:+ "/";
     hasThumbnail := false |}.

(** The coverflow with three games, the last one focused. *)
Definition coverflow : Frontend.State :=
  {| Frontend.games := [game "pong"; game "puzzle_box"; game "space-runner"];
     Frontend.focusedIndex := 2;
     Frontend.currentGame := None;
     Frontend.playing := false |}.

(** A stored mapping from before the face buttons were renamed, with a
    custom key on [north] and no [west] entry. *)
Definition legacy_mapping : Gamepad.Mapping :=
  {| Gamepad.dpad := Gamepad.dpad Gamepad.defaultMapping;
     Gamepad.face := Some [("north", Gamepad.slot 3 "w" 87);
                           ("east", Gamepad.slot 1 "d" 68);
                           ("south", Gamepad.slot 0 "s" 83)];
     Gamepad.shoulder := Gamepad.shoulder Gamepad.defaultMapping;
     Gamepad.special := Gamepad.special Gamepad.defaultMapping |}.

(** A mapping in the current schema with a custom key on [btnTop]. *)
Definition custom_mapping : Gamepad.Mapping :=
  {| Gamepad.dpad := Gamepad.dpad Gamepad.defaultMapping;
     Gamepad.face := Some [("btnBottom", Gamepad.slot 0 " " 32);
                           ("btnRight", Gamepad.slot 1 "c" 67);
                           ("btnLeft", Gamepad.slot 2 "c" 67);
                           ("btnTop", Gamepad.slot 3 "w" 87)];
     Gamepad.shoulder := Gamepad.shoulder Gamepad.defaultMapping;
     Gamepad.special := Gamepad.special Gamepad.defaultMapping |}.

(** A stand-in for the JSON codec that knows the two texts used here. *)
Definition json_codec : Gamepad.Json :=
  {| Gamepad.stringify := λ _, "custom";
     Gamepad.parse := λ s, if bool_decide (s = "legacy") then Some legacy_mapping
                           else Some custom_mapping |}.

(** How the page of static/app.js answers the manager: [toggleOSD] shows
    or hides the OSD, [showGameMenu] opens the menu, [focusIndex(_, true)]
    starts a game. *)
Definition page (a : Gamepad.Action) (w : Gamepad.World) : Gamepad.World :=
  match a with
  | Gamepad.ToggleOSD show =>
      {| Gamepad.playing := Gamepad.playing w; Gamepad.osdOpen := show;
         Gamepad.gameMenuOpen := Gamepad.gameMenuOpen w;
         Gamepad.configuratorVisible := Gamepad.configuratorVisible w;
         Gamepad.osdButtons := Gamepad.osdButtons w;
         Gamepad.gameMenuButtons := Gamepad.gameMenuButtons w |}
  | Gamepad.ShowGameMenu =>
      {| Gamepad.playing := Gamepad.playing w; Gamepad.osdOpen := Gamepad.osdOpen w;
         Gamepad.gameMenuOpen := true;
         Gamepad.configuratorVisible := Gamepad.configuratorVisible w;
         Gamepad.osdButtons := Gamepad.osdButtons w;
         Gamepad.gameMenuButtons := Gamepad.gameMenuButtons w |}
  | Gamepad.FocusIndex _ true =>
      {| Gamepad.playing := true; Gamepad.osdOpen := Gamepad.osdOpen w;
         Gamepad.gameMenuOpen := Gamepad.gameMenuOpen w;
         Gamepad.configuratorVisible := Gamepad.configuratorVisible w;
         Gamepad.osdButtons := Gamepad.osdButtons w;
         Gamepad.gameMenuButtons := Gamepad.gameMenuButtons w |}
  | _ => w
  end.

Definition world_of (playing configurator : bool) : Gamepad.World :=
  {| Gamepad.playing := playing; Gamepad.osdOpen := false;
     Gamepad.gameMenuOpen := false; Gamepad.configuratorVisible := configurator;
     Gamepad.osdButtons := 3; Gamepad.gameMenuButtons := 2 |}.

(** A manager with the default mapping and pad 0 just connected. *)
Definition manager (testing : bool) (w : Gamepad.World) : Gamepad.St :=
  Gamepad.addGamepad 0
    {| Gamepad.currentMapping := Gamepad.defaultMapping;
       Gamepad.buttonState := ∅;
       Gamepad.testingMode := testing;
       Gamepad.wasOSDOpen := false; Gamepad.wasGameMenuOpen := false;
       Gamepad.osdFocusIndex := -1; Gamepad.gameMenuFocusIndex := -1;
       Gamepad.world := w; Gamepad.trace := [] |}.

(** A standard pad: seventeen buttons, four axes at rest; [held] lists the
    indices of the buttons that are down. *)
Definition pad (held : list nat) : Gamepad.Controller :=
  {| Gamepad.buttons := (λ i, bool_decide (i ∈ held)) <$> seq 0 17;
     Gamepad.axes := [0%Q; 0%Q; 0%Q; 0%Q] |}.

Definition frame (held : list nat) : list (nat * Gamepad.Controller) :=
  [(0%nat, pad held)].

(** The actions of a game session (playing, no overlay, testing off) over
    consecutive frames, given the buttons held in each. *)
Definition play (held_per_frame : list (list nat)) : option (list Gamepad.Action) :=
  Gamepad.trace <$>
    Gamepad.frames page (frame <$> held_per_frame)
      (manager false (world_of true false)).

(** The types of the keyboard events dispatched for one key, in order. *)
Definition key_events (key : string) (tr : list Gamepad.Action) : list string :=
  omap (λ a, match a with
             | Gamepad.KeyboardEvent eventType m =>
                 if bool_decide (Gamepad.keyboardKey m = key)
                 then Some eventType else None
             | _ => None
             end) tr.

End Sample.

(** ** More string vocabulary *)

Module StrMore.

(** Every code unit of [s] satisfies [p]. *)
Fixpoint all_chars (p : ascii → bool) (s : string) : bool :=
  match s with
  | EmptyString => true
  | String c s' => p c && all_chars p s'
  end.

(** The alphabet of [/[a-z0-9]/] plus the hyphen. *)
Definition is_slug_char (c : ascii) : bool :=
  Str.is_alnum_lower c || Ascii.eqb c "-".

(** No two hyphens in a row; [prev] says that a hyphen came just before. *)
Fixpoint no_double_hyphen (prev : bool) (s : string) : bool :=
  match s with
  | EmptyString => true
  | String c s' =>
      if Ascii.eqb c "-" then negb prev && no_double_hyphen true s'
      else no_double_hyphen false s'
  end.

(** Whether the last code unit is a hyphen; [prev] answers for the empty
    string. *)
Fixpoint last_is_hyphen (prev : bool) (s : string) : bool :=
  match s with
  | EmptyString => prev
  | String c s' => last_is_hyphen (Ascii.eqb c "-") s'
  end.

End StrMore.

(** ** Placeholder cards (static/app.js) *)

Module Cards.

(** [a.join(sep)] *)
Fixpoint join (sep : string) (l : list string) : string :=
  match l with
  | [] => ""
  | [x] => x
  | x :: rest => x +:+ sep +:+ join sep rest
  end.

(** [lines.slice(-n)] *)
Definition slice_last {A} (n : nat) (l : list A) : list A :=
  skipn (length l - n) l.

(** The loop of [wrapText] over the words, with its two variables [line]
    and [lines]; [tooWide test] is [ctx.measureText(test).width > maxWidth]. *)
Fixpoint wrap_words (tooWide : string → bool) (words : list string)
    (line : string) (lines : list string) : list string :=
  match words with
  | [] => if bool_decide (line = "") then lines else lines ++ [line]
  | w :: rest =>
      let test := if bool_decide (line = "") then w else line +:+ " " +:+ w in
      if tooWide test then
        wrap_words tooWide rest w
          (if bool_decide (line = "") then lines else lines ++ [line])
      else wrap_words tooWide rest test lines
  end.

(** [wrapText(ctx, text, _x, _y, maxWidth, _lineHeight)]; [measureText s]
    is [ctx.measureText(s).width]. *)
Definition wrapText (measureText : string → Q) (text : string) (maxWidth : Q)
    : list string :=
  slice_last 4
    (wrap_words (λ test, Gamepad.Qltb maxWidth (measureText test))
       (Str.split " " text) "" []).

(** What is asked of a line of a card: it is not empty, and it fits unless
    it is a single word. *)
Definition good_line (tooWide : string → bool) (l : string) : Prop :=
  l ≠ "" ∧ (tooWide l = false ∨ Str.contains_char " " l = false).

End Cards.

(** ** Game pages (the [/games/] route of main.ts) *)

Module Pages.

(** The length of the shortest prefix of [s] that ends in [>]: what
    [[^>]*>] consumes. *)
Fixpoint through_gt (s : string) : option nat :=
  match s with
  | EmptyString => None
  | String c s' => if Ascii.eqb c ">" then Some 1%nat else S <$> through_gt s'
  end.

(** [/<name[^>]*>/i] tried at the start of [s]: the length of the match.
    [tag] is the literal in lower case ([<head], [<html], [<!doctype]). *)
Definition match_tag (tag s : string) : option nat :=
  if Str.startsWith (Str.toLowerCase s) tag
  then (λ n, (String.length tag + n)%nat)
         <$> through_gt (Str.drop (String.length tag) s)
  else None.

(** [s.replace(re, (m) => m + injected)] for [re = /<name[^>]*>/i]: the
    leftmost match gets [injected] after it; [None] when [re.test(s)] is
    false. *)
Fixpoint insert_after (tag injected s : string) : option string :=
  match match_tag tag s with
  | Some n => Some (Str.take n s +:+ injected +:+ Str.drop n s)
  | None =>
      match s with
      | EmptyString => None
      | String c s' => String c <$> insert_after tag injected s'
      end
  end.

(** The same for a pattern anchored with [^]. *)
Definition insert_after_start (tag injected s : string) : option string :=
  (λ n, Str.take n s +:+ injected +:+ Str.drop n s) <$> match_tag tag s.

(** Where [handler] puts the helper block [injected] into the text [html]
    of an index page. *)
Definition inject (injected html : string) : string :=
  match insert_after "<head" injected html with
  | Some out => out
  | None =>
      match insert_after_start "<!doctype" injected html with
      | Some out => out
      | None =>
          match insert_after "<html" injected html with
          | Some out => out
          | None => injected +:+ html
          end
      end
  end.

(** [out] is [s] cut in two after a [>], with [injected] in between. *)
Definition inserted (injected s out : string) : Prop :=
  ∃ pre post, s = pre +:+ post ∧ out = pre +:+ injected +:+ post ∧
              Str.endsWith pre ">" = true.


End Pages.

(** ** Detecting a gamepad button in the configurator *)

Module Detection.
Import Gamepad.

(** [this._detecting] (truthy or not) and [this._detectSnapshot]. The
    disabled flag of the Detect button and the hint are left out. *)
Record Detector := {
  detecting : bool;
  detectSnapshot : gmap nat (list bool);
}.

(** What a tick writes into the form: the button index assigned to the
    select, and the key offered for it (the empty string leaves the key
    input alone). *)
Record Pick := {
  pickedButton : nat;
  suggestedKey : string;
}.

(** [this._detectSnapshot[idx] = Array.from(gp.buttons).map(b => !!b.pressed)] *)
Definition snap_step (snap : gmap nat (list bool)) (p : nat * Controller)
    : gmap nat (list bool) :=
  <[p.1 := buttons p.2]> snap.

Definition startGamepadButtonDetection (controllers : list (nat * Controller))
    : Detector :=
  {| detecting := true; detectSnapshot := foldl snap_step ∅ controllers |}.

Definition cancelGamepadButtonDetection (d : Detector) : Detector :=
  {| detecting := false; detectSnapshot := ∅ |}.

(** The first entry of a group bound to pad button [idx]. *)
Fixpoint key_for (g : Group) (idx : Z) : option string :=
  match g with
  | [] => None
  | (_, m) :: g' =>
      if gamepadButton m =? idx then Some (keyboardKey m) else key_for g' idx
  end.

Fixpoint first_key (m : Mapping) (groups : list string) (idx : Z) : string :=
  match groups with
  | [] => ""
  | g :: rest =>
      match key_for (default [] (group_of m g)) idx with
      | Some k => k
      | None => first_key m rest idx
      end
  end.

Definition getDefaultKeyForGamepadIndex (idx : Z) : string :=
  first_key defaultMapping ["dpad"; "face"; "shoulder"; "special"] idx.

(** The inner loop of [handleDetectionTick]: the first index [i] with
    [pressed && !snap[i]], counting from [i]. *)
Fixpoint first_new_press (i : nat) (snap buttons : list bool) : option nat :=
  match buttons with
  | [] => None
  | b :: bs =>
      if b && negb (hd false snap) then Some i
      else first_new_press (S i) (tl snap) bs
  end.

Fixpoint scan (controllers : list (nat * Controller))
    (snapshot : gmap nat (list bool)) : option nat :=
  match controllers with
  | [] => None
  | (idx, gp) :: rest =>
      match first_new_press 0 (default [] (snapshot !! idx)) (buttons gp) with
      | Some i => Some i
      | None => scan rest snapshot
      end
  end.

(** [handleDetectionTick], with [configuratorOpen] the answer of
    [isConfiguratorOpen()]. *)
Definition handleDetectionTick (configuratorOpen : bool)
    (controllers : list (nat * Controller)) (d : Detector)
    : Detector * option Pick :=
  if negb (detecting d) then (d, None)
  else if negb configuratorOpen then (cancelGamepadButtonDetection d, None)
  else
    match scan controllers (detectSnapshot d) with
    | Some i =>
        (cancelGamepadButtonDetection d,
         Some {| pickedButton := i;
                 suggestedKey := getDefaultKeyForGamepadIndex (Z.of_nat i) |})
    | None => (d, None)
    end.

End Detection.

(** ** Key presses in the launcher page (static/app.js) *)

Module Keyboard.
Import Frontend.

(** One [keydown] event in the launcher document. [globalKeyHandler] is
    registered as a capturing listener on [window] and again on [document],
    and nothing stops the propagation, so the event runs it twice, the
    [window] listener first. *)
Definition keydown (key : string) (st : State) : State :=
  globalKeyHandler key (globalKeyHandler key st).

End Keyboard.

(** ** More sample data *)

Module Fixtures.
Import Fs Server.

(** An upload through the form of the launcher. *)
Definition zip_upload (name : option string) (data : option bytes) : Request :=
  {| method := "POST"; pathname := "/api/add-game/from-zip"; rawBody := [];
     jsonBody := None;
     formData := Some {| file := data; fname := name; fsubdir := Some "dist" |} |}.

(** A font in which every character is one unit wide. *)
Definition char_width (s : string) : Q := inject_Z (Z.of_nat (String.length s)).

(** The coverflow of [Sample] with the middle card focused. *)
Definition coverflow_middle : Frontend.State :=
  Frontend.set_focusedIndex 1 Sample.coverflow.



(** An archive zipped without a wrapping folder: several entries at the
    top, the build under [dist]. *)
Definition flat_archive : Fs.t :=
  list_to_map
    [(["README.md"], FileE [Byte.x23]);
     (["src"], DirE);
     (["src"; "main.ts"], FileE [Byte.x2f]);
     (["dist"], DirE);
     (["dist"; "index.html"], FileE [Byte.x3c; Byte.x68]);
     (["dist"; "game.js"], FileE [Byte.x2f; Byte.x2a])].

(** A machine without network, whose [unzip] yields the flat archive. *)
Definition offline_platform : Platform := {|
  localeCompare := Sample.code_unit_compare;
  fetch := λ _, FetchRejects;
  unzip := λ _, Some flat_archive;
  ditto := λ _, None;
  os_is_darwin := false;
|}.

End Fixtures.

(** * Properties *)

(** ** Strings *)

Module StrFacts.
Import Str.

Lemma app_nil_l (s : string) : "" +:+ s = s.
Proof. reflexivity. Qed.

Lemma app_cons (c : ascii) (a s : string) : String c a +:+ s = String c (a +:+ s).
Proof. reflexivity. Qed.

Lemma app_nil_r (s : string) : s +:+ "" = s.
Proof. induction s as [|c s IH]; [done|]. by rewrite app_cons, IH. Qed.

Lemma app_assoc (a b c : string) : (a +:+ b) +:+ c = a +:+ (b +:+ c).
Proof. induction a as [|x a IH]; [done|]. by rewrite !app_cons, IH. Qed.

Lemma rev_app_spec (s acc : string) :
  String.rev_app s acc = String.rev s +:+ acc.
Proof.
  unfold String.rev. revert acc.
  induction s as [|c s IH]; intros acc; [done|].
  cbn [String.rev_app]. rewrite (IH (String c acc)), (IH (String c "")).
  by rewrite app_assoc.
Qed.

Lemma rev_cons (c : ascii) (s : string) :
  String.rev (String c s) = String.rev s +:+ String c "".
Proof. unfold String.rev at 1. cbn [String.rev_app]. by rewrite rev_app_spec. Qed.

Lemma rev_app_distr (a b : string) :
  String.rev (a +:+ b) = String.rev b +:+ String.rev a.
Proof.
  induction a as [|c a IH]; [by rewrite app_nil_l, app_nil_r|].
  by rewrite app_cons, !rev_cons, IH, app_assoc.
Qed.

Lemma rev_involutive (s : string) : String.rev (String.rev s) = s.
Proof.
  induction s as [|c s IH]; [done|].
  by rewrite rev_cons, rev_app_distr, IH.
Qed.

Lemma split_go_nosep (sep : ascii) (a cur rest : string) :
  contains_char sep a = false →
  split_go sep cur (a +:+ String sep rest)
  = (String.rev cur +:+ a) :: split_go sep "" rest.
Proof.
  revert cur. induction a as [|c a IH]; intros cur Hc.
  - rewrite app_nil_l, app_nil_r. cbn [split_go]. by rewrite Ascii.eqb_refl.
  - cbn [contains_char] in Hc. apply orb_false_iff in Hc as [Hc1 Hc2].
    rewrite app_cons. cbn [split_go]. rewrite Hc1, IH by done.
    by rewrite rev_cons, app_assoc.
Qed.

Lemma split_go_nosep_end (sep : ascii) (a cur : string) :
  contains_char sep a = false →
  split_go sep cur a = [String.rev cur +:+ a].
Proof.
  revert cur. induction a as [|c a IH]; intros cur Hc.
  - by rewrite app_nil_r.
  - cbn [contains_char] in Hc. apply orb_false_iff in Hc as [Hc1 Hc2].
    cbn [split_go]. rewrite Hc1, IH by done.
    by rewrite rev_cons, app_assoc.
Qed.

(** Splitting at a separator the first piece does not contain. *)
Lemma split_cons (sep : ascii) (a rest : string) :
  contains_char sep a = false →
  split sep (a +:+ String sep rest) = a :: split sep rest.
Proof.
  intros Hc. unfold split. by rewrite split_go_nosep.
Qed.

Lemma split_last (sep : ascii) (a : string) :
  contains_char sep a = false → split sep a = [a].
Proof.
  intros Hc. unfold split. by rewrite split_go_nosep_end.
Qed.

Lemma startsWith_app (p s : string) : startsWith (p +:+ s) p = true.
Proof.
  induction p as [|c p IH]; [by destruct s|].
  rewrite app_cons. cbn [startsWith]. by rewrite Ascii.eqb_refl.
Qed.

Lemma endsWith_app (s p : string) : endsWith (s +:+ p) p = true.
Proof. unfold endsWith. rewrite rev_app_distr. apply startsWith_app. Qed.

Lemma endsWith_app3 (a b p : string) : endsWith (a +:+ b +:+ p) p = true.
Proof. rewrite <- app_assoc. apply endsWith_app. Qed.

Lemma startsWith_inv (s p : string) :
  startsWith s p = true → ∃ r, s = p +:+ r.
Proof.
  revert s. induction p as [|c p IH]; intros s H; [by exists s|].
  destruct s as [|d s]; [done|]. cbn [startsWith] in H.
  destruct (Ascii.eqb c d) eqn:E; [|done].
  apply Ascii.eqb_eq in E as ->. destruct (IH _ H) as [r ->]. by exists r.
Qed.

End StrFacts.

(** ** Filesystem *)

Module FsFacts.
Import Fs.

Lemma child_of_Some (dir q : list string) (n : string) :
  child_of dir q = Some n ↔ q = dir ++ [n].
Proof.
  unfold child_of. split.
  - destruct (last q) as [m|] eqn:E; [|done].
    case_decide; [|done]. by intros [= <-].
  - intros ->. rewrite last_snoc. by rewrite decide_True.
Qed.

Lemma elem_of_children (f : Fs.t) (dir : list string) (n : string) (e : entry) :
  (n, e) ∈ children f dir ↔ f !! (dir ++ [n]) = Some e.
Proof.
  unfold children. rewrite list_elem_of_omap. split.
  - intros ([q e'] & Hin & Hf). simpl in Hf.
    destruct (child_of dir q) as [m|] eqn:E; simplify_eq/=.
    apply child_of_Some in E as ->. by apply elem_of_map_to_list.
  - intros H. exists (dir ++ [n], e). split; [by apply elem_of_map_to_list|].
    simpl. by rewrite (proj2 (child_of_Some dir (dir ++ [n]) n) eq_refl).
Qed.

Lemma NoDup_children (f : Fs.t) (dir : list string) :
  NoDup (children f dir).*1.
Proof.
  unfold children. pose proof (NoDup_fst_map_to_list f) as Hnd.
  induction (map_to_list f) as [|[q e] l IH]; [constructor|].
  simpl in Hnd. apply NoDup_cons in Hnd as [Hq Hnd]. simpl.
  destruct (child_of dir q) as [n|] eqn:E; simpl; [|by apply IH].
  apply NoDup_cons. split; [|by apply IH].
  intros Hin. apply Hq.
  apply list_elem_of_fmap in Hin as ([n' e'] & -> & Hin).
  apply list_elem_of_omap in Hin as ([q' e''] & Hin & Hf). simpl in *.
  destruct (child_of dir q') as [m|] eqn:E'; simplify_eq/=.
  apply child_of_Some in E as ->. apply child_of_Some in E' as ->.
  apply list_elem_of_fmap. by exists (dir ++ [n'], e').
Qed.

(** A segment that is a proper file name joins as itself. *)
Lemma join_proper (base : list string) (seg : string) :
  proper_name seg → join base seg = base ++ [seg].
Proof.
  intros (H1 & H2 & H3). unfold join.
  destruct (decide (seg = "" ∨ seg = ".")) as [[?|?]|_]; [done..|].
  by destruct (decide (seg = "..")).
Qed.

Lemma join_empty (base : list string) : join base "" = base.
Proof. unfold join. by rewrite decide_True by auto. Qed.

Lemma join_thumbnail (base : list string) :
  join base "thumbnail.png" = base ++ ["thumbnail.png"].
Proof. apply join_proper. by repeat split. Qed.

Lemma lookup_remove_recursive (f : Fs.t) (p q : list string) :
  remove_recursive f p !! q = if decide (p `prefix_of` q) then None else f !! q.
Proof.
  unfold remove_recursive. rewrite map_lookup_filter.
  destruct (f !! q) as [e|] eqn:E; simpl.
  - case_decide as Hp; simpl.
    + rewrite option_guard_False; [done|]. simpl. tauto.
    + by rewrite option_guard_True.
  - by case_decide.
Qed.

Lemma strip_prefix_Some (base q r : list string) :
  strip_prefix base q = Some r ↔ q = base ++ r.
Proof.
  unfold strip_prefix. split.
  - case_decide as Hp; [|done]. intros [= <-].
    destruct Hp as [k ->]. by rewrite drop_app_length.
  - intros ->. rewrite decide_True by (by exists r).
    by rewrite drop_app_length.
Qed.

Lemma elem_of_descendants (ex : Fs.t) (base rel : list string) (x : entry) :
  (rel, x) ∈ descendants ex base ↔ rel ≠ [] ∧ ex !! (base ++ rel) = Some x.
Proof.
  unfold descendants. rewrite list_elem_of_omap. split.
  - intros ([q e] & Hin & Hf). simpl in Hf.
    destruct (strip_prefix base q) as [[|s r]|] eqn:E; simplify_eq/=.
    apply strip_prefix_Some in E as ->. split; [done|].
    by apply elem_of_map_to_list.
  - intros [Hne H]. exists (base ++ rel, x).
    split; [by apply elem_of_map_to_list|]. simpl.
    rewrite (proj2 (strip_prefix_Some base (base ++ rel) rel) eq_refl).
    by destruct rel.
Qed.

Lemma NoDup_descendants (ex : Fs.t) (base : list string) :
  NoDup (descendants ex base).*1.
Proof.
  unfold descendants. pose proof (NoDup_fst_map_to_list ex) as Hnd.
  induction (map_to_list ex) as [|[q e] l IH]; [constructor|].
  simpl in Hnd. apply NoDup_cons in Hnd as [Hq Hnd]. simpl.
  destruct (strip_prefix base q) as [[|s r]|] eqn:E; simpl; try by apply IH.
  apply NoDup_cons. split; [|by apply IH].
  intros Hin. apply Hq.
  apply list_elem_of_fmap in Hin as ([r' e'] & Hr & Hin). simpl in Hr. subst r'.
  apply list_elem_of_omap in Hin as ([q' e''] & Hin & Hf). simpl in *.
  destruct (strip_prefix base q') as [[|s' r']|] eqn:E'; simplify_eq/=.
  apply strip_prefix_Some in E as ->. apply strip_prefix_Some in E' as ->.
  apply list_elem_of_fmap. by exists (base ++ s :: r, e').
Qed.

Lemma copy_entry_Some (dest : list string) (f f1 : Fs.t) (re : list string * entry) :
  copy_entry dest f re = Some f1 → f1 = <[dest ++ re.1 := re.2]> f.
Proof.
  unfold copy_entry. destruct re as [r [b|]]; simpl;
    destruct (f !! (dest ++ r)) as [[?|]|]; by intros [= <-].
Qed.

Lemma copy_walk_other (dest : list string) (l : list (list string * entry))
    (f f' : Fs.t) (ok : bool) (k : list string) :
  copy_walk dest f l = (f', ok) →
  (∀ r, r ∈ l.*1 → k ≠ dest ++ r) →
  f' !! k = f !! k.
Proof.
  revert f. induction l as [|re l IH]; intros f Hw Hk; simpl in Hw.
  - by simplify_eq.
  - destruct (copy_entry dest f re) as [f1|] eqn:E; [|by simplify_eq].
    apply copy_entry_Some in E as ->.
    rewrite (IH _ Hw) by (intros r Hr; apply Hk; simpl; by right).
    apply lookup_insert_ne. intros Heq. eapply Hk; [|done]. simpl. by left.
Qed.

Lemma copy_walk_lookup (dest : list string) (l : list (list string * entry))
    (f f' : Fs.t) (rel : list string) (x : entry) :
  NoDup l.*1 →
  copy_walk dest f l = (f', true) →
  (rel, x) ∈ l →
  f' !! (dest ++ rel) = Some x.
Proof.
  revert f. induction l as [|re l IH]; intros f Hnd Hw Hin; simpl in *.
  - by apply elem_of_nil in Hin.
  - apply NoDup_cons in Hnd as [Hre Hnd].
    destruct (copy_entry dest f re) as [f1|] eqn:E; [|by simplify_eq].
    apply copy_entry_Some in E as ->.
    apply elem_of_cons in Hin as [<-|Hin]; [|by eapply IH].
    rewrite (copy_walk_other _ _ _ _ _ _ Hw); [by rewrite lookup_insert_eq|].
    simpl. intros r Hr Heq. apply app_inv_head in Heq. by subst.
Qed.

Lemma ensureDir_from_lookup (f f' : Fs.t) (pre rest : list string) :
  ensureDir_from f pre rest = Some f' → f' !! (pre ++ rest) = Some DirE.
Proof.
  revert f pre. induction rest as [|s rest IH]; intros f pre H; simpl in H.
  - rewrite app_nil_r.
    destruct (f !! pre) as [[?|]|]; simplify_eq; by rewrite lookup_insert_eq.
  - replace (pre ++ s :: rest) with ((pre ++ [s]) ++ rest) by by rewrite <- app_assoc.
    destruct (f !! pre) as [[?|]|]; simplify_eq; by eapply IH.
Qed.

Lemma ensureDir_lookup (f f' : Fs.t) (p : list string) :
  ensureDir f p = Some f' → f' !! p = Some DirE.
Proof. apply ensureDir_from_lookup. Qed.

End FsFacts.

(** ** The server *)

Module ServerSpec.
Import Fs Server FsFacts.

Section sorting.
Context {A : Type} (cmp : A → A → Z).

Lemma insert_by_perm (x : A) (l : list A) : Permutation (insert_by cmp x l) (x :: l).
Proof.
  induction l as [|y l IH]; simpl; [done|].
  destruct (cmp x y <=? 0); [done|].
  rewrite IH. apply perm_swap.
Qed.

Lemma sort_by_perm (l : list A) : Permutation (sort_by cmp l) l.
Proof.
  induction l as [|x l IH]; simpl; [done|].
  rewrite insert_by_perm. by constructor.
Qed.

Hypothesis cmp_total : ∀ a b, cmp a b ≤ 0 ∨ cmp b a ≤ 0.

Lemma insert_by_sorted (x : A) (l : list A) :
  Sorted (λ a b, cmp a b ≤ 0) l → Sorted (λ a b, cmp a b ≤ 0) (insert_by cmp x l).
Proof.
  induction l as [|y l IH]; intros Hs; simpl.
  - repeat constructor.
  - destruct (Z.leb_spec (cmp x y) 0) as [Hle|Hgt].
    + constructor; [done|]. by constructor.
    + apply Sorted_inv in Hs as [Hs Hhd]. constructor; [by apply IH|].
      destruct l as [|z l]; simpl.
      * constructor. destruct (cmp_total x y); lia.
      * destruct (cmp x z <=? 0).
        -- constructor. destruct (cmp_total x y); lia.
        -- constructor. by apply HdRel_inv in Hhd.
Qed.

Lemma sort_by_sorted (l : list A) : Sorted (λ a b, cmp a b ≤ 0) (sort_by cmp l).
Proof.
  induction l as [|x l IH]; simpl; [constructor|]. by apply insert_by_sorted.
Qed.

Hypothesis cmp_trans : ∀ a b c, cmp a b ≤ 0 → cmp b c ≤ 0 → cmp a c ≤ 0.

Lemma sort_by_strongly_sorted (l : list A) :
  StronglySorted (λ a b, cmp a b ≤ 0) (sort_by cmp l).
Proof.
  apply Sorted_StronglySorted; [|apply sort_by_sorted].
  intros a b c. apply cmp_trans.
Qed.

End sorting.

Lemma run_bind {A B} (m : M A) (k : A → M B) (st : State) :
  (m ≫= k) st = match m st with
                | (Ok a, st') => k a st'
                | (Throw, st') => (Throw, st')
                end.
Proof. reflexivity. Qed.

Lemma game_entry_Some (G : list string) (f : Fs.t) (d : string * entry) (g : GameEntry) :
  game_entry G f d = Some g ↔
  d.2 = DirE ∧
  g = {| id := d.1; name := Str.replace_dash_underscore d.1;
         path := join G d.1; urlPath := "/games/" +:+ d.1 +:+ "/";
         hasThumbnail := thumbnail_present f (join G d.1) |}.
Proof.
  unfold game_entry. destruct d as [n [b|]]; simpl; split.
  - done.
  - by intros [? _].
  - by intros [= <-].
  - by intros [_ ->].
Qed.

Lemma NoDup_game_ids (G : list string) (f : Fs.t) (l : list (string * entry)) :
  NoDup l.*1 → NoDup (id <$> omap (game_entry G f) l).
Proof.
  induction l as [|[n e] l IH]; simpl; [constructor|].
  intros [Hn Hnd]%NoDup_cons.
  destruct (game_entry G f (n, e)) as [g|] eqn:E; simpl; [|by apply IH].
  apply game_entry_Some in E as [_ ->]. simpl.
  apply NoDup_cons. split; [|by apply IH].
  intros Hin. apply Hn.
  apply list_elem_of_fmap in Hin as (g & -> & Hin).
  apply list_elem_of_omap in Hin as ([n' e'] & Hin & Hg).
  apply game_entry_Some in Hg as [_ ->]. simpl.
  apply list_elem_of_fmap. by exists (n', e').
Qed.

Lemma thumbnail_present_true (f : Fs.t) (p : list string) :
  thumbnail_present f p = true ↔ ∃ b, f !! (p ++ ["thumbnail.png"]) = Some (FileE b).
Proof.
  unfold thumbnail_present, stat. rewrite join_thumbnail.
  destruct (f !! (p ++ ["thumbnail.png"])) as [[b|]|]; simpl; split;
    try done; try (intros [? ?]; done). by exists b.
Qed.

Lemma listGames_run (P : Platform) (G : list string) (st : State) :
  fs st !! G = Some DirE →
  listGames P G st
  = (Ok (sort_by (λ a b, localeCompare P (name a) (name b))
           (omap (game_entry G (fs st)) (children (fs st) G))), st).
Proof.
  intros Hroot. unfold listGames. rewrite !run_bind. unfold get_fs, lift_option, readDir.
  rewrite Hroot. by destruct st.
Qed.

(** C1. Whenever the library root is a directory, [listGames] succeeds
    without touching the state and returns exactly one entry per immediate
    subdirectory of the root (plain files are skipped, no id is listed
    twice), ordered by display name under the collation behind
    [localeCompare]; an entry has [hasThumbnail] set exactly when
    [thumbnail.png] in its directory is a regular file, so that a missing or
    non-regular thumbnail counts as absent and is never an error. *)
Theorem listGames_spec (P : Platform) (G : list string) (st : State) :
  (∀ a b, localeCompare P a b ≤ 0 ∨ localeCompare P b a ≤ 0) →
  (∀ a b c, localeCompare P a b ≤ 0 → localeCompare P b c ≤ 0 →
            localeCompare P a c ≤ 0) →
  fs st !! G = Some DirE →
  ∃ entries,
    listGames P G st = (Ok entries, st) ∧
    NoDup (id <$> entries) ∧
    (∀ n, n ∈ (id <$> entries) ↔ fs st !! (G ++ [n]) = Some DirE) ∧
    StronglySorted (λ a b, localeCompare P (name a) (name b) ≤ 0) entries ∧
    (∀ e, e ∈ entries →
       name e = Str.replace_dash_underscore (id e) ∧
       path e = join G (id e) ∧
       (hasThumbnail e = true ↔
        ∃ b, fs st !! (path e ++ ["thumbnail.png"]) = Some (FileE b))).
Proof.
  intros Htot Htrans Hroot.
  set (cmp := λ a b : GameEntry, localeCompare P (name a) (name b)).
  set (raw := omap (game_entry G (fs st)) (children (fs st) G)).
  exists (sort_by cmp raw).
  assert (Hperm : Permutation (sort_by cmp raw) raw) by apply sort_by_perm.
  split; [|split; [|split; [|split]]].
  - by apply listGames_run.
  - rewrite Hperm. apply NoDup_game_ids, NoDup_children.
  - intros n. rewrite Hperm. unfold raw.
    rewrite list_elem_of_fmap. split.
    + intros (g & -> & Hin).
      apply list_elem_of_omap in Hin as ([n' e'] & Hin & Hg).
      apply game_entry_Some in Hg as [He ->]. simpl in *. subst e'.
      by apply elem_of_children.
    + intros Hn. eexists. split; [|apply list_elem_of_omap].
      2:{ exists (n, DirE). split; [by apply elem_of_children|].
          by apply game_entry_Some. }
      done.
  - apply sort_by_strongly_sorted; unfold cmp; eauto.
  - intros e He. rewrite Hperm in He.
    apply list_elem_of_omap in He as ([n' e'] & Hin & Hg).
    apply game_entry_Some in Hg as [_ ->]. simpl.
    split; [done|]. split; [done|]. apply thumbnail_present_true.
Qed.

(** *** Running the monad *)

Lemma run_ensureDirM (p : list string) (st : State) :
  ensureDirM p st =
  match ensureDir (fs st) p with
  | Some f' => (Ok tt, {| fs := f'; log := log st |})
  | None => (Throw, st)
  end.
Proof.
  unfold ensureDirM. rewrite !run_bind. unfold get_fs, lift_option.
  destruct (ensureDir (fs st) p); [|done]. by rewrite run_bind.
Qed.

Lemma run_extract (P : Platform) (zipBytes : bytes) (st : State) :
  ∃ l, extract P zipBytes st =
       (match archive_of P zipBytes with Some ex => Ok ex | None => Throw end,
        {| fs := fs st; log := log st ++ l |}).
Proof.
  unfold extract, archive_of. rewrite run_bind. unfold emit.
  destruct (unzip P zipBytes) as [ex|]; [by eexists|].
  destruct (os_is_darwin P); [|by eexists].
  rewrite run_bind. unfold lift_option. simpl.
  destruct (ditto P zipBytes); simpl; rewrite <- app_assoc; by eexists.
Qed.

Lemma resolve_base_spec (ex : Fs.t) (subdirHint : option string) :
  (∀ w e, children ex [] = [(w, e)] → proper_name w) →
  resolve_base ex subdirHint =
  let hint := Str.toLowerCase (Str.or_default subdirHint "root") in
  let root := match children ex [] with [(w, _)] => [w] | _ => [] end in
  if decide (hint = "dist" ∨ hint = "docs") then root ++ [hint] else root.
Proof.
  intros Hw. unfold resolve_base. cbv zeta.
  set (hint := Str.toLowerCase (Str.or_default subdirHint "root")).
  assert (Hroot : match (children ex []).*1 with
                  | [only] => join [] only
                  | _ => []
                  end
                  = match children ex [] with [(w, _)] => [w] | _ => [] end).
  { destruct (children ex []) as [|[w e] [|p l]] eqn:E; try done.
    simpl. by rewrite (join_proper [] w (Hw w e eq_refl)). }
  rewrite Hroot. case_decide as Hh; [|done].
  apply join_proper. destruct Hh as [-> | ->]; by repeat split.
Qed.

(** C2. For every archive, the base is resolved in two steps: when the
    extracted top level has exactly one entry [w], the root is [w],
    otherwise it is the extraction directory itself; then a hint of [dist]
    or [docs] (in any letter case) descends into that subfolder of the
    root, whatever the number of top-level entries, and any other hint
    leaves the root as it is. Ingestion succeeds only if the resolved base
    is a directory of the archive, and then everything below it is found at
    the same relative path in the target. *)
Theorem saveZipToDir_resolves_root (P : Platform) (zipBytes : bytes)
    (targetDir : list string) (subdirHint : option string) (st : State)
    (ex : Fs.t) :
  archive_of P zipBytes = Some ex →
  (∀ w e, children ex [] = [(w, e)] → proper_name w) →
  let hint := Str.toLowerCase (Str.or_default subdirHint "root") in
  let root := match children ex [] with [(w, _)] => [w] | _ => [] end in
  let base := if decide (hint = "dist" ∨ hint = "docs") then root ++ [hint] else root in
  resolve_base ex subdirHint = base ∧
  ∀ st', saveZipToDir P zipBytes targetDir subdirHint st = (Ok tt, st') →
    (base ≠ [] → ex !! base = Some DirE) ∧
    ∀ rel x, rel ≠ [] → ex !! (base ++ rel) = Some x →
             fs st' !! (targetDir ++ rel) = Some x.
Proof.
  intros Hex Hw hint root base.
  pose proof (resolve_base_spec ex subdirHint Hw) as Hbase.
  change (resolve_base ex subdirHint = base) in Hbase.
  clearbody base. clear root. split; [done|].
  intros st' Hrun. unfold saveZipToDir in Hrun.
  rewrite run_bind, run_ensureDirM in Hrun.
  destruct (ensureDir (fs st) targetDir) as [f1|]; [|done].
  rewrite run_bind in Hrun.
  destruct (run_extract P zipBytes {| fs := f1; log := log st |}) as [l Hext].
  rewrite Hext, Hex in Hrun. simpl in Hrun.
  rewrite run_bind, run_ensureDirM in Hrun. simpl in Hrun.
  destruct (ensureDir f1 targetDir) as [f2|] eqn:E2; [|done].
  apply ensureDir_lookup in E2.
  rewrite Hbase in Hrun. unfold copy in Hrun. rewrite run_bind in Hrun.
  unfold get_fs in Hrun. simpl in Hrun.
  destruct (if decide (base = []) then Some DirE else ex !! base)
    as [[b|]|] eqn:Eb; try rewrite E2 in Hrun; try done.
  split.
  { intros Hne. by rewrite (decide_False (P := base = [])) in Eb. }
  rewrite run_bind in Hrun. unfold put_fs in Hrun. simpl in Hrun.
  destruct (copy_walk targetDir (<[targetDir:=DirE]> f2) (descendants ex base))
    as [f3 ok] eqn:Ew. simpl in Hrun.
  destruct ok; [|done]. injection Hrun as <-. simpl.
  intros rel x Hrel Hx.
  eapply copy_walk_lookup; [apply NoDup_descendants|done|].
  by apply elem_of_descendants.
Qed.

(** No fallback: when the resolved base is not in the archive (a [dist]
    hint without a [dist] folder, say) the ingestion throws. *)
Lemma saveZipToDir_absent_base (P : Platform) (zipBytes : bytes)
    (targetDir : list string) (subdirHint : option string) (st : State) (ex : Fs.t) :
  archive_of P zipBytes = Some ex →
  resolve_base ex subdirHint ≠ [] →
  ex !! resolve_base ex subdirHint = None →
  (saveZipToDir P zipBytes targetDir subdirHint st).1 = Throw.
Proof.
  intros Hex Hne Habs. unfold saveZipToDir.
  rewrite run_bind, run_ensureDirM.
  destruct (ensureDir (fs st) targetDir) as [f1|]; [|done].
  rewrite run_bind.
  destruct (run_extract P zipBytes {| fs := f1; log := log st |}) as [l Hext].
  rewrite Hext, Hex. simpl.
  rewrite run_bind, run_ensureDirM. simpl.
  destruct (ensureDir f1 targetDir) as [f2|]; [|done].
  unfold copy. rewrite run_bind. unfold get_fs. simpl.
  rewrite (decide_False (P := resolve_base ex subdirHint = [])) by done.
  by rewrite Habs.
Qed.

(** *** Routing *)

Lemma games_path_split (gid suffix : string) :
  Str.contains_char "/" gid = false →
  suffix = "" ∨ (∃ t, suffix = String "/" t) →
  Str.at_index (Str.split "/" ("/api/games/" +:+ gid +:+ suffix)) 3 = Some gid.
Proof.
  intros Hid Hsuf.
  change ("/api/games/" +:+ gid +:+ suffix)
    with ("" +:+ String "/" ("api" +:+ String "/" ("games" +:+ String "/" (gid +:+ suffix)))).
  rewrite !StrFacts.split_cons by done.
  destruct Hsuf as [-> | [t ->]].
  - rewrite StrFacts.app_nil_r. by rewrite StrFacts.split_last.
  - by rewrite StrFacts.split_cons.
Qed.

Lemma games_path_not_add (gid suffix target : string) :
  Str.startsWith target "/api/add-game/" = true →
  bool_decide ("/api/games/" +:+ gid +:+ suffix = target) = false.
Proof.
  intros Ht. apply bool_decide_eq_false_2. intros <-. by vm_compute in Ht.
Qed.

(** With the method DELETE only the last route can match. *)
Lemma handleApi_DELETE (P : Platform) (G : list string) (req : Request) (st : State) :
  method req = "DELETE" →
  handleApi P G req st =
  if Str.startsWith (pathname req) "/api/games/" then
    match Str.at_index (Str.split "/" (pathname req)) 3 with
    | Some gid =>
        if is_existing_directory (fs st) (join G gid)
        then (Ok (Some (json JsonOk)),
              {| fs := remove_recursive (fs st) (join G gid); log := log st |})
        else (Ok (Some (text "not found" 404)), st)
    | None => (Throw, st)
    end
  else (Ok None, st).
Proof.
  intros Hm. unfold handleApi. rewrite Hm.
  rewrite (bool_decide_eq_false_2 ("DELETE" = "GET")) by done.
  rewrite (bool_decide_eq_false_2 ("DELETE" = "POST")) by done.
  rewrite !andb_false_r. rewrite bool_decide_eq_true_2 by done.
  rewrite andb_true_r.
  destruct (Str.startsWith (pathname req) "/api/games/"); [|done].
  rewrite run_bind. unfold lift_option.
  destruct (Str.at_index _ 3) as [gid|]; [|done].
  simpl. rewrite run_bind. unfold get_fs.
  by destruct (is_existing_directory (fs st) (join G gid)).
Qed.

(** C9. A DELETE request matches the delete route as soon as its path
    starts with [/api/games/]: whatever follows the third segment, that
    segment is taken as the id, and when it names an existing directory the
    whole directory is removed and the answer is 200 with [{ ok: true }].
    In particular [DELETE /api/games/<id>/thumbnail] deletes the game [<id>]. *)
Theorem delete_route_matches_by_prefix (P : Platform) (G : list string)
    (req : Request) (st : State) (gid suffix : string) :
  method req = "DELETE" →
  pathname req = "/api/games/" +:+ gid +:+ suffix →
  suffix = "" ∨ (∃ t, suffix = String "/" t) →
  Str.contains_char "/" gid = false →
  fs st !! join G gid = Some DirE →
  ∃ st',
    handleApi P G req st = (Ok (Some {| status := 200; body := JsonOk |}), st') ∧
    log st' = log st ∧
    ∀ q, fs st' !! q = if decide (join G gid `prefix_of` q) then None else fs st !! q.
Proof.
  intros Hm Hp Hsuf Hid Hdir.
  rewrite (handleApi_DELETE P G req st Hm), Hp.
  rewrite StrFacts.startsWith_app, games_path_split by done.
  unfold is_existing_directory, stat. rewrite Hdir. simpl.
  eexists. split; [done|]. split; [done|].
  intros q. simpl. apply lookup_remove_recursive.
Qed.

(** Unknown ids that are proper names are answered with 404 and leave
    everything as it was. *)
Lemma delete_unknown_id (P : Platform) (G : list string) (req : Request)
    (st : State) (gid : string) :
  method req = "DELETE" →
  pathname req = "/api/games/" +:+ gid →
  Str.contains_char "/" gid = false →
  proper_name gid →
  fs st !! (G ++ [gid]) ≠ Some DirE →
  handleApi P G req st = (Ok (Some {| status := 404; body := Text "not found" |}), st).
Proof.
  intros Hm Hp Hid Hname Hdir.
  rewrite <- (StrFacts.app_nil_r gid) in Hp.
  rewrite (handleApi_DELETE P G req st Hm), Hp.
  rewrite StrFacts.startsWith_app, games_path_split by auto.
  rewrite join_proper by done.
  unfold is_existing_directory, stat.
  by destruct (fs st !! (G ++ [gid])) as [[?|]|].
Qed.

(** C3. The specification asks 404 and an untouched library for every id
    that names no directory under the games root, and removal with 200 for
    the ids that name one. The empty id names none, and yet
    [DELETE /api/games/] reads it as the third segment, joins it to the
    root, finds the root itself to be a directory, removes it with all the
    games in it and answers 200. *)
Theorem delete_empty_id_removes_library :
  let req := Sample.request "DELETE" "/api/games/" in
  Str.at_index (Str.split "/" (pathname req)) 3 = Some "" ∧
  fs Sample.server !! (Sample.GAMES_DIR ++ [""]) = None ∧
  fs Sample.server !! (Sample.GAMES_DIR ++ ["pong"]) = Some DirE ∧
  ∃ st',
    handleApi Sample.platform Sample.GAMES_DIR req Sample.server
    = (Ok (Some {| status := 200; body := JsonOk |}), st') ∧
    fs st' !! Sample.GAMES_DIR = None ∧
    fs st' !! (Sample.GAMES_DIR ++ ["pong"]) = None ∧
    fs st' !! (Sample.GAMES_DIR ++ ["pong"; "index.html"]) = None.
Proof.
  cbv zeta. split; [by vm_compute|]. split; [by vm_compute|].
  split; [by vm_compute|].
  eexists. split.
  - rewrite handleApi_DELETE by done. vm_compute. reflexivity.
  - by vm_compute.
Qed.

(** With the method POST and a path below [/api/games/] ending in
    [/thumbnail], the thumbnail route is the one taken. *)
Lemma handleApi_POST_thumbnail (P : Platform) (G : list string) (req : Request)
    (st : State) (gid : string) :
  method req = "POST" →
  pathname req = "/api/games/" +:+ gid +:+ "/thumbnail" →
  Str.contains_char "/" gid = false →
  handleApi P G req st =
  if is_existing_directory (fs st) (join G gid) then
    match writeFile (fs st) (join (join G gid) "thumbnail.png") (rawBody req) with
    | Some f' => (Ok (Some (json JsonOk)), {| fs := f'; log := log st |})
    | None => (Throw, st)
    end
  else (Ok (Some (text "not found" 404)), st).
Proof.
  intros Hm Hp Hid. unfold handleApi. rewrite Hm, Hp.
  rewrite (bool_decide_eq_false_2 ("POST" = "GET")) by done.
  rewrite andb_false_r.
  rewrite !games_path_not_add by done.
  rewrite StrFacts.startsWith_app.
  rewrite StrFacts.endsWith_app3.
  rewrite bool_decide_eq_true_2 by done. cbn [andb].
  rewrite run_bind, games_path_split by eauto.
  unfold lift_option. simpl. rewrite run_bind. unfold get_fs.
  destruct (is_existing_directory (fs st) (join G gid)); [|done].
  simpl. rewrite run_bind.
  destruct (writeFile _ _ _); [|done]. simpl. by rewrite run_bind.
Qed.

(** C10. For a game directory [gid] whose [thumbnail.png], if there is one,
    is a file, [POST /api/games/gid/thumbnail] stores the request body, any
    bytes at all, as [gid/thumbnail.png] (replacing what was there), answers
    200 with [{ ok: true }], and [listGames] afterwards lists [gid] with
    [hasThumbnail] set. *)
Theorem thumbnail_upload_spec (P : Platform) (G : list string) (req : Request)
    (st : State) (gid : string) :
  method req = "POST" →
  pathname req = "/api/games/" +:+ gid +:+ "/thumbnail" →
  Str.contains_char "/" gid = false →
  proper_name gid →
  fs st !! G = Some DirE →
  fs st !! (G ++ [gid]) = Some DirE →
  fs st !! (G ++ [gid; "thumbnail.png"]) ≠ Some DirE →
  ∃ st',
    handleApi P G req st = (Ok (Some {| status := 200; body := JsonOk |}), st') ∧
    fs st' = <[G ++ [gid; "thumbnail.png"] := FileE (rawBody req)]> (fs st) ∧
    log st' = log st ∧
    ∃ entries e,
      listGames P G st' = (Ok entries, st') ∧
      e ∈ entries ∧ id e = gid ∧ hasThumbnail e = true.
Proof.
  intros Hm Hp Hid Hname Hroot Hdir Hthumb.
  rewrite (handleApi_POST_thumbnail P G req st gid Hm Hp Hid).
  rewrite join_proper by done. rewrite join_thumbnail.
  unfold is_existing_directory, stat. rewrite Hdir. simpl.
  replace ((G ++ [gid]) ++ ["thumbnail.png"]) with (G ++ [gid; "thumbnail.png"])
    by (by rewrite <- app_assoc).
  unfold writeFile.
  replace (removelast (G ++ [gid; "thumbnail.png"])) with (G ++ [gid]).
  2:{ replace (G ++ [gid; "thumbnail.png"]) with ((G ++ [gid]) ++ ["thumbnail.png"])
        by (by rewrite <- app_assoc).
      by rewrite removelast_last. }
  rewrite Hdir.
  set (f' := <[G ++ [gid; "thumbnail.png"] := FileE (rawBody req)]> (fs st)).
  set (st' := {| fs := f'; log := log st |}).
  exists st'. split.
  { by destruct (fs st !! (G ++ [gid; "thumbnail.png"])) as [[?|]|]. }
  split; [done|]. split; [done|].
  assert (Hroot' : f' !! G = Some DirE).
  { unfold f'. rewrite lookup_insert_ne; [done|].
    intros Heq. apply (f_equal length) in Heq. rewrite length_app in Heq.
    simpl in Heq. lia. }
  assert (Hdir' : f' !! (G ++ [gid]) = Some DirE).
  { unfold f'. rewrite lookup_insert_ne; [done|].
    intros Heq. by apply app_inv_head in Heq. }
  eexists _, _. split; [by apply (listGames_run P G st')|].
  split; [|split].
  - rewrite sort_by_perm. apply list_elem_of_omap.
    exists (gid, DirE). split; [by apply elem_of_children|].
    by apply game_entry_Some.
  - done.
  - simpl. rewrite join_proper by done. apply thumbnail_present_true.
    exists (rawBody req). simpl. rewrite <- app_assoc. simpl.
    unfold f'. by rewrite lookup_insert_eq.
Qed.

(** C4. [POST /api/add-game/from-github]: a repo string the pattern does
    not match (a missing or empty one included) is answered with 400 and
    nothing else happens; otherwise the codeload URL of [owner/repo] is
    fetched for the given branch, [main] when the branch is missing or empty;
    a response that is not [ok] is answered with 502 after that single fetch,
    with no archiver run and the library untouched; and when the download and
    the ingestion both succeed the answer is 200 with [{ ok: true, id }]. *)
Theorem from_github_spec (P : Platform) (G : list string) (req : Request)
    (st : State) (j : GithubJson) :
  method req = "POST" →
  pathname req = "/api/add-game/from-github" →
  jsonBody req = Some j →
  ((repo j ≫= match_repo) = None →
     ∃ msg, handleApi P G req st
            = (Ok (Some {| status := 400; body := Text msg |}), st)) ∧
  (∀ r owner repoName,
     repo j = Some r →
     match_repo r = Some (owner, repoName) →
     let useBranch := match branch j with
                      | Some b => if bool_decide (b = "") then "main" else b
                      | None => "main"
                      end in
     let url := "https://codeload.github.com/" +:+ owner +:+ "/" +:+ repoName
                  +:+ "/zip/refs/heads/" +:+ useBranch in
     let fetched := {| fs := fs st; log := log st ++ [EFetch url] |} in
     (∀ payload,
        fetch P url = FetchResponse false payload →
        handleApi P G req st
        = (Ok (Some {| status := 502; body := Text "download failed" |}), fetched)) ∧
     (∀ zipBytes st',
        fetch P url = FetchResponse true zipBytes →
        let gid := Str.slugify (Str.or_default (gname j) repoName) in
        (ensureDirM (join G gid) ≫= λ _,
           saveZipToDir P zipBytes (join G gid)
             (Some (Str.or_default (subdir j) "root"))) fetched = (Ok tt, st') →
        handleApi P G req st
        = (Ok (Some {| status := 200; body := JsonOkId gid |}), st'))).
Proof.
  intros Hm Hp Hj.
  assert (Hrun : handleApi P G req st =
    match repo j with
    | None => (Ok (Some (text "repo required" 400)), st)
    | Some r =>
        if bool_decide (r = "") then (Ok (Some (text "repo required" 400)), st)
        else
          match match_repo r with
          | None => (Ok (Some (text "invalid repo url" 400)), st)
          | Some (owner, repoName) =>
              let url := zipUrl owner repoName (Str.or_default (branch j) "main") in
              let fetched := {| fs := fs st; log := log st ++ [EFetch url] |} in
              match fetch P url with
              | FetchRejects => (Throw, fetched)
              | FetchResponse false _ =>
                  (Ok (Some (text "download failed" 502)), fetched)
              | FetchResponse true zipBytes =>
                  let gid := Str.slugify (Str.or_default (gname j) repoName) in
                  match (ensureDirM (join G gid) ≫= λ _,
                           saveZipToDir P zipBytes (join G gid)
                             (Some (Str.or_default (subdir j) "root"))) fetched with
                  | (Ok _, st') => (Ok (Some (json (JsonOkId gid))), st')
                  | (Throw, st') => (Throw, st')
                  end
              end
          end
    end).
  { unfold handleApi. rewrite Hm, Hp.
    rewrite (bool_decide_eq_false_2 ("POST" = "GET")) by done.
    rewrite (bool_decide_eq_false_2
               ("/api/add-game/from-github" = "/api/add-game/from-zip")) by done.
    rewrite (bool_decide_eq_true_2 ("POST" = "POST")) by done.
    rewrite (bool_decide_eq_true_2
               ("/api/add-game/from-github" = "/api/add-game/from-github")) by done.
    rewrite andb_false_r. cbn [andb].
    rewrite run_bind, Hj. cbn [lift_option ret].
    destruct (repo j) as [r|]; [|done].
    destruct (bool_decide (r = "")); [done|].
    destruct (match_repo r) as [[owner repoName]|]; [|done].
    rewrite run_bind. cbn [emit]. cbv zeta.
    destruct (fetch P _) as [|[] zipBytes]; [done| |done].
    rewrite run_bind.
    change (ensureDirM ?t ≫= ?k) with (bind (ensureDirM t) k).
    unfold bind at 1.
    destruct (ensureDirM _ _) as [[[]|] st1]; [|done].
    rewrite run_bind.
    destruct (saveZipToDir _ _ _ _ st1) as [[[]|] st2]; done. }
  split.
  - intros Hnone. rewrite Hrun.
    destruct (repo j) as [r|]; [|by eexists]. simpl in Hnone.
    destruct (bool_decide (r = "")); [by eexists|].
    rewrite Hnone. by eexists.
  - intros r owner repoName Hr Hmatch useBranch url fetched.
    assert (Hne : r ≠ "") by (intros ->; by vm_compute in Hmatch).
    assert (Hurl : zipUrl owner repoName (Str.or_default (branch j) "main") = url).
    { unfold url, useBranch, zipUrl, Str.or_default.
      destruct (branch j) as [b|]; [|done].
      by destruct (decide (b = "")); [rewrite bool_decide_eq_true_2
                                      |rewrite bool_decide_eq_false_2]. }
    rewrite Hrun, Hr, bool_decide_eq_false_2, Hmatch by done.
    cbv zeta. rewrite Hurl. fold fetched. split.
    + intros payload ->. done.
    + intros zipBytes st' -> Hok. by rewrite Hok.
Qed.

(** A [thumbnail.png] that is itself a directory cannot be overwritten:
    [Deno.writeFile] rejects and the handler throws. *)
Lemma thumbnail_upload_onto_directory (P : Platform) (G : list string)
    (req : Request) (st : State) (gid : string) :
  method req = "POST" →
  pathname req = "/api/games/" +:+ gid +:+ "/thumbnail" →
  Str.contains_char "/" gid = false →
  proper_name gid →
  fs st !! (G ++ [gid]) = Some DirE →
  fs st !! (G ++ [gid; "thumbnail.png"]) = Some DirE →
  handleApi P G req st = (Throw, st).
Proof.
  intros Hm Hp Hid Hname Hdir Hthumb.
  rewrite (handleApi_POST_thumbnail P G req st gid Hm Hp Hid).
  rewrite join_proper by done. rewrite join_thumbnail.
  unfold is_existing_directory, stat. rewrite Hdir. simpl.
  replace ((G ++ [gid]) ++ ["thumbnail.png"]) with (G ++ [gid; "thumbnail.png"])
    by (by rewrite <- app_assoc).
  unfold writeFile. by rewrite Hthumb.
Qed.

(** A fetch that rejects is not answered at all: the handler throws after
    the fetch. *)
Lemma from_github_fetch_rejects (P : Platform) (G : list string) (req : Request)
    (st : State) (j : GithubJson) (r owner repoName : string) :
  method req = "POST" →
  pathname req = "/api/add-game/from-github" →
  jsonBody req = Some j →
  repo j = Some r →
  match_repo r = Some (owner, repoName) →
  fetch P (zipUrl owner repoName (Str.or_default (branch j) "main")) = FetchRejects →
  (handleApi P G req st).1 = Throw.
Proof.
  intros Hm Hp Hj Hr Hmatch Hfetch.
  assert (Hne : r ≠ "") by (intros ->; by vm_compute in Hmatch).
  unfold handleApi. rewrite Hm, Hp.
  rewrite (bool_decide_eq_false_2 ("POST" = "GET")) by done.
  rewrite (bool_decide_eq_false_2
             ("/api/add-game/from-github" = "/api/add-game/from-zip")) by done.
  rewrite (bool_decide_eq_true_2 ("POST" = "POST")) by done.
  rewrite (bool_decide_eq_true_2
             ("/api/add-game/from-github" = "/api/add-game/from-github")) by done.
  rewrite andb_false_r. cbn [andb].
  rewrite run_bind, Hj. cbn [lift_option ret]. rewrite Hr.
  rewrite bool_decide_eq_false_2, Hmatch by done.
  rewrite run_bind. cbn [emit]. by rewrite Hfetch.
Qed.

(** *** The statements above at the sample library *)

Lemma code_unit_compare_le (a b : string) :
  Sample.code_unit_compare a b ≤ 0 ↔ String.le a b.
Proof.
  unfold Sample.code_unit_compare, String.le.
  destruct (String.leb a b); [|split; [lia|done]].
  destruct (String.leb b a); split; try done; lia.
Qed.

Lemma code_unit_compare_total (a b : string) :
  Sample.code_unit_compare a b ≤ 0 ∨ Sample.code_unit_compare b a ≤ 0.
Proof. rewrite !code_unit_compare_le. apply String.le_total. Qed.

Lemma code_unit_compare_trans (a b c : string) :
  Sample.code_unit_compare a b ≤ 0 → Sample.code_unit_compare b c ≤ 0 →
  Sample.code_unit_compare a c ≤ 0.
Proof. rewrite !code_unit_compare_le. apply (transitivity (R := String.le)). Qed.

Lemma listGames_spec_witness :
  ∃ entries,
    listGames Sample.platform Sample.GAMES_DIR Sample.server
    = (Ok entries, Sample.server) ∧
    NoDup (id <$> entries) ∧
    (∀ n, n ∈ (id <$> entries) ↔
          fs Sample.server !! (Sample.GAMES_DIR ++ [n]) = Some DirE) ∧
    StronglySorted
      (λ a b, localeCompare Sample.platform (name a) (name b) ≤ 0) entries ∧
    (∀ e, e ∈ entries →
       name e = Str.replace_dash_underscore (id e) ∧
       path e = join Sample.GAMES_DIR (id e) ∧
       (hasThumbnail e = true ↔
        ∃ b, fs Sample.server !! (path e ++ ["thumbnail.png"]) = Some (FileE b))).
Proof.
  apply (listGames_spec Sample.platform Sample.GAMES_DIR Sample.server).
  - exact code_unit_compare_total.
  - exact code_unit_compare_trans.
  - vm_compute. reflexivity.
Defined.

Lemma saveZipToDir_resolves_root_witness :
  (resolve_base Sample.repo_main_archive (Some "DIST") = ["repo-main"; "dist"] ∧
   ∃ st',
     saveZipToDir Sample.platform [] (Sample.GAMES_DIR ++ ["repo"]) (Some "DIST")
       Sample.server = (Ok tt, st') ∧
     fs st' !! (Sample.GAMES_DIR ++ ["repo"; "index.html"])
     = Some (FileE [Byte.x3c; Byte.x21])) ∧
  (resolve_base Fixtures.flat_archive (Some "dist") = ["dist"] ∧
   ∃ st',
     saveZipToDir Fixtures.offline_platform [] (Sample.GAMES_DIR ++ ["flat"])
       (Some "dist") Sample.server = (Ok tt, st') ∧
     fs st' !! (Sample.GAMES_DIR ++ ["flat"; "game.js"])
     = Some (FileE [Byte.x2f; Byte.x2a])).
Proof.
  split.
  - destruct (saveZipToDir_resolves_root Sample.platform []
                (Sample.GAMES_DIR ++ ["repo"]) (Some "DIST") Sample.server
                Sample.repo_main_archive)
      as [Hbase Hcopy].
    + reflexivity.
    + intros w e H. vm_compute in H. injection H as <- _.
      repeat split; discriminate.
    + split; [exact Hbase|].
      set (r := saveZipToDir Sample.platform [] (Sample.GAMES_DIR ++ ["repo"])
                  (Some "DIST") Sample.server) in *.
      assert (Hrun : r = (Ok tt, r.2)) by (vm_compute; reflexivity).
      exists r.2. split; [exact Hrun|].
      destruct (Hcopy r.2 Hrun) as [_ Hfiles].
      apply (Hfiles ["index.html"]); [discriminate|].
      vm_compute. reflexivity.
  - destruct (saveZipToDir_resolves_root Fixtures.offline_platform []
                (Sample.GAMES_DIR ++ ["flat"]) (Some "dist") Sample.server
                Fixtures.flat_archive)
      as [Hbase Hcopy].
    + reflexivity.
    + intros w e H. vm_compute in H. discriminate H.
    + split; [exact Hbase|].
      set (r := saveZipToDir Fixtures.offline_platform []
                  (Sample.GAMES_DIR ++ ["flat"]) (Some "dist") Sample.server) in *.
      assert (Hrun : r = (Ok tt, r.2)) by (vm_compute; reflexivity).
      exists r.2. split; [exact Hrun|].
      destruct (Hcopy r.2 Hrun) as [_ Hfiles].
      apply (Hfiles ["game.js"]); [discriminate|].
      vm_compute. reflexivity.
Defined.

Lemma delete_route_matches_by_prefix_witness :
  ∃ st',
    handleApi Sample.platform Sample.GAMES_DIR
      (Sample.request "DELETE" "/api/games/pong/thumbnail") Sample.server
    = (Ok (Some {| status := 200; body := JsonOk |}), st') ∧
    log st' = log Sample.server ∧
    ∀ q, fs st' !! q
         = if decide (join Sample.GAMES_DIR "pong" `prefix_of` q)
           then None else fs Sample.server !! q.
Proof.
  apply (delete_route_matches_by_prefix Sample.platform Sample.GAMES_DIR
           (Sample.request "DELETE" "/api/games/pong/thumbnail") Sample.server
           "pong" "/thumbnail").
  - reflexivity.
  - reflexivity.
  - right. by exists "thumbnail".
  - reflexivity.
  - vm_compute. reflexivity.
Defined.

Lemma thumbnail_upload_spec_witness :
  ∃ st',
    handleApi Sample.platform Sample.GAMES_DIR
      (Sample.upload "/api/games/pong/thumbnail" [Byte.x00; Byte.x01]) Sample.server
    = (Ok (Some {| status := 200; body := JsonOk |}), st') ∧
    fs st' = <[Sample.GAMES_DIR ++ ["pong"; "thumbnail.png"]
               := FileE [Byte.x00; Byte.x01]]> (fs Sample.server) ∧
    log st' = log Sample.server ∧
    ∃ entries e,
      listGames Sample.platform Sample.GAMES_DIR st' = (Ok entries, st') ∧
      e ∈ entries ∧ id e = "pong" ∧ hasThumbnail e = true.
Proof.
  apply (thumbnail_upload_spec Sample.platform Sample.GAMES_DIR
           (Sample.upload "/api/games/pong/thumbnail" [Byte.x00; Byte.x01])
           Sample.server "pong").
  - reflexivity.
  - reflexivity.
  - reflexivity.
  - repeat split; discriminate.
  - vm_compute. reflexivity.
  - vm_compute. reflexivity.
  - vm_compute. discriminate.
Defined.

Lemma from_github_spec_witness :
  handleApi Sample.platform Sample.GAMES_DIR
    (Sample.github_request (Sample.repo_on (Some "dev"))) Sample.server
  = (Ok (Some {| status := 502; body := Text "download failed" |}),
     {| fs := fs Sample.server;
        log := [EFetch "https://codeload.github.com/user/repo/zip/refs/heads/dev"] |})
  ∧ ∃ st',
      handleApi Sample.platform Sample.GAMES_DIR
        (Sample.github_request (Sample.repo_on None)) Sample.server
      = (Ok (Some {| status := 200; body := JsonOkId "repo" |}), st').
Proof.
  split.
  - destruct (from_github_spec Sample.platform Sample.GAMES_DIR
                (Sample.github_request (Sample.repo_on (Some "dev")))
                Sample.server (Sample.repo_on (Some "dev"))
                eq_refl eq_refl eq_refl) as [_ H].
    destruct (H "https://github.com/user/repo.git" "user" "repo" eq_refl eq_refl)
      as [H502 _].
    apply (H502 []). vm_compute. reflexivity.
  - destruct (from_github_spec Sample.platform Sample.GAMES_DIR
                (Sample.github_request (Sample.repo_on None))
                Sample.server (Sample.repo_on None)
                eq_refl eq_refl eq_refl) as [_ H].
    destruct (H "https://github.com/user/repo.git" "user" "repo" eq_refl eq_refl)
      as [_ H200].
    set (target := join Sample.GAMES_DIR "repo").
    set (r := (ensureDirM target ≫= λ _,
                 saveZipToDir Sample.platform [Byte.x50; Byte.x4b] target (Some "dist"))
                {| fs := fs Sample.server; log := [EFetch Sample.main_branch_url] |}).
    exists r.2. apply (H200 [Byte.x50; Byte.x4b]).
    + vm_compute. reflexivity.
    + change (r = (Ok tt, r.2)). vm_compute. reflexivity.
Defined.

(** C4, counterexample to the claim as worded. A fetch that rejects (the
    machine is offline) is a fetch that does not succeed, yet no 502 is
    answered: the handler throws right after the fetch, so there is no
    response from it at all. *)
Lemma from_github_rejected_fetch_gets_no_502 :
  match_repo "https://github.com/user/repo.git" = Some ("user", "repo") ∧
  fetch Fixtures.offline_platform Sample.main_branch_url = FetchRejects ∧
  handleApi Fixtures.offline_platform Sample.GAMES_DIR
    (Sample.github_request (Sample.repo_on None)) Sample.server
  = (Throw, {| fs := fs Sample.server; log := [EFetch Sample.main_branch_url] |}) ∧
  ¬ ∃ resp st',
      handleApi Fixtures.offline_platform Sample.GAMES_DIR
        (Sample.github_request (Sample.repo_on None)) Sample.server
      = (Ok (Some resp), st').
Proof.
  assert (H : handleApi Fixtures.offline_platform Sample.GAMES_DIR
                (Sample.github_request (Sample.repo_on None)) Sample.server
              = (Throw, {| fs := fs Sample.server;
                           log := [EFetch Sample.main_branch_url] |}))
    by (vm_compute; reflexivity).
  split; [vm_compute; reflexivity|]. split; [reflexivity|]. split; [exact H|].
  intros (resp & st' & H'). rewrite H in H'. discriminate H'.
Qed.

End ServerSpec.

(** ** The launcher frontend *)

Module FrontendSpec.
Import Frontend.

Lemma clamp_bounds (len : nat) (i : Z) :
  (0 < len)%nat → 0 ≤ clamp len i < Z.of_nat len.
Proof. unfold clamp. lia. Qed.

Lemma clamp_id (len : nat) (i : Z) :
  0 ≤ i < Z.of_nat len → clamp len i = i.
Proof. unfold clamp. lia. Qed.

Lemma focusIndex_games (i : Z) (open : bool) (st : State) :
  games (focusIndex i open st) = games st.
Proof.
  unfold focusIndex. case_bool_decide; [done|].
  destruct open; [|done]. simpl.
  by destruct (game_at _ _).
Qed.

Lemma focusIndex_focused (i : Z) (open : bool) (st : State) :
  games st ≠ [] →
  focusedIndex (focusIndex i open st) = clamp (length (games st)) i.
Proof.
  intros Hne. unfold focusIndex.
  rewrite bool_decide_eq_false_2 by (by destruct (games st)).
  destruct open; [|done]. simpl. by destruct (game_at _ _).
Qed.

(** [focusIndex] establishes the bound whatever the state before. *)
Lemma focusIndex_in_bounds (i : Z) (open : bool) (st : State) :
  focus_in_bounds (focusIndex i open st).
Proof.
  unfold focus_in_bounds. rewrite focusIndex_games. intros Hne.
  rewrite focusIndex_focused by done. apply clamp_bounds.
  destruct (games st); [done|simpl; lia].
Qed.

Lemma exitGame_in_bounds (st : State) :
  focus_in_bounds st → focus_in_bounds (exitGame st).
Proof. done. Qed.

Lemma globalKeyHandler_in_bounds (key : string) (st : State) :
  focus_in_bounds st → focus_in_bounds (globalKeyHandler key st).
Proof.
  intros H. unfold globalKeyHandler.
  set (st1 := if bool_decide (key = "ArrowLeft") then _ else _).
  assert (H1 : focus_in_bounds st1).
  { unfold st1. case_bool_decide; [apply focusIndex_in_bounds|done]. }
  set (st2 := if bool_decide (key = "ArrowRight") then _ else _).
  assert (H2 : focus_in_bounds st2).
  { unfold st2. case_bool_decide; [apply focusIndex_in_bounds|done]. }
  set (st3 := if _ && negb (playing st2) then _ else _).
  assert (H3 : focus_in_bounds st3).
  { unfold st3. destruct (_ && _); [apply focusIndex_in_bounds|done]. }
  clearbody st3.
  destruct (bool_decide (key = "Escape") && playing st3);
    [by apply exitGame_in_bounds|done].
Qed.

Lemma deleteGame_games (gameIndex : Z) (st : State) :
  games (deleteGame gameIndex true (Some true) st) = splice1 (games st) gameIndex.
Proof.
  unfold deleteGame, renderCoverflow. simpl. rewrite focusIndex_games.
  by destruct (_ >=? _).
Qed.

Lemma deleteGame_in_bounds (gameIndex : Z) (confirmed : bool) (res : option bool)
    (st : State) :
  focus_in_bounds st → focus_in_bounds (deleteGame gameIndex confirmed res st).
Proof.
  intros H. unfold deleteGame. destruct confirmed; [|done]. simpl.
  destruct res as [[]|]; [|done..]. apply focusIndex_in_bounds.
Qed.

Lemma step_in_bounds (op : Op) (st : State) :
  focus_in_bounds st → focus_in_bounds (step op st).
Proof.
  intros H. destruct op; simpl.
  - apply focusIndex_in_bounds.
  - by apply globalKeyHandler_in_bounds.
  - apply focusIndex_in_bounds.
  - by apply deleteGame_in_bounds.
  - by apply exitGame_in_bounds.
Qed.

Lemma run_in_bounds (ops : list Op) (st : State) :
  focus_in_bounds st → focus_in_bounds (run ops st).
Proof.
  revert st. induction ops as [|op ops IH]; intros st H; [done|].
  simpl. apply IH. by apply step_in_bounds.
Qed.

(** C8. While the list of games is not empty [focusedIndex] lies in
    [0, length - 1]: [focusIndex(i, open)] stores [i] clamped into that range
    and leaves the list alone; a confirmed, successful deletion removes the
    entry and leaves the focus within the shortened list; every operation
    that writes [games] or [focusedIndex] keeps the bound, so every state
    reached from the initial one has it. *)
Theorem focusedIndex_in_bounds :
  (∀ i open st,
     games st ≠ [] →
     focusedIndex (focusIndex i open st) = clamp (length (games st)) i ∧
     games (focusIndex i open st) = games st ∧
     0 ≤ focusedIndex (focusIndex i open st) < Z.of_nat (length (games st))) ∧
  (∀ gameIndex st,
     let st' := deleteGame gameIndex true (Some true) st in
     games st' = splice1 (games st) gameIndex ∧
     (games st' ≠ [] → 0 ≤ focusedIndex st' < Z.of_nat (length (games st')))) ∧
  (∀ op st, focus_in_bounds st → focus_in_bounds (step op st)) ∧
  (∀ ops,
     let st := run ops initial in
     games st ≠ [] → 0 ≤ focusedIndex st < Z.of_nat (length (games st))).
Proof.
  split; [|split; [|split]].
  - intros i open st Hne. split; [by apply focusIndex_focused|].
    split; [apply focusIndex_games|].
    rewrite focusIndex_focused by done. apply clamp_bounds.
    destruct (games st); [done|simpl; lia].
  - intros gameIndex st st'. split; [apply deleteGame_games|].
    apply (focusIndex_in_bounds _ false).
  - apply step_in_bounds.
  - intros ops. apply (run_in_bounds ops initial). by intros [].
Qed.

Lemma focusedIndex_in_bounds_witness :
  focusedIndex (focusIndex 7 false Sample.coverflow) = 2 ∧
  focusedIndex (focusIndex (-3) false Sample.coverflow) = 0 ∧
  0 ≤ focusedIndex (deleteGame 2 true (Some true) Sample.coverflow) < 2 ∧
  0 ≤ focusedIndex (run [Fetched (games Sample.coverflow); Key "ArrowRight";
                          Key "ArrowRight"; Key "ArrowRight";
                          Delete 2 true (Some true)] initial) < 2.
Proof.
  destruct focusedIndex_in_bounds as (Hfocus & Hdelete & _ & Hrun).
  split; [|split; [|split]].
  - destruct (Hfocus 7 false Sample.coverflow) as [-> _]; [discriminate|reflexivity].
  - destruct (Hfocus (-3) false Sample.coverflow) as [-> _]; [discriminate|reflexivity].
  - destruct (Hdelete 2 Sample.coverflow) as [_ Hb].
    apply Hb. discriminate.
  - apply (Hrun [Fetched (games Sample.coverflow); Key "ArrowRight";
                 Key "ArrowRight"; Key "ArrowRight"; Delete 2 true (Some true)]).
    discriminate.
Defined.

End FrontendSpec.

(** ** The gamepad subsystem *)

Module GamepadSpec.
Import Gamepad.

(** *** Persistence *)

Lemma migrate_current (m : Mapping) :
  (∀ f, face m = Some f → needsMigration f = false) → migrate m = m.
Proof.
  intros H. unfold migrate. destruct m as [d [f|] sh sp]; simpl in *; [|done].
  unfold migrate_face. by rewrite (H f eq_refl).
Qed.

Lemma or_default_slot_Some (legacy : option ButtonMapping) (newName : string)
    (d : ButtonMapping) :
  slot_of defaultMapping "face" newName = Some d →
  or_default_slot legacy newName = Some (default d legacy).
Proof. intros H. unfold or_default_slot. by destruct legacy. Qed.

Lemma migrate_face_legacy (f : Group) :
  needsMigration f = true →
  migrate_face f =
  [("btnTop", default (slot 3 " " 32) (lookup_button f "north"));
   ("btnRight", default (slot 1 "c" 67) (lookup_button f "east"));
   ("btnBottom", default (slot 0 " " 32) (lookup_button f "south"));
   ("btnLeft", default (slot 2 "c" 67) (lookup_button f "west"))].
Proof.
  intros H. unfold migrate_face. rewrite H. cbn [omap list_omap fst snd].
  rewrite (or_default_slot_Some _ "btnTop" (slot 3 " " 32)) by done.
  rewrite (or_default_slot_Some _ "btnRight" (slot 1 "c" 67)) by done.
  rewrite (or_default_slot_Some _ "btnBottom" (slot 0 " " 32)) by done.
  rewrite (or_default_slot_Some _ "btnLeft" (slot 2 "c" 67)) by done.
  done.
Qed.

(** C5. Saving a mapping and loading it again gives the same mapping back
    whenever its face group carries none of the old names (and the JSON text
    of the mapping parses back to it); loading a stored mapping whose face
    group uses [north], [east], [south] or [west] rewrites that group to
    [btnTop], [btnRight], [btnBottom], [btnLeft], each taking the legacy slot
    of its direction as it is and the built-in default only where the legacy
    entry is absent, while the other groups are kept. *)
Theorem mapping_roundtrip_and_migration (J : Json) :
  (∀ m localStorage,
     parse J (stringify J m) = Some m →
     stringify J m ≠ "" →
     (∀ f, face m = Some f → needsMigration f = false) →
     loadMapping J (saveMapping J m localStorage) = Some m) ∧
  (∀ localStorage saved legacy f,
     localStorage !! "gamepadMapping" = Some saved →
     saved ≠ "" →
     parse J saved = Some legacy →
     face legacy = Some f →
     needsMigration f = true →
     ∃ m,
       loadMapping J localStorage = Some m ∧
       dpad m = dpad legacy ∧ shoulder m = shoulder legacy ∧
       special m = special legacy ∧
       face m = Some
         [("btnTop", default (slot 3 " " 32) (lookup_button f "north"));
          ("btnRight", default (slot 1 "c" 67) (lookup_button f "east"));
          ("btnBottom", default (slot 0 " " 32) (lookup_button f "south"));
          ("btnLeft", default (slot 2 "c" 67) (lookup_button f "west"))]).
Proof.
  split.
  - intros m localStorage Hparse Hne Hcur.
    unfold loadMapping, saveMapping. rewrite lookup_insert_eq.
    rewrite bool_decide_eq_false_2 by done. rewrite Hparse. simpl.
    by rewrite migrate_current.
  - intros localStorage saved legacy f Hsaved Hne Hparse Hface Hleg.
    unfold loadMapping. rewrite Hsaved, bool_decide_eq_false_2 by done.
    rewrite Hparse. simpl. eexists. split; [done|].
    unfold migrate. rewrite Hface. simpl.
    by rewrite migrate_face_legacy.
Qed.

Lemma mapping_roundtrip_and_migration_witness :
  loadMapping Sample.json_codec
    (saveMapping Sample.json_codec Sample.custom_mapping ∅)
  = Some Sample.custom_mapping ∧
  ∃ m,
    loadMapping Sample.json_codec {["gamepadMapping" := "legacy"]} = Some m ∧
    face m = Some [("btnTop", slot 3 "w" 87); ("btnRight", slot 1 "d" 68);
                   ("btnBottom", slot 0 "s" 83); ("btnLeft", slot 2 "c" 67)].
Proof.
  destruct (mapping_roundtrip_and_migration Sample.json_codec) as [Hround Hmig].
  split.
  - apply Hround.
    + reflexivity.
    + discriminate.
    + intros f [= <-]. reflexivity.
  - destruct (Hmig {["gamepadMapping" := "legacy"]} "legacy" Sample.legacy_mapping
                [("north", slot 3 "w" 87); ("east", slot 1 "d" 68);
                 ("south", slot 0 "s" 83)])
      as (m & Hload & _ & _ & _ & Hface).
    + reflexivity.
    + discriminate.
    + reflexivity.
    + reflexivity.
    + reflexivity.
    + exists m. split; [exact Hload|exact Hface].
Defined.

(** *** Live testing swallows every input *)

Lemma silent_refl (st : St) : silent st st.
Proof. by repeat split. Qed.

Lemma silent_trans (a b c : St) : silent a b → silent b c → silent a c.
Proof.
  intros (?&?&?&?&?&?) (?&?&?&?&?&?). repeat split; congruence.
Qed.

Lemma silent_testing (st st' : St) :
  silent st st' → isTestingActive st' = isTestingActive st.
Proof.
  intros (Hw & Ht & _). unfold isTestingActive, isConfiguratorOpen.
  by rewrite Hw, Ht.
Qed.

Lemma set_flag_silent (idx : nat) (key : string) (v : BSVal) (st : St) :
  silent st (set_flag idx key v st).
Proof. by repeat split. Qed.

Lemma processButtons_swallow (react : Action → World → World) (groupName : string)
    (c : Controller) (idx : nat) (prev : gmap string BSVal) (g : Group) (st : St) :
  isTestingActive st = true →
  silent st (processButtons react groupName c idx prev g st).
Proof.
  revert st. induction g as [|[buttonName mapping] rest IH]; intros st Ht.
  - apply silent_refl.
  - cbn [processButtons].
    destruct (button c (gamepadButton mapping)) as [isPressed|]; [|by apply IH].
    unfold shouldSwallowFor. rewrite Ht.
    assert (Hstep : silent st (processButtons react groupName c idx prev rest
                                 (set_flag_bool idx buttonName isPressed st))).
    { eapply silent_trans; [apply set_flag_silent|]. apply IH.
      by rewrite (silent_testing st) by apply set_flag_silent. }
    by destruct isPressed, (truthy (prev !! buttonName)).
Qed.

Lemma processButtonGroup_swallow (react : Action → World → World) (groupName : string)
    (c : Controller) (idx : nat) (prev : gmap string BSVal) (st : St) :
  isTestingActive st = true →
  silent st (processButtonGroup react groupName c idx prev st).
Proof.
  intros Ht. unfold processButtonGroup.
  destruct (group_of _ _); [by apply processButtons_swallow|apply silent_refl].
Qed.

Lemma processAnalogToDigital_swallow (react : Action → World → World)
    (stick : Q * Q) (idx : nat) (stickName : string) (st : St) :
  isTestingActive st = true →
  silent st (processAnalogToDigital react stick idx stickName st).
Proof.
  intros Ht. unfold processAnalogToDigital, shouldSwallowFor. rewrite Ht.
  apply set_flag_silent.
Qed.

Lemma processAnalogSticks_swallow (react : Action → World → World)
    (c : Controller) (idx : nat) (st : St) :
  isTestingActive st = true →
  silent st (processAnalogSticks react c idx st).
Proof.
  intros Ht. unfold processAnalogSticks.
  destruct (_ <? _)%nat; [apply silent_refl|].
  eapply silent_trans; [by apply processAnalogToDigital_swallow|].
  apply processAnalogToDigital_swallow.
  by rewrite (silent_testing st) by by apply processAnalogToDigital_swallow.
Qed.

Lemma processLauncherControls_swallow (react : Action → World → World)
    (c : Controller) (idx : nat) (prev : gmap string BSVal) (st : St) :
  isTestingActive st = true →
  processLauncherControls react c idx prev st = Some st.
Proof.
  intros Ht. unfold processLauncherControls, shouldSwallowFor. rewrite Ht.
  destruct (playing (world st)); [done|]. by destruct (isAnyOverlayOpen st).
Qed.

Lemma processOSDControls_swallow (react : Action → World → World)
    (c : Controller) (idx : nat) (prev : gmap string BSVal) (st : St) :
  isTestingActive st = true →
  processOSDControls react c idx prev st = Some st.
Proof. intros Ht. unfold processOSDControls, shouldSwallowFor. by rewrite Ht. Qed.

Lemma processGameMenuControls_swallow (react : Action → World → World)
    (c : Controller) (idx : nat) (prev : gmap string BSVal) (st : St) :
  isTestingActive st = true →
  processGameMenuControls react c idx prev st = Some st.
Proof. intros Ht. unfold processGameMenuControls, shouldSwallowFor. by rewrite Ht. Qed.

Lemma quiet_refl (st : St) : quiet st st.
Proof. repeat split. exists []. by rewrite app_nil_r. Qed.

Lemma quiet_trans (a b c : St) : quiet a b → quiet b c → quiet a c.
Proof.
  intros (?&?&?&e1&He1&?) (?&?&?&e2&He2&?).
  repeat split; try congruence.
  exists (e1 ++ e2). split; [by rewrite He2, He1, app_assoc|].
  by apply Forall_app.
Qed.

Lemma silent_quiet (a b : St) : silent a b → quiet a b.
Proof.
  intros (?&?&?&Ht&_). repeat split; try done.
  exists []. by rewrite app_nil_r.
Qed.

Lemma quiet_testing (st st' : St) :
  quiet st st' → isTestingActive st' = isTestingActive st.
Proof.
  intros (Hw & Ht & _). unfold isTestingActive, isConfiguratorOpen.
  by rewrite Hw, Ht.
Qed.

Lemma initOSDFocus_quiet (st : St) :
  quiet st (initOSDFocus st) ∧
  wasOSDOpen (initOSDFocus st) = wasOSDOpen st ∧
  wasGameMenuOpen (initOSDFocus st) = wasGameMenuOpen st.
Proof.
  unfold initOSDFocus. destruct (_ =? 0).
  - repeat split. exists []. by rewrite app_nil_r.
  - repeat split. eexists [_]. split; [done|]. by repeat constructor.
Qed.

Lemma initGameMenuFocus_quiet (st : St) :
  quiet st (initGameMenuFocus st) ∧
  wasOSDOpen (initGameMenuFocus st) = wasOSDOpen st ∧
  wasGameMenuOpen (initGameMenuFocus st) = wasGameMenuOpen st.
Proof.
  unfold initGameMenuFocus. destruct (_ =? 0).
  - repeat split. exists []. by rewrite app_nil_r.
  - repeat split. eexists [_]. split; [done|]. by repeat constructor.
Qed.

Lemma overlay_bookkeeping_quiet (st : St) :
  quiet st (overlay_bookkeeping st) ∧ settled (overlay_bookkeeping st).
Proof.
  unfold overlay_bookkeeping. cbv zeta.
  set (st1 := if isOSDOpen st && negb (wasOSDOpen st) then initOSDFocus st else st).
  assert (H1 : quiet st st1).
  { unfold st1. destruct (isOSDOpen st && negb (wasOSDOpen st));
      [apply initOSDFocus_quiet|apply quiet_refl]. }
  clearbody st1.
  set (st2 := set_wasOSDOpen (isOSDOpen st) st1).
  assert (H2 : quiet st st2 ∧ wasOSDOpen st2 = isOSDOpen st2).
  { destruct H1 as (Hw&?&?&?). split; [by repeat split|].
    unfold isOSDOpen. simpl. by rewrite Hw. }
  clearbody st2. destruct H2 as [H2 Hs2].
  set (st3 := if isGameMenuOpen st2 && negb (wasGameMenuOpen st2)
              then initGameMenuFocus st2 else st2).
  assert (H3 : quiet st2 st3 ∧ wasOSDOpen st3 = wasOSDOpen st2).
  { unfold st3. destruct (isGameMenuOpen st2 && negb (wasGameMenuOpen st2));
      [|by split; [apply quiet_refl|]].
    split; apply initGameMenuFocus_quiet. }
  clearbody st3. destruct H3 as [H3 Hs3].
  split.
  - eapply quiet_trans; [exact H2|]. destruct H3 as (?&?&?&?). by repeat split.
  - destruct H3 as (Hw3 & _). unfold settled, isOSDOpen, isGameMenuOpen in *.
    simpl. rewrite Hw3, Hs3, Hs2. done.
Qed.

Lemma overlay_bookkeeping_settled (st : St) :
  settled st → trace (overlay_bookkeeping st) = trace st.
Proof.
  intros [Ho Hg]. unfold overlay_bookkeeping, isOSDOpen, isGameMenuOpen in *.
  cbv zeta.
  destruct (osdOpen (world st)) eqn:Eo, (wasOSDOpen st) eqn:Ewo;
    try (specialize (Ho eq_refl); discriminate); simpl; rewrite ?Eo;
    destruct (gameMenuOpen (world st)) eqn:Eg, (wasGameMenuOpen st) eqn:Ewg;
    try (specialize (Hg eq_refl); discriminate); simpl; rewrite ?Eg, ?Ewg; done.
Qed.

Lemma silent_settled (st st' : St) : silent st st' → settled st → settled st'.
Proof.
  intros (Hw&_&_&_&Ho&Hg). unfold settled, isOSDOpen, isGameMenuOpen.
  by rewrite Hw, Ho, Hg.
Qed.

Lemma processController_swallow (react : Action → World → World)
    (idx : nat) (c : Controller) (st : St) :
  isTestingActive st = true →
  ∃ st', processController react idx c st = Some st' ∧
         quiet st st' ∧ settled st' ∧ (settled st → trace st' = trace st).
Proof.
  intros Ht. unfold processController.
  set (prev := default ∅ (buttonState st !! idx)). clearbody prev.
  destruct (overlay_bookkeeping_quiet st) as [Hq4 Hs4].
  pose proof (overlay_bookkeeping_settled st) as Htr4.
  set (st4 := overlay_bookkeeping st) in *. clearbody st4.
  assert (Ht4 : isTestingActive st4 = true) by by rewrite (quiet_testing st).
  set (st5 := processButtonGroup react "dpad" c idx prev st4).
  assert (H5 : silent st4 st5) by by apply processButtonGroup_swallow.
  assert (Ht5 : isTestingActive st5 = true) by by rewrite (silent_testing st4).
  clearbody st5.
  set (st6 := processButtonGroup react "face" c idx prev st5).
  assert (H6 : silent st5 st6) by by apply processButtonGroup_swallow.
  assert (Ht6 : isTestingActive st6 = true) by by rewrite (silent_testing st5).
  clearbody st6.
  set (st7 := processButtonGroup react "shoulder" c idx prev st6).
  assert (H7 : silent st6 st7) by by apply processButtonGroup_swallow.
  assert (Ht7 : isTestingActive st7 = true) by by rewrite (silent_testing st6).
  clearbody st7.
  set (st8 := processButtonGroup react "special" c idx prev st7).
  assert (H8 : silent st7 st8) by by apply processButtonGroup_swallow.
  assert (Ht8 : isTestingActive st8 = true) by by rewrite (silent_testing st7).
  clearbody st8.
  set (st9 := processAnalogSticks react c idx st8).
  assert (H9 : silent st8 st9) by by apply processAnalogSticks_swallow.
  assert (Ht9 : isTestingActive st9 = true) by by rewrite (silent_testing st8).
  clearbody st9.
  rewrite processLauncherControls_swallow by done. simpl.
  rewrite processOSDControls_swallow by done. simpl.
  rewrite processGameMenuControls_swallow by done.
  assert (H49 : silent st4 st9).
  { eapply silent_trans; [exact H5|]. eapply silent_trans; [exact H6|].
    eapply silent_trans; [exact H7|]. eapply silent_trans; [exact H8|]. exact H9. }
  exists st9. split; [done|]. split; [|split].
  - eapply quiet_trans; [exact Hq4|]. by apply silent_quiet.
  - by eapply silent_settled.
  - intros Hs. destruct H49 as (_&_&_&->&_). by apply Htr4.
Qed.

Lemma processInputs_swallow (react : Action → World → World)
    (controllers : list (nat * Controller)) (st : St) :
  isTestingActive st = true →
  ∃ st', processInputs react controllers st = Some st' ∧
         quiet st st' ∧ (settled st → trace st' = trace st ∧ settled st') ∧
         (controllers ≠ [] → settled st').
Proof.
  revert st. induction controllers as [|[idx c] rest IH]; intros st Ht.
  - exists st. split; [done|]. split; [apply quiet_refl|]. by split.
  - cbn [processInputs].
    destruct (processController_swallow react idx c st Ht)
      as (st1 & -> & Hq1 & Hs1 & Htr1).
    simpl.
    destruct (IH st1) as (st2 & -> & Hq2 & Htr2 & _).
    { by rewrite (quiet_testing st). }
    exists st2. split; [done|]. split; [by eapply quiet_trans|].
    destruct (Htr2 Hs1) as [Htr Hs2]. split; [|done].
    intros Hs. split; [|done]. rewrite Htr. by apply Htr1.
Qed.

(** C7. While live testing is active (the toggle is on and the
    configurator is shown), any number of frames with any controllers and
    any buttons or sticks held run through without error and without a
    single action on the page: no keyboard event for the game frame, no
    launcher navigation or launch, no overlay navigation, activation,
    opening or closing; the page flags, the testing switch and the mapping
    are unchanged, so testing stays active. The only thing that may be
    recorded is the focus housekeeping for an overlay that was opened by
    other means before the first frame, and when there is none the trace of
    actions is exactly what it was. *)
Theorem testing_swallows_all_input (react : Action → World → World)
    (fs : list (list (nat * Controller))) (st : St) :
  isTestingActive st = true →
  ∃ st',
    frames react fs st = Some st' ∧
    isTestingActive st' = true ∧
    world st' = world st ∧
    currentMapping st' = currentMapping st ∧
    (∃ extra, trace st' = trace st ++ extra ∧ Forall focus_housekeeping extra) ∧
    (settled st → trace st' = trace st).
Proof.
  revert st. induction fs as [|controllers fs IH]; intros st Ht.
  - exists st. repeat split; try done. exists []. by rewrite app_nil_r.
  - cbn [frames].
    destruct (processInputs_swallow react controllers st Ht)
      as (st1 & -> & Hq1 & Hs1 & _).
    simpl.
    destruct (IH st1) as (st2 & -> & Ht2 & Hw2 & Hm2 & (e2 & He2 & Hf2) & Htr2).
    { by rewrite (quiet_testing st). }
    destruct Hq1 as (Hw1 & Htm1 & Hm1 & e1 & He1 & Hf1).
    exists st2. split; [done|]. split; [done|].
    split; [congruence|]. split; [congruence|]. split.
    + exists (e1 ++ e2). split; [by rewrite He2, He1, app_assoc|].
      by apply Forall_app.
    + intros Hs. destruct (Hs1 Hs) as [Htr1 Hs1']. rewrite Htr2 by done. done.
Qed.

Lemma testing_swallows_all_input_witness :
  ∃ st',
    frames Sample.page
      [Sample.frame [0%nat]; Sample.frame [0%nat; 14%nat]; Sample.frame [9%nat];
       Sample.frame []]
      (Sample.manager true (Sample.world_of false true)) = Some st' ∧
    isTestingActive st' = true ∧
    trace st' = [].
Proof.
  destruct (testing_swallows_all_input Sample.page
              [Sample.frame [0%nat]; Sample.frame [0%nat; 14%nat];
               Sample.frame [9%nat]; Sample.frame []]
              (Sample.manager true (Sample.world_of false true)) eq_refl)
    as (st' & Hrun & Ht & _ & _ & _ & Htrace).
  exists st'. split; [exact Hrun|]. split; [exact Ht|].
  apply Htrace. split; discriminate.
Defined.

(** With testing off the same frames do reach the launcher. *)
Example without_testing_the_launcher_moves :
  trace <$> frames Sample.page
              [Sample.frame [0%nat]; Sample.frame [0%nat; 14%nat];
               Sample.frame [9%nat]; Sample.frame []]
              (Sample.manager false (Sample.world_of false true))
  ≠ Some [].
Proof. vm_compute. discriminate. Qed.

(** *** Edge detection *)

(** C6. The specification promises one press action per false-to-true
    transition and one release action per true-to-false transition for
    every mapped button, and none otherwise. The mapped stick buttons
    [leftStick] and [rightStick] break it:
    their slot in [buttonState] is also where [processAnalogToDigital]
    stores the stick object, which is truthy, so the snapshot always says
    "was pressed". In a running game an untouched pad gets a [keyup] for
    [f] in every frame, and pressing, holding and releasing the left stick
    button (index 10) never produces a [keydown] for [f]; the same three
    frames on button 0 give exactly keydown, keypress, keyup for the space
    key. *)
Theorem stick_buttons_defeat_edge_detection :
  (Sample.key_events "f" <$> Sample.play [[]; []; []])
  = Some ["keyup"; "keyup"; "keyup"] ∧
  (Sample.key_events "f" <$> Sample.play [[10%nat]; [10%nat]; []])
  = Some ["keyup"] ∧
  (Sample.key_events " " <$> Sample.play [[0%nat]; [0%nat]; []])
  = Some ["keydown"; "keypress"; "keyup"].
Proof. repeat split; vm_compute; reflexivity. Qed.

End GamepadSpec.

(** * Further properties *)

(** ** The id derivation *)

Module SlugFacts.
Import Str StrMore StrFacts.

Lemma all_chars_app (p : ascii → bool) (a b : string) :
  all_chars p (a +:+ b) = all_chars p a && all_chars p b.
Proof.
  induction a as [|c a IH]; [done|].
  rewrite app_cons. cbn [all_chars]. by rewrite IH, andb_assoc.
Qed.

Lemma all_chars_rev (p : ascii → bool) (s : string) :
  all_chars p (String.rev s) = all_chars p s.
Proof.
  induction s as [|c s IH]; [done|].
  rewrite rev_cons, all_chars_app, IH. cbn [all_chars].
  by rewrite andb_true_r, andb_comm.
Qed.

Lemma startsWith_nil (s : string) : startsWith s "" = true.
Proof. by destruct s. Qed.

Lemma startsWith_hyphen (c : ascii) (s : string) :
  startsWith (String c s) "-" = Ascii.eqb c "-".
Proof.
  cbn [startsWith]. rewrite Ascii.eqb_sym, startsWith_nil.
  by destruct (Ascii.eqb c "-").
Qed.

Lemma hyphen_not_alnum : is_alnum_lower "-" = false.
Proof. reflexivity. Qed.

Lemma collapse_alphabet (b : bool) (s : string) :
  all_chars is_slug_char (collapse_non_alnum b s) = true.
Proof.
  revert b. induction s as [|c s IH]; intros b; [done|].
  cbn [collapse_non_alnum].
  destruct (is_alnum_lower c) eqn:E.
  - cbn [all_chars]. unfold is_slug_char at 1. by rewrite E, IH.
  - destruct b; [apply IH|]. cbn [all_chars]. by rewrite IH.
Qed.

Lemma drop_leading_hyphens_alphabet (p : ascii → bool) (s : string) :
  all_chars p s = true → all_chars p (drop_leading_hyphens s) = true.
Proof.
  induction s as [|c s IH]; [done|]. cbn [all_chars drop_leading_hyphens].
  intros [Hc Hs]%andb_true_iff.
  destruct (Ascii.eqb c "-"); [by apply IH|].
  cbn [all_chars]. by rewrite Hc, Hs.
Qed.

Lemma drop_leading_hyphens_head (s : string) :
  startsWith (drop_leading_hyphens s) "-" = false.
Proof.
  induction s as [|c s IH]; [done|]. cbn [drop_leading_hyphens].
  destruct (Ascii.eqb c "-") eqn:E; [done|].
  by rewrite startsWith_hyphen.
Qed.

Lemma drop_leading_hyphens_id (s : string) :
  startsWith s "-" = false → drop_leading_hyphens s = s.
Proof.
  destruct s as [|c s]; [done|]. rewrite startsWith_hyphen.
  cbn [drop_leading_hyphens]. by intros ->.
Qed.

(** Dropping leading hyphens in front of a final non-hyphen keeps it. *)
Lemma drop_leading_hyphens_snoc (a : string) (c : ascii) :
  Ascii.eqb c "-" = false →
  drop_leading_hyphens (a +:+ String c "")
  = drop_leading_hyphens a +:+ String c "".
Proof.
  intros Hc. induction a as [|d a IH].
  - rewrite app_nil_l. cbn [drop_leading_hyphens]. by rewrite Hc.
  - rewrite app_cons. cbn [drop_leading_hyphens].
    destruct (Ascii.eqb d "-"); [done|]. by rewrite app_cons.
Qed.

Lemma trim_hyphens_alphabet (p : ascii → bool) (s : string) :
  all_chars p s = true → all_chars p (trim_hyphens s) = true.
Proof.
  intros H. unfold trim_hyphens. rewrite all_chars_rev.
  apply drop_leading_hyphens_alphabet. rewrite all_chars_rev.
  by apply drop_leading_hyphens_alphabet.
Qed.

Lemma trim_hyphens_tail (s : string) : endsWith (trim_hyphens s) "-" = false.
Proof.
  unfold endsWith, trim_hyphens. rewrite rev_involutive.
  apply drop_leading_hyphens_head.
Qed.

Lemma trim_hyphens_head (s : string) : startsWith (trim_hyphens s) "-" = false.
Proof.
  unfold trim_hyphens.
  pose proof (drop_leading_hyphens_head s) as Hh.
  destruct (drop_leading_hyphens s) as [|c x]; [done|].
  rewrite startsWith_hyphen in Hh.
  rewrite rev_cons, drop_leading_hyphens_snoc by done.
  rewrite rev_app_distr. change (String.rev (String c "")) with (String c "").
  rewrite app_cons. by rewrite startsWith_hyphen.
Qed.

Lemma slug_char_not (c d : ascii) :
  is_slug_char d = false → is_slug_char c = true → Ascii.eqb c d = false.
Proof.
  intros Hd Hc. destruct (Ascii.eqb c d) eqn:E; [|done].
  apply Ascii.eqb_eq in E. congruence.
Qed.

Lemma alphabet_contains (s : string) (d : ascii) :
  is_slug_char d = false → all_chars is_slug_char s = true →
  contains_char d s = false.
Proof.
  intros Hd. induction s as [|c s IH]; [done|]. cbn [all_chars contains_char].
  intros [Hc Hs]%andb_true_iff. by rewrite (slug_char_not c d), IH.
Qed.

Lemma slugify_alphabet (name : string) :
  all_chars is_slug_char (slugify name) = true.
Proof. apply trim_hyphens_alphabet, collapse_alphabet. Qed.

(** A derived id is empty or a proper directory name. *)
Lemma slugify_proper (name : string) :
  slugify name = "" ∨ Fs.proper_name (slugify name).
Proof.
  pose proof (slugify_alphabet name) as Ha.
  assert (Hdot : contains_char "." (slugify name) = false)
    by by apply alphabet_contains.
  assert (Hsl : contains_char "/" (slugify name) = false)
    by by apply alphabet_contains.
  destruct (slugify name) as [|c g]; [by left|right].
  repeat split; try done; intros [= -> ->]; by vm_compute in Hdot.
Qed.

(** X1. The id derived from a name is made of [a-z], [0-9] and hyphens
    only and neither starts nor ends with a hyphen; so it has no slash, is
    not a dot segment, and is either empty or a proper directory name. *)
Theorem slugify_shape (name : string) :
  let gid := slugify name in
  all_chars is_slug_char gid = true ∧
  startsWith gid "-" = false ∧
  endsWith gid "-" = false ∧
  contains_char "/" gid = false ∧
  contains_char "." gid = false ∧
  (gid = "" ∨ Fs.proper_name gid).
Proof.
  intros gid. pose proof (slugify_alphabet name) as Ha. fold gid in Ha.
  split; [done|]. split; [apply trim_hyphens_head|].
  split; [apply trim_hyphens_tail|].
  split; [by apply alphabet_contains|].
  split; [by apply alphabet_contains|]. apply slugify_proper.
Qed.

Lemma ndh_true_false (s : string) :
  no_double_hyphen true s = no_double_hyphen false s && negb (startsWith s "-").
Proof.
  destruct s as [|c s]; [done|]. rewrite startsWith_hyphen.
  cbn [no_double_hyphen].
  destruct (Ascii.eqb c "-"); simpl; by rewrite ?andb_true_r, ?andb_false_r.
Qed.

Lemma ndh_weaken (b : bool) (s : string) :
  no_double_hyphen b s = true → no_double_hyphen false s = true.
Proof.
  destruct b; [|done]. rewrite ndh_true_false. by intros [? _]%andb_true_iff.
Qed.

Lemma collapse_ndh (b : bool) (s : string) :
  no_double_hyphen b (collapse_non_alnum b s) = true.
Proof.
  revert b. induction s as [|c s IH]; intros b; [done|].
  cbn [collapse_non_alnum]. destruct (is_alnum_lower c) eqn:E.
  - cbn [no_double_hyphen].
    destruct (Ascii.eqb c "-") eqn:Ec; [|apply IH].
    apply Ascii.eqb_eq in Ec as ->. by rewrite hyphen_not_alnum in E.
  - destruct b; [apply IH|]. cbn [no_double_hyphen]. simpl. apply IH.
Qed.

Lemma drop_leading_hyphens_ndh (b : bool) (s : string) :
  no_double_hyphen b s = true → no_double_hyphen false (drop_leading_hyphens s) = true.
Proof.
  revert b. induction s as [|c s IH]; intros b; [done|].
  cbn [no_double_hyphen drop_leading_hyphens].
  destruct (Ascii.eqb c "-") eqn:E.
  - intros [_ H]%andb_true_iff. by eapply IH.
  - intros H. cbn [no_double_hyphen]. by rewrite E.
Qed.

Lemma last_is_hyphen_snoc (b : bool) (a : string) (c : ascii) :
  last_is_hyphen b (a +:+ String c "") = Ascii.eqb c "-".
Proof.
  revert b. induction a as [|d a IH]; intros b; [done|].
  rewrite app_cons. cbn [last_is_hyphen]. apply IH.
Qed.

Lemma last_is_hyphen_rev (s : string) :
  last_is_hyphen false (String.rev s) = startsWith s "-".
Proof.
  destruct s as [|c s]; [done|].
  by rewrite rev_cons, last_is_hyphen_snoc, startsWith_hyphen.
Qed.

Lemma ndh_app (b : bool) (x y : string) :
  no_double_hyphen b (x +:+ y)
  = no_double_hyphen b x && no_double_hyphen (last_is_hyphen b x) y.
Proof.
  revert b. induction x as [|c x IH]; intros b; [done|].
  rewrite app_cons. cbn [no_double_hyphen last_is_hyphen].
  destruct (Ascii.eqb c "-"); rewrite IH; [|done]. by rewrite andb_assoc.
Qed.

Lemma ndh_rev (s : string) :
  no_double_hyphen false (String.rev s) = no_double_hyphen false s.
Proof.
  induction s as [|c s IH]; [done|].
  rewrite rev_cons, ndh_app, IH, last_is_hyphen_rev.
  cbn [no_double_hyphen]. destruct (Ascii.eqb c "-"); simpl.
  - by rewrite ndh_true_false, andb_true_r.
  - by rewrite andb_true_r.
Qed.

Lemma trim_hyphens_ndh (b : bool) (s : string) :
  no_double_hyphen b s = true → no_double_hyphen false (trim_hyphens s) = true.
Proof.
  intros H. unfold trim_hyphens. rewrite ndh_rev.
  apply (drop_leading_hyphens_ndh false). rewrite ndh_rev.
  by eapply drop_leading_hyphens_ndh.
Qed.

Lemma lower_slug_char (c : ascii) : is_slug_char c = true → lower_char c = c.
Proof.
  unfold is_slug_char, is_alnum_lower, lower_char.
  intros [H|H]%orb_true_iff.
  - destruct (65 <=? nat_of_ascii c)%nat eqn:E1, (nat_of_ascii c <=? 90)%nat eqn:E2;
      try done.
    apply Nat.leb_le in E1, E2.
    apply orb_true_iff in H as [[H1 H2]%andb_true_iff|[H1 H2]%andb_true_iff];
      apply Nat.leb_le in H1, H2; lia.
  - by apply Ascii.eqb_eq in H as ->.
Qed.

Lemma toLowerCase_slug (s : string) :
  all_chars is_slug_char s = true → toLowerCase s = s.
Proof.
  induction s as [|c s IH]; [done|]. cbn [all_chars toLowerCase].
  intros [Hc Hs]%andb_true_iff. by rewrite lower_slug_char, IH.
Qed.

Lemma collapse_slug (b : bool) (s : string) :
  all_chars is_slug_char s = true → no_double_hyphen b s = true →
  collapse_non_alnum b s = s.
Proof.
  revert b. induction s as [|c s IH]; intros b; [done|].
  cbn [all_chars no_double_hyphen collapse_non_alnum].
  intros [Hc Hs]%andb_true_iff Hn.
  destruct (is_alnum_lower c) eqn:E.
  - destruct (Ascii.eqb c "-") eqn:Ec.
    { apply Ascii.eqb_eq in Ec as ->. by rewrite hyphen_not_alnum in E. }
    by rewrite IH.
  - unfold is_slug_char in Hc. rewrite E in Hc. simpl in Hc. rewrite Hc in Hn.
    apply andb_true_iff in Hn as [Hb Hn]. destruct b; [done|].
    apply Ascii.eqb_eq in Hc as ->. by rewrite IH.
Qed.

Lemma trim_hyphens_id (s : string) :
  startsWith s "-" = false → endsWith s "-" = false → trim_hyphens s = s.
Proof.
  intros Hh Ht. unfold trim_hyphens. rewrite (drop_leading_hyphens_id s Hh).
  rewrite drop_leading_hyphens_id by done. apply rev_involutive.
Qed.

(** X2. Deriving an id from an id changes nothing: [slugify] is idempotent,
    so a game submitted again under the id it was given lands in the same
    directory. *)
Theorem slugify_idempotent (name : string) :
  slugify (slugify name) = slugify name.
Proof.
  pose proof (slugify_alphabet name) as Ha.
  pose proof (trim_hyphens_head (collapse_non_alnum false (toLowerCase name))) as Hh.
  pose proof (trim_hyphens_tail (collapse_non_alnum false (toLowerCase name))) as Ht.
  fold (slugify name) in Hh, Ht.
  assert (Hn : no_double_hyphen false (slugify name) = true)
    by (eapply trim_hyphens_ndh, collapse_ndh).
  set (t := slugify name) in *. clearbody t.
  unfold slugify. rewrite toLowerCase_slug, collapse_slug by done.
  by apply trim_hyphens_id.
Qed.

End SlugFacts.

(** ** Filesystem and ingestion *)

Module ServerMore.
Import Fs Server FsFacts ServerSpec.

Lemma prefix_snoc_inv {A} (q pre : list A) (s : A) (rest : list A) :
  pre `prefix_of` q → q `prefix_of` pre ++ s :: rest →
  q = pre ∨ (pre ++ [s]) `prefix_of` q.
Proof.
  intros [k ->] Hq. apply prefix_app_inv in Hq.
  destruct k as [|x k]; [left; by rewrite app_nil_r|right].
  apply prefix_cons_inv_1 in Hq as ->.
  exists k. by rewrite <- app_assoc.
Qed.

Lemma ensureDir_from_spec (f f' : Fs.t) (pre rest : list string) :
  ensureDir_from f pre rest = Some f' →
  ∀ q, f' !! q = if decide (pre `prefix_of` q ∧ q `prefix_of` pre ++ rest)
                 then Some DirE else f !! q.
Proof.
  revert f pre. induction rest as [|s rest IH]; intros f pre H q; simpl in H.
  - assert (f' = <[pre := DirE]> f) as -> by (destruct (f !! pre) as [[?|]|]; by simplify_eq).
    rewrite app_nil_r. destruct (decide (q = pre)) as [->|Hne].
    + rewrite lookup_insert_eq. by rewrite decide_True.
    + rewrite lookup_insert_ne by done. rewrite decide_False; [done|].
      intros [H1 H2]. apply Hne. by apply (anti_symm prefix).
  - assert (ensureDir_from (<[pre := DirE]> f) (pre ++ [s]) rest = Some f') as H'
      by (destruct (f !! pre) as [[?|]|]; by simplify_eq).
    rewrite (IH _ _ H' q). rewrite <- app_assoc. simpl.
    destruct (decide (pre ++ [s] `prefix_of` q ∧ q `prefix_of` pre ++ s :: rest))
      as [[H1 H2]|Hn].
    + rewrite decide_True; [done|]. split; [|done]. by eapply prefix_app_l.
    + destruct (decide (q = pre)) as [->|Hne].
      * rewrite lookup_insert_eq. rewrite decide_True; [done|].
        split; [done|]. by apply prefix_app_r.
      * rewrite lookup_insert_ne by done. rewrite decide_False; [done|].
        intros [H1 H2]. destruct (prefix_snoc_inv _ _ _ _ H1 H2); tauto.
Qed.

Lemma ensureDir_spec (f f' : Fs.t) (p : list string) :
  ensureDir f p = Some f' →
  ∀ q, f' !! q = if decide (q `prefix_of` p) then Some DirE else f !! q.
Proof.
  intros H q. rewrite (ensureDir_from_spec _ _ _ _ H q). simpl.
  destruct (decide (q `prefix_of` p)).
  - rewrite decide_True; [done|]. split; [apply prefix_nil|done].
  - rewrite decide_False; [done|]. tauto.
Qed.

(** Where a path lands relative to the target of a copy. *)
Lemma copy_walk_spec (dest : list string) (l : list (list string * entry))
    (f f' : Fs.t) (q : list string) :
  NoDup l.*1 →
  copy_walk dest f l = (f', true) →
  f' !! q = match strip_prefix dest q with
            | Some rel => match list_to_map (M := gmap (list string) entry) l !! rel with
                          | Some x => Some x
                          | None => f !! q
                          end
            | None => f !! q
            end.
Proof.
  intros Hnd Hw.
  destruct (strip_prefix dest q) as [rel|] eqn:E.
  - apply strip_prefix_Some in E as ->.
    destruct (list_to_map l !! rel) as [x|] eqn:El.
    + apply elem_of_list_to_map in El; [|done]. by eapply copy_walk_lookup.
    + apply not_elem_of_list_to_map in El.
      eapply copy_walk_other; [done|]. intros r Hr Heq.
      apply app_inv_head in Heq. by subst.
  - eapply copy_walk_other; [done|]. intros r Hr ->.
    by rewrite (proj2 (strip_prefix_Some dest (dest ++ r) r) eq_refl) in E.
Qed.

Lemma descendants_lookup (ex : Fs.t) (base rel : list string) :
  list_to_map (M := gmap (list string) entry) (descendants ex base) !! rel
  = if decide (rel = []) then None else ex !! (base ++ rel).
Proof.
  destruct (list_to_map (descendants ex base) !! rel) as [x|] eqn:E.
  - apply elem_of_list_to_map in E; [|apply NoDup_descendants].
    apply elem_of_descendants in E as [Hne ->]. by rewrite decide_False.
  - case_decide as Hr; [done|].
    destruct (ex !! (base ++ rel)) as [x|] eqn:Ex; [|done].
    apply not_elem_of_list_to_map in E. exfalso. apply E.
    apply list_elem_of_fmap. exists (rel, x). split; [done|].
    by apply elem_of_descendants.
Qed.

(** The filesystem a successful ingestion leaves behind, path by path. *)
Lemma saveZipToDir_lookup (P : Platform) (zipBytes : bytes)
    (targetDir : list string) (subdirHint : option string) (st st' : State)
    (ex : Fs.t) :
  archive_of P zipBytes = Some ex →
  saveZipToDir P zipBytes targetDir subdirHint st = (Ok tt, st') →
  ∀ q, fs st' !! q =
       if decide (q `prefix_of` targetDir) then Some DirE
       else match strip_prefix targetDir q with
            | Some rel =>
                match ex !! (resolve_base ex subdirHint ++ rel) with
                | Some x => Some x
                | None => fs st !! q
                end
            | None => fs st !! q
            end.
Proof.
  intros Hex Hrun q. unfold saveZipToDir in Hrun.
  rewrite run_bind, run_ensureDirM in Hrun.
  destruct (ensureDir (fs st) targetDir) as [f1|] eqn:E1; [|done].
  rewrite run_bind in Hrun.
  destruct (run_extract P zipBytes {| fs := f1; log := log st |}) as [l Hext].
  rewrite Hext, Hex in Hrun. simpl in Hrun.
  rewrite run_bind, run_ensureDirM in Hrun. simpl in Hrun.
  destruct (ensureDir f1 targetDir) as [f2|] eqn:E2; [|done].
  pose proof (ensureDir_spec _ _ _ E1) as H1.
  pose proof (ensureDir_spec _ _ _ E2) as H2.
  set (base := resolve_base ex subdirHint) in *. clearbody base.
  unfold copy in Hrun. rewrite run_bind in Hrun. unfold get_fs in Hrun.
  simpl in Hrun.
  assert (Hdest : f2 !! targetDir = Some DirE) by (by rewrite H2, decide_True).
  destruct (if decide (base = []) then Some DirE else ex !! base) as [[b|]|];
    rewrite ?Hdest in Hrun; try done.
  rewrite run_bind in Hrun. unfold put_fs in Hrun. simpl in Hrun.
  destruct (copy_walk targetDir (<[targetDir:=DirE]> f2) (descendants ex base))
    as [f3 ok] eqn:Ew. simpl in Hrun.
  destruct ok; [|done]. injection Hrun as <-. simpl.
  rewrite (copy_walk_spec _ _ _ _ q (NoDup_descendants ex base) Ew).
  assert (Hf2 : (<[targetDir:=DirE]> f2) !! q
                = if decide (q `prefix_of` targetDir) then Some DirE else fs st !! q).
  { destruct (decide (q = targetDir)) as [->|Hne].
    - rewrite lookup_insert_eq. by rewrite decide_True.
    - rewrite lookup_insert_ne by done. rewrite H2, H1. by case_decide. }
  destruct (strip_prefix targetDir q) as [rel|] eqn:Es.
  - apply strip_prefix_Some in Es as ->. rewrite descendants_lookup.
    destruct (decide (rel = [])) as [->|Hrel].
    + rewrite Hf2. rewrite app_nil_r. by rewrite !decide_True.
    + rewrite (decide_False (P := targetDir ++ rel `prefix_of` targetDir)).
      2:{ intros Hp. apply prefix_length in Hp. rewrite length_app in Hp.
          destruct rel; [done|simpl in Hp; lia]. }
      destruct (ex !! (base ++ rel)); [done|].
      rewrite Hf2. rewrite decide_False; [done|].
      intros Hp. apply prefix_length in Hp. rewrite length_app in Hp.
      destruct rel; [done|simpl in Hp; lia].
  - rewrite Hf2. by case_decide.
Qed.

(** X3. Ingestion merges into the target, it does not replace it: after a
    successful [saveZipToDir] the target and its ancestors are directories,
    every path below the target that the archive does not provide keeps
    what it had (files of an earlier upload survive), and nothing outside
    the target changes. *)
Theorem saveZipToDir_merges (P : Platform) (zipBytes : bytes)
    (targetDir : list string) (subdirHint : option string) (st st' : State)
    (ex : Fs.t) :
  archive_of P zipBytes = Some ex →
  saveZipToDir P zipBytes targetDir subdirHint st = (Ok tt, st') →
  (∀ q, q `prefix_of` targetDir → fs st' !! q = Some DirE) ∧
  (∀ rel, rel ≠ [] → ex !! (resolve_base ex subdirHint ++ rel) = None →
          fs st' !! (targetDir ++ rel) = fs st !! (targetDir ++ rel)) ∧
  (∀ q, ¬ q `prefix_of` targetDir → ¬ targetDir `prefix_of` q →
        fs st' !! q = fs st !! q).
Proof.
  intros Hex Hrun.
  pose proof (saveZipToDir_lookup _ _ _ _ _ _ _ Hex Hrun) as H.
  split; [|split].
  - intros q Hq. by rewrite H, decide_True.
  - intros rel Hrel Hno. rewrite H.
    rewrite decide_False.
    2:{ intros Hp. apply prefix_length in Hp. rewrite length_app in Hp.
        destruct rel; [done|simpl in Hp; lia]. }
    destruct (strip_prefix targetDir (targetDir ++ rel)) as [rel'|] eqn:Es; [|done].
    apply strip_prefix_Some in Es. apply app_inv_head in Es as <-.
    by rewrite Hno.
  - intros q Hq1 Hq2. rewrite H, decide_False by done.
    destruct (strip_prefix targetDir q) as [rel|] eqn:Es; [|done].
    apply strip_prefix_Some in Es as ->. destruct Hq2. by apply prefix_app_r.
Qed.

Lemma saveZipToDir_merges_witness :
  ∃ st',
    saveZipToDir Sample.platform [Byte.x50; Byte.x4b]
      (Sample.GAMES_DIR ++ ["puzzle_box"]) (Some "dist") Sample.server
    = (Ok tt, st') ∧
    fs st' !! (Sample.GAMES_DIR ++ ["puzzle_box"; "thumbnail.png"])
    = Some (FileE [Byte.x89]) ∧
    fs st' !! (Sample.GAMES_DIR ++ ["pong"; "index.html"])
    = Some (FileE [Byte.x3c]).
Proof.
  set (r := saveZipToDir Sample.platform [Byte.x50; Byte.x4b]
              (Sample.GAMES_DIR ++ ["puzzle_box"]) (Some "dist") Sample.server).
  assert (Hr : r = (Ok tt, r.2)) by (vm_compute; reflexivity).
  destruct (saveZipToDir_merges Sample.platform [Byte.x50; Byte.x4b]
              (Sample.GAMES_DIR ++ ["puzzle_box"]) (Some "dist")
              Sample.server r.2 Sample.repo_main_archive eq_refl Hr)
    as (_ & Hkept & Hout).
  exists r.2. split; [exact Hr|]. split.
  - change (Sample.GAMES_DIR ++ ["puzzle_box"; "thumbnail.png"])
      with ((Sample.GAMES_DIR ++ ["puzzle_box"]) ++ ["thumbnail.png"]).
    rewrite (Hkept ["thumbnail.png"]).
    + vm_compute. reflexivity.
    + discriminate.
    + vm_compute. reflexivity.
  - rewrite (Hout (Sample.GAMES_DIR ++ ["pong"; "index.html"])).
    + vm_compute. reflexivity.
    + intros [k Hk]. discriminate Hk.
    + intros [k Hk]. discriminate Hk.
Defined.

(** The ids [listGames] reports are the names of the directories right
    under the root. *)
Lemma listGames_ids (P : Platform) (G : list string) (st : State) :
  fs st !! G = Some DirE →
  ∃ entries,
    listGames P G st = (Ok entries, st) ∧
    ∀ n, n ∈ (id <$> entries) ↔ fs st !! (G ++ [n]) = Some DirE.
Proof.
  intros Hroot. eexists. split; [by apply listGames_run|].
  intros n. rewrite sort_by_perm, list_elem_of_fmap. split.
  - intros (g & -> & Hin).
    apply list_elem_of_omap in Hin as ([n' e'] & Hin & Hg).
    apply game_entry_Some in Hg as [He ->]. simpl in *. subst e'.
    by apply elem_of_children.
  - intros Hn. eexists. split; [|apply list_elem_of_omap].
    2:{ exists (n, DirE). split; [by apply elem_of_children|].
        by apply game_entry_Some. }
    done.
Qed.

(** X4. Deleting a game takes exactly that game out of the catalogue: after
    a successful [DELETE /api/games/gid] the ids listed are those listed
    before, minus [gid]. *)
Theorem delete_then_list (P : Platform) (G : list string) (req : Request)
    (st : State) (gid : string) :
  method req = "DELETE" →
  pathname req = "/api/games/" +:+ gid →
  Str.contains_char "/" gid = false →
  proper_name gid →
  fs st !! G = Some DirE →
  fs st !! (G ++ [gid]) = Some DirE →
  ∃ st' before after,
    handleApi P G req st = (Ok (Some {| status := 200; body := JsonOk |}), st') ∧
    listGames P G st = (Ok before, st) ∧
    listGames P G st' = (Ok after, st') ∧
    ∀ n, n ∈ (id <$> after) ↔ n ∈ (id <$> before) ∧ n ≠ gid.
Proof.
  intros Hm Hp Hid Hname Hroot Hdir.
  rewrite <- (StrFacts.app_nil_r gid) in Hp.
  rewrite (handleApi_DELETE P G req st Hm), Hp.
  rewrite StrFacts.startsWith_app, games_path_split by auto.
  rewrite join_proper by done.
  unfold is_existing_directory, stat. rewrite Hdir. simpl.
  set (st' := {| fs := remove_recursive (fs st) (G ++ [gid]); log := log st |}).
  assert (Hfs : ∀ q, fs st' !! q
                     = if decide (G ++ [gid] `prefix_of` q) then None else fs st !! q)
    by (intros q; apply lookup_remove_recursive).
  clearbody st'.
  assert (Hroot' : fs st' !! G = Some DirE).
  { rewrite Hfs, decide_False; [done|]. apply prefix_snoc_not. }
  destruct (listGames_ids P G st Hroot) as (before & Hb & Hbi).
  destruct (listGames_ids P G st' Hroot') as (after & Ha & Hai).
  exists st', before, after. repeat split; try done.
  - apply Hbi. apply Hai in H. rewrite Hfs in H. by case_decide.
  - intros ->. apply Hai in H. rewrite Hfs, decide_True in H; done.
  - intros [Hn Hne]. apply Hai. rewrite Hfs, decide_False; [by apply Hbi|].
    intros Hpre. apply Hne. apply prefix_app_inv in Hpre.
    by apply prefix_cons_inv_1 in Hpre.
Qed.

Lemma delete_then_list_witness :
  ∃ st' before after,
    handleApi Sample.platform Sample.GAMES_DIR
      (Sample.request "DELETE" "/api/games/pong") Sample.server
    = (Ok (Some {| status := 200; body := JsonOk |}), st') ∧
    listGames Sample.platform Sample.GAMES_DIR Sample.server
    = (Ok before, Sample.server) ∧
    listGames Sample.platform Sample.GAMES_DIR st' = (Ok after, st') ∧
    ∀ n, n ∈ (id <$> after) ↔ n ∈ (id <$> before) ∧ n ≠ "pong".
Proof.
  apply (delete_then_list Sample.platform Sample.GAMES_DIR
           (Sample.request "DELETE" "/api/games/pong") Sample.server "pong").
  - reflexivity.
  - reflexivity.
  - reflexivity.
  - repeat split; discriminate.
  - vm_compute. reflexivity.
  - vm_compute. reflexivity.
Defined.

(** *** Adding a game from an upload *)

Lemma saveZipToDir_Ok_archive (P : Platform) (zipBytes : bytes)
    (targetDir : list string) (subdirHint : option string) (st st' : State) :
  saveZipToDir P zipBytes targetDir subdirHint st = (Ok tt, st') →
  ∃ ex, archive_of P zipBytes = Some ex.
Proof.
  intros Hrun. unfold saveZipToDir in Hrun.
  rewrite run_bind, run_ensureDirM in Hrun.
  destruct (ensureDir (fs st) targetDir) as [f1|]; [|done].
  rewrite run_bind in Hrun.
  destruct (run_extract P zipBytes {| fs := f1; log := log st |}) as [l Hext].
  rewrite Hext in Hrun. destruct (archive_of P zipBytes) as [ex|]; [by exists ex|done].
Qed.

(** After [ensureDir(target)] and a successful [saveZipToDir] the target
    and every ancestor of it is a directory. *)
Lemma ingest_target_is_directory (P : Platform) (zipBytes : bytes)
    (targetDir : list string) (subdirHint : option string) (st st' : State) :
  (ensureDirM targetDir ≫= λ _, saveZipToDir P zipBytes targetDir subdirHint) st
  = (Ok tt, st') →
  ∀ q, q `prefix_of` targetDir → fs st' !! q = Some DirE.
Proof.
  intros Hrun q Hq. rewrite run_bind, run_ensureDirM in Hrun.
  destruct (ensureDir (fs st) targetDir) as [f1|]; [|done].
  destruct (saveZipToDir_Ok_archive _ _ _ _ _ _ Hrun) as [ex Hex].
  rewrite (saveZipToDir_lookup _ _ _ _ _ _ ex Hex Hrun q). by rewrite decide_True.
Qed.

Lemma handleApi_from_zip (P : Platform) (G : list string) (req : Request)
    (st : State) (form : Form) :
  method req = "POST" →
  pathname req = "/api/add-game/from-zip" →
  formData req = Some form →
  handleApi P G req st =
  match file form with
  | None => (Ok (Some (text "file required" 400)), st)
  | Some zipBytes =>
      let gid := Str.slugify (Str.or_default (fname form) "game") in
      match (ensureDirM (join G gid) ≫= λ _,
               saveZipToDir P zipBytes (join G gid)
                 (Some (Str.or_default (fsubdir form) "root"))) st with
      | (Ok _, st') => (Ok (Some (json (JsonOkId gid))), st')
      | (Throw, st') => (Throw, st')
      end
  end.
Proof.
  intros Hm Hp Hf. unfold handleApi. rewrite Hm, Hp.
  rewrite (bool_decide_eq_false_2 ("POST" = "GET")) by done.
  rewrite (bool_decide_eq_true_2 ("POST" = "POST")) by done.
  rewrite (bool_decide_eq_true_2
             ("/api/add-game/from-zip" = "/api/add-game/from-zip")) by done.
  rewrite andb_false_r. cbn [andb].
  rewrite run_bind, Hf. cbn [lift_option ret].
  destruct (file form) as [zipBytes|]; [|done]. cbv zeta.
  rewrite !run_bind.
  destruct (ensureDirM _ st) as [[[]|] st1]; [|done].
  rewrite ?run_bind.
  by destruct (saveZipToDir _ _ _ _ st1) as [[[]|] st2].
Qed.

(** X5. [POST /api/add-game/from-zip]: without a file part the answer is
    400 and nothing is touched; with one, any answer is 200 with the id
    derived from the name ([game] when the name is missing or empty), and
    the catalogue read afterwards lists that id (unless the id is empty, in
    which case the archive went into the library root itself). *)
Theorem from_zip_spec (P : Platform) (G : list string) (req : Request)
    (st : State) (form : Form) :
  method req = "POST" →
  pathname req = "/api/add-game/from-zip" →
  formData req = Some form →
  (file form = None →
     handleApi P G req st
     = (Ok (Some {| status := 400; body := Text "file required" |}), st)) ∧
  (∀ resp st',
     file form ≠ None →
     handleApi P G req st = (Ok (Some resp), st') →
     let gid := Str.slugify (Str.or_default (fname form) "game") in
     resp = {| status := 200; body := JsonOkId gid |} ∧
     ∃ entries,
       listGames P G st' = (Ok entries, st') ∧
       (gid ≠ "" → gid ∈ (id <$> entries))).
Proof.
  intros Hm Hp Hf. rewrite (handleApi_from_zip P G req st form Hm Hp Hf).
  split; [by intros ->|].
  intros resp st' Hfile Hrun gid.
  destruct (file form) as [zipBytes|]; [|done]. cbv zeta in Hrun. fold gid in Hrun.
  destruct ((ensureDirM (join G gid) ≫= _) st) as [[[]|] st1] eqn:Hin; [|done].
  injection Hrun as <- <-. split; [done|].
  pose proof (ingest_target_is_directory _ _ _ _ _ _ Hin) as Hdirs.
  pose proof (SlugFacts.slugify_proper (Str.or_default (fname form) "game"))
    as Hshape. fold gid in Hshape.
  assert (Hroot : fs st1 !! G = Some DirE).
  { apply Hdirs. destruct Hshape as [->|Hn].
    - by rewrite join_empty.
    - rewrite join_proper by done. by apply prefix_app_r. }
  destruct (listGames_ids P G st1 Hroot) as (entries & Hl & Hids).
  exists entries. split; [done|]. intros Hne.
  destruct Hshape as [?|Hn]; [done|].
  apply Hids. rewrite <- (join_proper G gid Hn). by apply Hdirs.
Qed.

Lemma from_zip_spec_witness :
  handleApi Sample.platform Sample.GAMES_DIR
    (Fixtures.zip_upload (Some "My Game!") None) Sample.server
  = (Ok (Some {| status := 400; body := Text "file required" |}), Sample.server) ∧
  ∃ st' entries,
    handleApi Sample.platform Sample.GAMES_DIR
      (Fixtures.zip_upload (Some "My Game!") (Some [Byte.x50; Byte.x4b]))
      Sample.server
    = (Ok (Some {| status := 200; body := JsonOkId "my-game" |}), st') ∧
    listGames Sample.platform Sample.GAMES_DIR st' = (Ok entries, st') ∧
    "my-game" ∈ (id <$> entries).
Proof.
  split.
  - apply (from_zip_spec Sample.platform Sample.GAMES_DIR
             (Fixtures.zip_upload (Some "My Game!") None) Sample.server
             {| file := None; fname := Some "My Game!"; fsubdir := Some "dist" |});
      reflexivity.
  - set (req := Fixtures.zip_upload (Some "My Game!") (Some [Byte.x50; Byte.x4b])).
    set (r := handleApi Sample.platform Sample.GAMES_DIR req Sample.server).
    assert (Hr : r = (Ok (Some {| status := 200; body := JsonOkId "my-game" |}), r.2))
      by (vm_compute; reflexivity).
    destruct (from_zip_spec Sample.platform Sample.GAMES_DIR req Sample.server
                {| file := Some [Byte.x50; Byte.x4b]; fname := Some "My Game!";
                   fsubdir := Some "dist" |} eq_refl eq_refl eq_refl) as [_ H].
    destruct (H _ r.2 ltac:(discriminate) Hr) as (_ & entries & Hl & Hin).
    exists r.2, entries. split; [exact Hr|]. split; [exact Hl|].
    apply Hin. discriminate.
Defined.

(** *** The repository URL pattern *)

Lemma match_at_other (c : ascii) (s : string) :
  Ascii.eqb c "g" = false → match_at (String c s) = None.
Proof.
  intros Hc. unfold match_at, match_host. cbn [Str.startsWith].
  rewrite Ascii.eqb_sym in Hc. by rewrite Hc.
Qed.

Lemma match_repo_skip (p s : string) :
  Str.contains_char "g" p = false → match_repo (p +:+ s) = match_repo s.
Proof.
  induction p as [|c p IH]; [done|]. cbn [Str.contains_char].
  intros [Hc Hp]%orb_false_iff. rewrite StrFacts.app_cons.
  cbn [match_repo]. rewrite match_at_other by done. by apply IH.
Qed.

Lemma match_host_github (t : string) :
  match_host ("github.com/" +:+ t) = Some t.
Proof. vm_compute. by destruct t. Qed.

Lemma has_line_terminator_app (a b : string) :
  Str.has_line_terminator (a +:+ b)
  = Str.has_line_terminator a || Str.has_line_terminator b.
Proof.
  induction a as [|c a IH]; [done|].
  rewrite StrFacts.app_cons. cbn [Str.has_line_terminator].
  by rewrite IH, orb_assoc.
Qed.

Lemma find_owner_spec (acc o n : string) :
  Str.contains_char "/" o = false → n ≠ "" → acc ≠ "" ∨ o ≠ "" →
  find_owner acc (o +:+ String "/" n) = Some (String.rev acc +:+ o, n).
Proof.
  revert acc. induction o as [|c o IH]; intros acc Ho Hn Hne.
  - destruct Hne as [Hacc|]; [|done]. rewrite StrFacts.app_nil_l.
    cbn [find_owner]. rewrite Ascii.eqb_refl.
    rewrite !bool_decide_eq_false_2 by done. by rewrite StrFacts.app_nil_r.
  - cbn [Str.contains_char] in Ho. apply orb_false_iff in Ho as [Hc Ho].
    rewrite StrFacts.app_cons. cbn [find_owner]. rewrite Hc. cbn [andb].
    rewrite IH by (try done; by left).
    by rewrite StrFacts.rev_cons, StrFacts.app_assoc.
Qed.

Lemma length_app (a b : string) :
  String.length (a +:+ b) = (String.length a + String.length b)%nat.
Proof.
  induction a as [|c a IH]; [done|].
  rewrite StrFacts.app_cons. cbn [String.length]. by rewrite IH.
Qed.

Lemma take_app (a b : string) : Str.take (String.length a) (a +:+ b) = a.
Proof.
  induction a as [|c a IH]; [by destruct b|].
  rewrite StrFacts.app_cons. cbn [String.length Str.take]. by rewrite IH.
Qed.

Lemma repo_name_git (n : string) : n ≠ "" → repo_name (n +:+ ".git") = n.
Proof.
  intros Hn. unfold repo_name. rewrite StrFacts.endsWith_app, length_app.
  change (String.length ".git") with 4%nat.
  destruct n as [|c n]; [done|]. cbn [String.length].
  rewrite (proj2 (Nat.ltb_lt _ _)) by lia. cbn [andb].
  replace (S (String.length n) + 4 - 4)%nat with (String.length (String c n))
    by (cbn [String.length]; lia).
  apply take_app.
Qed.

Lemma repo_name_plain (n : string) :
  Str.endsWith n ".git" = false → repo_name n = n.
Proof. intros H. unfold repo_name. by rewrite H. Qed.

Lemma match_at_canonical (owner r : string) :
  owner ≠ "" → Str.contains_char "/" owner = false → r ≠ "" →
  Str.has_line_terminator owner = false →
  Str.has_line_terminator r = false →
  match_at ("github.com/" +:+ owner +:+ String "/" r) = Some (owner, repo_name r).
Proof.
  intros Ho Hsl Hr Hlo Hlr. unfold match_at. rewrite match_host_github.
  cbn [mbind option_bind]. rewrite has_line_terminator_app, Hlo.
  cbn [Str.has_line_terminator Str.is_line_terminator orb]. rewrite Hlr.
  rewrite find_owner_spec by (try done; by right).
  by rewrite StrFacts.app_nil_l.
Qed.

Lemma match_repo_here (s : string) (m : string * string) :
  match_at s = Some m → match_repo s = Some m.
Proof. intros H. destruct s; cbn [match_repo]; by rewrite H. Qed.

(** X6. The usual repository URLs are accepted and read as intended: for a
    non-empty owner without slash and a non-empty repository name (no line
    breaks in either), [<prefix>github.com/<owner>/<name>] and the same
    with [.git] appended both yield owner and name, whatever the prefix
    ([https://], [http://www.], nothing) as long as it has no letter g. *)
Theorem match_repo_canonical (p owner name : string) :
  Str.contains_char "g" p = false →
  owner ≠ "" → Str.contains_char "/" owner = false → name ≠ "" →
  Str.has_line_terminator owner = false →
  Str.has_line_terminator name = false →
  (Str.endsWith name ".git" = false →
   match_repo (p +:+ "github.com/" +:+ owner +:+ "/" +:+ name) = Some (owner, name)) ∧
  match_repo (p +:+ "github.com/" +:+ owner +:+ "/" +:+ name +:+ ".git")
  = Some (owner, name).
Proof.
  intros Hp Ho Hsl Hn Hlo Hln. split.
  - intros Hgit. rewrite match_repo_skip by done.
    apply match_repo_here.
    change ("/" +:+ name) with (String "/" name).
    rewrite match_at_canonical by done. by rewrite repo_name_plain.
  - rewrite match_repo_skip by done. apply match_repo_here.
    change ("/" +:+ name +:+ ".git") with (String "/" (name +:+ ".git")).
    rewrite match_at_canonical; try done.
    + by rewrite repo_name_git.
    + by destruct name.
    + by rewrite has_line_terminator_app, Hln.
Qed.

Lemma match_repo_canonical_witness :
  match_repo "https://github.com/user/repo" = Some ("user", "repo") ∧
  match_repo "https://github.com/user/repo.git" = Some ("user", "repo").
Proof.
  destruct (match_repo_canonical "https://" "user" "repo") as [H1 H2];
    try reflexivity; try discriminate.
  split; [apply H1; reflexivity|exact H2].
Defined.

Lemma match_repo_at (s : string) (m : string * string) :
  match_repo s = Some m → ∃ pre s', s = pre +:+ s' ∧ match_at s' = Some m.
Proof.
  induction s as [|c s IH]; cbn [match_repo].
  - destruct (match_at "") eqn:E; [|done]. intros [= <-]. by exists "", "".
  - destruct (match_at (String c s)) eqn:E.
    + intros [= <-]. by exists "", (String c s).
    + intros (pre & s' & -> & H)%IH. by exists (String c pre), s'.
Qed.

Lemma match_host_inv (s t : string) :
  match_host s = Some t → ∃ c, s = "github" +:+ String c ("com/" +:+ t).
Proof.
  unfold match_host. destruct (Str.startsWith s "github") eqn:E; [|done].
  apply StrFacts.startsWith_inv in E as [r ->].
  change (Str.drop 6 ("github" +:+ r)) with r.
  destruct r as [|c r]; [done|]. destruct (Str.is_line_terminator c); [done|].
  destruct (Str.startsWith r "com/") eqn:E; [|done].
  apply StrFacts.startsWith_inv in E as [r' ->].
  change (Str.drop 4 ("com/" +:+ r')) with r'. intros [= <-]. by exists c.
Qed.

Lemma find_owner_inv (acc t o r : string) :
  find_owner acc t = Some (o, r) →
  ∃ o', o = String.rev acc +:+ o' ∧ t = o' +:+ String "/" r ∧ o ≠ "" ∧ r ≠ "".
Proof.
  revert acc. induction t as [|c t IH]; intros acc; [done|]. cbn [find_owner].
  destruct (Ascii.eqb c "/" && negb (bool_decide (acc = ""))
            && negb (bool_decide (t = ""))) eqn:E.
  - apply andb_true_iff in E as [[Hc Hacc]%andb_true_iff Ht].
    apply Ascii.eqb_eq in Hc as ->.
    apply negb_true_iff, bool_decide_eq_false in Hacc, Ht.
    intros [= <- <-]. exists "". rewrite StrFacts.app_nil_r. repeat split; try done.
    intros Hrev. apply Hacc. by rewrite <- (StrFacts.rev_involutive acc), Hrev.
  - intros (o' & -> & -> & Ho & Hr)%IH. exists (String c o').
    rewrite StrFacts.rev_cons, StrFacts.app_assoc in Ho |- *. done.
Qed.

Lemma endsWith_inv (s p : string) :
  Str.endsWith s p = true → ∃ x, s = x +:+ p.
Proof.
  unfold Str.endsWith. intros [r Hr]%StrFacts.startsWith_inv.
  exists (String.rev r).
  by rewrite <- (StrFacts.rev_involutive s), Hr, StrFacts.rev_app_distr,
    StrFacts.rev_involutive.
Qed.

Lemma repo_name_inv (r : string) :
  r ≠ "" → repo_name r ≠ "" ∧ (r = repo_name r ∨ r = repo_name r +:+ ".git").
Proof.
  intros Hr. unfold repo_name.
  destruct (Str.endsWith r ".git") eqn:E; [|by split; [|left]].
  destruct (4 <? String.length r)%nat eqn:El; [|by split; [|left]].
  cbn [andb]. apply endsWith_inv in E as [x ->].
  apply Nat.ltb_lt in El. rewrite length_app in El |- *.
  change (String.length ".git") with 4%nat in *.
  replace (String.length x + 4 - 4)%nat with (String.length x) by lia.
  rewrite take_app. split; [|by right]. destruct x; [simpl in El; lia|done].
Qed.

(** X7. Whatever [match_repo] accepts has the shape the pattern asks for:
    somewhere in the text stands [github], one character, [com/], then the
    non-empty owner, a slash, the non-empty name, and then the end of the
    text or [.git] and the end. *)
Theorem match_repo_sound (s owner name : string) :
  match_repo s = Some (owner, name) →
  owner ≠ "" ∧ name ≠ "" ∧
  ∃ pre c suffix,
    (suffix = "" ∨ suffix = ".git") ∧
    s = pre +:+ "github" +:+ String c ("com/" +:+ owner +:+ "/" +:+ name +:+ suffix).
Proof.
  intros (pre & s' & -> & Hat)%match_repo_at. unfold match_at in Hat.
  destruct (match_host s') as [t|] eqn:Hh; [|done]. cbn [mbind option_bind] in Hat.
  apply match_host_inv in Hh as [c ->].
  destruct (Str.has_line_terminator t); [done|].
  destruct (find_owner "" t) as [[o r]|] eqn:Hf; [|done].
  cbn [mbind option_bind] in Hat. injection Hat as -> <-.
  apply find_owner_inv in Hf as (o' & -> & -> & Ho & Hr).
  rewrite StrFacts.app_nil_l in Ho |- *.
  destruct (repo_name_inv r Hr) as [Hn Hs]. repeat split; try done.
  exists pre, c. destruct Hs as [Hs|Hs].
  - exists "". split; [by left|]. by rewrite StrFacts.app_nil_r, <- Hs.
  - exists ".git". split; [by right|]. by rewrite <- Hs.
Qed.

Lemma match_repo_sound_witness :
  "user" ≠ "" ∧ "repo" ≠ "" ∧
  ∃ pre c suffix,
    (suffix = "" ∨ suffix = ".git") ∧
    "see https://github.com/user/repo.git"
    = pre +:+ "github" +:+ String c ("com/" +:+ "user" +:+ "/" +:+ "repo" +:+ suffix).
Proof.
  apply (match_repo_sound "see https://github.com/user/repo.git" "user" "repo").
  vm_compute. reflexivity.
Defined.

(** Nothing is ever taken out of the record of outside effects. *)
Lemma copy_log (ex : Fs.t) (base dest : list string) (s s' : State) (r : Res unit) :
  copy ex base dest s = (r, s') → log s' = log s.
Proof.
  unfold copy. rewrite run_bind. unfold get_fs.
  destruct (if decide (base = []) then Some DirE else ex !! base) as [[b|]|].
  - destruct (fs s !! dest) as [[|]|]; by intros [= _ <-].
  - destruct (fs s !! dest) as [[|]|]; try by intros [= _ <-].
    + rewrite run_bind. unfold put_fs.
      destruct (copy_walk _ _ _) as [f4 []]; by intros [= _ <-].
    + rewrite run_bind. unfold put_fs.
      destruct (copy_walk _ _ _) as [f4 []]; by intros [= _ <-].
  - by intros [= _ <-].
Qed.

Lemma saveZipToDir_log (P : Platform) (zipBytes : bytes)
    (targetDir : list string) (subdirHint : option string) (s s' : State) :
  saveZipToDir P zipBytes targetDir subdirHint s = (Ok tt, s') →
  ∃ l, log s' = log s ++ l.
Proof.
  intros Hs. unfold saveZipToDir in Hs.
  rewrite run_bind, run_ensureDirM in Hs.
  destruct (ensureDir (fs s) targetDir) as [f2|]; [|done].
  rewrite run_bind in Hs.
  destruct (run_extract P zipBytes {| fs := f2; log := log s |}) as [l Hext].
  rewrite Hext in Hs. destruct (archive_of P zipBytes) as [ex|]; [|done].
  simpl in Hs. rewrite run_bind, run_ensureDirM in Hs. simpl in Hs.
  destruct (ensureDir f2 targetDir) as [f3|]; [|done].
  apply copy_log in Hs. exists l. by rewrite Hs.
Qed.

(** *** Adding a game from a repository *)

Lemma handleApi_from_github (P : Platform) (G : list string) (req : Request)
    (st : State) (j : GithubJson) :
  method req = "POST" →
  pathname req = "/api/add-game/from-github" →
  jsonBody req = Some j →
  handleApi P G req st =
  match repo j with
  | None => (Ok (Some (text "repo required" 400)), st)
  | Some r =>
      if bool_decide (r = "") then (Ok (Some (text "repo required" 400)), st)
      else
        match match_repo r with
        | None => (Ok (Some (text "invalid repo url" 400)), st)
        | Some (owner, repoName) =>
            let url := zipUrl owner repoName (Str.or_default (branch j) "main") in
            let fetched := {| fs := fs st; log := log st ++ [EFetch url] |} in
            match fetch P url with
            | FetchRejects => (Throw, fetched)
            | FetchResponse false _ =>
                (Ok (Some (text "download failed" 502)), fetched)
            | FetchResponse true zipBytes =>
                let gid := Str.slugify (Str.or_default (gname j) repoName) in
                match (ensureDirM (join G gid) ≫= λ _,
                         saveZipToDir P zipBytes (join G gid)
                           (Some (Str.or_default (subdir j) "root"))) fetched with
                | (Ok _, st') => (Ok (Some (json (JsonOkId gid))), st')
                | (Throw, st') => (Throw, st')
                end
            end
        end
  end.
Proof.
  intros Hm Hp Hj. unfold handleApi. rewrite Hm, Hp.
  rewrite (bool_decide_eq_false_2 ("POST" = "GET")) by done.
  rewrite (bool_decide_eq_false_2
             ("/api/add-game/from-github" = "/api/add-game/from-zip")) by done.
  rewrite (bool_decide_eq_true_2 ("POST" = "POST")) by done.
  rewrite (bool_decide_eq_true_2
             ("/api/add-game/from-github" = "/api/add-game/from-github")) by done.
  rewrite andb_false_r. cbn [andb].
  rewrite run_bind, Hj. cbn [lift_option ret].
  destruct (repo j) as [r|]; [|done].
  destruct (bool_decide (r = "")); [done|].
  destruct (match_repo r) as [[owner repoName]|]; [|done].
  rewrite run_bind. cbn [emit]. cbv zeta.
  destruct (fetch P _) as [|[] zipBytes]; [done| |done].
  rewrite !run_bind.
  destruct (ensureDirM _ _) as [[[]|] st1]; [|done].
  rewrite ?run_bind.
  by destruct (saveZipToDir _ _ _ _ st1) as [[[]|] st2].
Qed.

(** X8. A game added from a repository shows up in the catalogue: whenever
    [POST /api/add-game/from-github] answers 200, the repository text
    matched the pattern, the download of the branch archive was recorded,
    the id in the answer is derived from the name given or else from the
    repository name, and the catalogue read afterwards lists that id
    (unless it is empty). *)
Theorem from_github_then_list (P : Platform) (G : list string) (req : Request)
    (st st' : State) (j : GithubJson) (resp : Response) :
  method req = "POST" →
  pathname req = "/api/add-game/from-github" →
  jsonBody req = Some j →
  handleApi P G req st = (Ok (Some resp), st') →
  status resp = 200 →
  ∃ r owner repoName entries,
    repo j = Some r ∧ match_repo r = Some (owner, repoName) ∧
    let gid := Str.slugify (Str.or_default (gname j) repoName) in
    body resp = JsonOkId gid ∧
    EFetch (zipUrl owner repoName (Str.or_default (branch j) "main")) ∈ log st' ∧
    listGames P G st' = (Ok entries, st') ∧
    (gid ≠ "" → gid ∈ (id <$> entries)).
Proof.
  intros Hm Hp Hj Hrun H200.
  rewrite (handleApi_from_github P G req st j Hm Hp Hj) in Hrun.
  destruct (repo j) as [r|]; [|by injection Hrun as <- _].
  destruct (bool_decide (r = "")); [by injection Hrun as <- _|].
  destruct (match_repo r) as [[owner repoName]|] eqn:Hmatch;
    [|by injection Hrun as <- _].
  cbv zeta in Hrun.
  set (url := zipUrl owner repoName (Str.or_default (branch j) "main")) in *.
  destruct (fetch P url) as [|[] zipBytes]; [done| |by injection Hrun as <- _].
  set (gid := Str.slugify (Str.or_default (gname j) repoName)) in *.
  set (fetched := {| fs := fs st; log := log st ++ [EFetch url] |}) in *.
  destruct ((ensureDirM (join G gid) ≫= _) fetched) as [[[]|] st1] eqn:Hin; [|done].
  injection Hrun as <- <-.
  exists r, owner, repoName.
  pose proof (ingest_target_is_directory _ _ _ _ _ _ Hin) as Hdirs.
  pose proof (SlugFacts.slugify_proper (Str.or_default (gname j) repoName))
    as Hshape. fold gid in Hshape.
  assert (Hroot : fs st1 !! G = Some DirE).
  { apply Hdirs. destruct Hshape as [->|Hn].
    - by rewrite join_empty.
    - rewrite join_proper by done. by apply prefix_app_r. }
  destruct (listGames_ids P G st1 Hroot) as (entries & Hl & Hids).
  exists entries. split; [done|]. split; [done|]. cbv zeta.
  split; [done|]. split; [|split; [done|]].
  - rewrite run_bind, run_ensureDirM in Hin.
    destruct (ensureDir (fs fetched) (join G gid)) as [f1|]; [|done].
    destruct (saveZipToDir_log _ _ _ _ _ _ Hin) as [l ->]. simpl.
    apply elem_of_app. left. apply elem_of_app. right. by left.
  - intros Hne. fold gid in Hne |- *. destruct Hshape as [?|Hn]; [done|].
    apply Hids. rewrite <- (join_proper G gid Hn). by apply Hdirs.
Qed.

Lemma from_github_then_list_witness :
  ∃ st' entries,
    handleApi Sample.platform Sample.GAMES_DIR
      (Sample.github_request (Sample.repo_on None)) Sample.server
    = (Ok (Some {| status := 200; body := JsonOkId "repo" |}), st') ∧
    EFetch Sample.main_branch_url ∈ log st' ∧
    listGames Sample.platform Sample.GAMES_DIR st' = (Ok entries, st') ∧
    "repo" ∈ (id <$> entries).
Proof.
  set (req := Sample.github_request (Sample.repo_on None)).
  set (r := handleApi Sample.platform Sample.GAMES_DIR req Sample.server).
  assert (Hr : r = (Ok (Some {| status := 200; body := JsonOkId "repo" |}), r.2))
    by (vm_compute; reflexivity).
  destruct (from_github_then_list Sample.platform Sample.GAMES_DIR req
              Sample.server r.2 (Sample.repo_on None) _
              eq_refl eq_refl eq_refl Hr eq_refl)
    as (r0 & owner & repoName & entries & Hrepo & Hmatch & H).
  injection Hrepo as <-. vm_compute in Hmatch. injection Hmatch as <- <-.
  destruct H as (_ & Hlog & Hl & Hin).
  exists r.2, entries. split; [exact Hr|]. split; [exact Hlog|].
  split; [exact Hl|]. apply Hin. discriminate.
Defined.

(** *** What the answers of [handleApi] leave behind *)

Lemma listGames_state (P : Platform) (G : list string) (st : State) :
  (listGames P G st).2 = st.
Proof.
  unfold listGames. rewrite !run_bind. unfold get_fs, lift_option.
  by destruct (readDir (fs st) G).
Qed.

(** X9. Every answer of [handleApi] is a 200, 400, 404 or 502; a 400 or
    404 leaves filesystem and effect log exactly as they were, and a 502
    leaves the filesystem as it was. *)
Theorem error_answers_change_nothing (P : Platform) (G : list string)
    (req : Request) (st st' : State) (resp : Response) :
  handleApi P G req st = (Ok (Some resp), st') →
  status resp = 200 ∨
  ((status resp = 400 ∨ status resp = 404) ∧ st' = st) ∨
  (status resp = 502 ∧ fs st' = fs st).
Proof.
  unfold handleApi. intros H.
  destruct (bool_decide (pathname req = "/api/games") && _).
  { rewrite run_bind in H. destruct (listGames P G st) as [[games|] s1]; [|done].
    injection H as <- _. by left. }
  destruct (bool_decide (pathname req = "/api/add-game/from-zip") && _).
  { rewrite run_bind in H. destruct (formData req) as [form|]; [|done].
    cbn [lift_option ret] in H. destruct (file form) as [zipBytes|].
    - rewrite run_bind in H.
      destruct (ensureDirM _ st) as [[[]|] s1]; [|done].
      rewrite run_bind in H.
      destruct (saveZipToDir _ _ _ _ s1) as [[[]|] s2]; [|done].
      injection H as <- _. by left.
    - injection H as <- <-. right. left. split; [by left|done]. }
  destruct (bool_decide (pathname req = "/api/add-game/from-github") && _).
  { rewrite run_bind in H. destruct (jsonBody req) as [j|]; [|done].
    cbn [lift_option ret] in H.
    destruct (repo j) as [r|].
    2:{ injection H as <- <-. right. left. split; [by left|done]. }
    destruct (bool_decide (r = "")).
    { injection H as <- <-. right. left. split; [by left|done]. }
    destruct (match_repo r) as [[owner repoName]|].
    2:{ injection H as <- <-. right. left. split; [by left|done]. }
    rewrite run_bind in H. cbn [emit] in H.
    destruct (fetch P _) as [|[] zipBytes]; [done| |].
    - rewrite run_bind in H.
      destruct (ensureDirM _ _) as [[[]|] s1]; [|done].
      rewrite run_bind in H.
      destruct (saveZipToDir _ _ _ _ s1) as [[[]|] s2]; [|done].
      injection H as <- _. by left.
    - injection H as <- <-. right. right. by split. }
  destruct (Str.startsWith (pathname req) "/api/games/" && _ && _).
  { rewrite run_bind in H. destruct (Str.at_index _ 3) as [gid|]; [|done].
    cbn [lift_option ret] in H. rewrite run_bind in H. unfold get_fs in H.
    destruct (negb _).
    - injection H as <- <-. right. left. split; [by right|done].
    - rewrite run_bind in H. destruct (writeFile _ _ _); [|done].
      cbn [lift_option ret] in H. rewrite run_bind in H.
      injection H as <- _. by left. }
  destruct (Str.startsWith (pathname req) "/api/games/" && _).
  { rewrite run_bind in H. destruct (Str.at_index _ 3) as [gid|]; [|done].
    cbn [lift_option ret] in H. rewrite run_bind in H. unfold get_fs in H.
    destruct (negb _).
    - injection H as <- <-. right. left. split; [by right|done].
    - rewrite run_bind in H. injection H as <- _. by left. }
  done.
Qed.

Lemma error_answers_change_nothing_witness :
  let resp := {| status := 404; body := Text "not found" |} in
  status resp = 200 ∨
  ((status resp = 400 ∨ status resp = 404) ∧ Sample.server = Sample.server) ∨
  (status resp = 502 ∧ fs Sample.server = fs Sample.server).
Proof.
  apply (error_answers_change_nothing Sample.platform Sample.GAMES_DIR
           (Sample.request "DELETE" "/api/games/tetris") Sample.server
           Sample.server).
  vm_compute. reflexivity.
Defined.

(** X10. Only POST and DELETE requests can change anything: with any other
    method [handleApi] returns with the state it was given. *)
Theorem other_methods_change_nothing (P : Platform) (G : list string)
    (req : Request) (st : State) :
  method req ≠ "POST" → method req ≠ "DELETE" →
  (handleApi P G req st).2 = st.
Proof.
  intros Hpost Hdel. unfold handleApi.
  rewrite (bool_decide_eq_false_2 (method req = "POST")) by done.
  rewrite (bool_decide_eq_false_2 (method req = "DELETE")) by done.
  rewrite !andb_false_r.
  destruct (bool_decide (pathname req = "/api/games") && _); [|done].
  rewrite run_bind. pose proof (listGames_state P G st) as Hl.
  destruct (listGames P G st) as [[games|] s1]; simpl in *; by subst.
Qed.

Lemma other_methods_change_nothing_witness :
  (handleApi Sample.platform Sample.GAMES_DIR
     (Sample.request "GET" "/api/games") Sample.server).2 = Sample.server.
Proof.
  apply (other_methods_change_nothing Sample.platform Sample.GAMES_DIR
           (Sample.request "GET" "/api/games") Sample.server); discriminate.
Defined.

End ServerMore.

(** ** The coverflow: keys and deletion *)

Module FrontendMore.
Import Frontend FrontendSpec Keyboard.

Lemma games_nonempty (st : State) :
  games st ≠ [] → bool_decide (length (games st) = 0%nat) = false.
Proof. intros H. apply bool_decide_eq_false_2. by destruct (games st). Qed.

Lemma focusIndex_plain (i : Z) (st : State) :
  games st ≠ [] →
  focusIndex i false st = set_focusedIndex (clamp (length (games st)) i) st.
Proof. intros H. unfold focusIndex. by rewrite games_nonempty. Qed.

Lemma set_focusedIndex_same (st : State) :
  set_focusedIndex (focusedIndex st) st = st.
Proof. by destruct st. Qed.

(** One run of the handler: the focus moves by one card and stops at the
    ends. *)
Lemma arrow_keys_once (st : State) :
  games st ≠ [] → focus_in_bounds st →
  let n := Z.of_nat (length (games st)) in
  globalKeyHandler "ArrowRight" st
  = set_focusedIndex (Z.min (focusedIndex st + 1) (n - 1)) st ∧
  globalKeyHandler "ArrowLeft" st
  = set_focusedIndex (Z.max (focusedIndex st - 1) 0) st.
Proof.
  intros Hne Hb n. specialize (Hb Hne). fold n in Hb.
  unfold globalKeyHandler.
  repeat match goal with
         | |- context [bool_decide (?a = ?b)] =>
             first [ rewrite (bool_decide_eq_false_2 (a = b)) by done
                   | rewrite (bool_decide_eq_true_2 (a = b)) by done ]
         end.
  cbn [orb andb]. rewrite !focusIndex_plain by done.
  unfold clamp. fold n. split; f_equal; lia.
Qed.

Lemma set_focusedIndex_twice (i k : Z) (st : State) :
  set_focusedIndex k (set_focusedIndex i st) = set_focusedIndex k st.
Proof. done. Qed.

(** X11. One press of an arrow key in the launcher runs the handler
    twice, once for each of its two registrations, so the focus moves by
    two cards, or onto the last (first) card when fewer than two remain on
    that side; it never wraps around, and the list, the running game and
    the playing flag stay as they are. *)
Theorem arrow_key_press_moves_two_cards (st : State) :
  games st ≠ [] → focus_in_bounds st →
  let n := Z.of_nat (length (games st)) in
  keydown "ArrowRight" st
  = set_focusedIndex (Z.min (focusedIndex st + 2) (n - 1)) st ∧
  keydown "ArrowLeft" st
  = set_focusedIndex (Z.max (focusedIndex st - 2) 0) st.
Proof.
  intros Hne Hb n. pose proof (Hb Hne) as Hb'. fold n in Hb'.
  destruct (arrow_keys_once st Hne Hb) as [Hr Hl]. fold n in Hr.
  unfold keydown. rewrite Hr, Hl. split.
  - destruct (arrow_keys_once
                (set_focusedIndex (Z.min (focusedIndex st + 1) (n - 1)) st))
      as [-> _]; [done| |].
    + intros _. simpl. fold n. lia.
    + rewrite set_focusedIndex_twice. simpl. fold n. f_equal. lia.
  - destruct (arrow_keys_once
                (set_focusedIndex (Z.max (focusedIndex st - 1) 0) st))
      as [_ ->]; [done| |].
    + intros _. simpl. fold n. lia.
    + rewrite set_focusedIndex_twice. simpl. f_equal. lia.
Qed.

Lemma arrow_key_press_moves_two_cards_witness :
  focusedIndex (keydown "ArrowLeft" Sample.coverflow) = 0 ∧
  focusedIndex (keydown "ArrowRight" Fixtures.coverflow_middle) = 2.
Proof.
  split.
  - destruct (arrow_key_press_moves_two_cards Sample.coverflow) as [_ ->].
    + discriminate.
    + intros _. simpl. lia.
    + reflexivity.
  - destruct (arrow_key_press_moves_two_cards Fixtures.coverflow_middle) as [-> _].
    + discriminate.
    + intros _. simpl. lia.
    + reflexivity.
Defined.

Lemma game_at_Some (l : list Server.GameEntry) (i : Z) (g : Server.GameEntry) :
  game_at l i = Some g → 0 ≤ i < Z.of_nat (length l).
Proof.
  unfold game_at. destruct (0 <=? i) eqn:E; [|done]. intros H.
  apply Z.leb_le in E. split; [done|].
  assert (Z.to_nat i < length l)%nat by (apply nth_error_Some; congruence).
  lia.
Qed.

(** X12. [Enter] and the space bar start the focused game when none is
    running and do nothing during play; [Escape] then leaves the game with
    list and focus as they were. *)
Theorem enter_launches_focused_game (st : State) (g : Server.GameEntry) :
  game_at (games st) (focusedIndex st) = Some g →
  (playing st = false →
     globalKeyHandler "Enter" st = openGame g st ∧
     globalKeyHandler " " st = openGame g st ∧
     globalKeyHandler "Escape" (openGame g st) = exitGame st) ∧
  (playing st = true →
     globalKeyHandler "Enter" st = st ∧ globalKeyHandler " " st = st).
Proof.
  intros Hg. pose proof (game_at_Some _ _ _ Hg) as Hb.
  assert (Hne : games st ≠ []) by (destruct (games st); [simpl in Hb; lia|done]).
  unfold globalKeyHandler.
  repeat match goal with
         | |- context [bool_decide (?a = ?b)] =>
             first [ rewrite (bool_decide_eq_false_2 (a = b)) by done
                   | rewrite (bool_decide_eq_true_2 (a = b)) by done ]
         end.
  cbn [orb andb]. split; intros Hp; rewrite Hp; cbn [negb andb]; [|done].
  assert (Hopen : focusIndex (focusedIndex st) true st = openGame g st).
  { unfold focusIndex. rewrite games_nonempty by done. cbv zeta.
    cbn [games focusedIndex set_focusedIndex].
    rewrite clamp_id by done. rewrite Hg. by rewrite set_focusedIndex_same. }
  rewrite Hopen. cbn [playing openGame andb]. done.
Qed.

Lemma enter_launches_focused_game_witness :
  globalKeyHandler "Enter" Sample.coverflow
  = openGame (Sample.game "space-runner") Sample.coverflow ∧
  globalKeyHandler "Escape" (openGame (Sample.game "space-runner") Sample.coverflow)
  = exitGame Sample.coverflow.
Proof.
  destruct (enter_launches_focused_game Sample.coverflow
              (Sample.game "space-runner") eq_refl) as [H _].
  destruct (H eq_refl) as (H1 & _ & H3). split; [exact H1|exact H3].
Defined.

Lemma splice1_inside {A} (l : list A) (i : Z) :
  0 ≤ i < Z.of_nat (length l) →
  splice1 l i = firstn (Z.to_nat i) l ++ skipn (S (Z.to_nat i)) l.
Proof.
  intros Hi. unfold splice1.
  rewrite (proj2 (Z.ltb_ge _ _)) by lia. by rewrite Z.min_l by lia.
Qed.

Lemma splice1_length {A} (l : list A) (i : Z) :
  0 ≤ i < Z.of_nat (length l) →
  Z.of_nat (length (splice1 l i)) = Z.of_nat (length l) - 1.
Proof.
  intros Hi. rewrite splice1_inside by done.
  rewrite List.length_app, List.length_firstn, List.length_skipn. lia.
Qed.

(** X13. A confirmed, successful [deleteGame] at a valid index takes exactly
    that card out of the list, keeping the others in order. The focus
    index stays where it was unless it pointed at the last card, in which
    case it moves to the new last card: after deleting a card to the left
    of the focus, the focus is on the next game. *)
Theorem deleteGame_removes_card (gameIndex : Z) (st : State) :
  0 ≤ gameIndex < Z.of_nat (length (games st)) →
  focus_in_bounds st →
  let n := Z.of_nat (length (games st)) in
  let st' := deleteGame gameIndex true (Some true) st in
  games st' = firstn (Z.to_nat gameIndex) (games st)
              ++ skipn (S (Z.to_nat gameIndex)) (games st) ∧
  focusedIndex st' = (if focusedIndex st <? n - 1 then focusedIndex st
                      else Z.max 0 (n - 2)) ∧
  currentGame st' = currentGame st ∧ playing st' = playing st.
Proof.
  intros Hi Hb n st'.
  assert (Hne : games st ≠ []) by (destruct (games st); [simpl in Hi; lia|done]).
  specialize (Hb Hne). fold n in Hb, Hi.
  split; [unfold st'; by rewrite deleteGame_games, splice1_inside|].
  pose proof (splice1_length (games st) gameIndex Hi) as Hlen. fold n in Hlen.
  unfold st', deleteGame, renderCoverflow. cbn [negb].
  cbn [games focusedIndex set_games]. rewrite Hlen.
  assert (Hge : (focusedIndex st >=? n - 1) = negb (focusedIndex st <? n - 1))
    by (rewrite Z.geb_leb, Z.ltb_antisym; by rewrite negb_involutive).
  rewrite Hge.
  destruct (focusedIndex st <? n - 1) eqn:E; cbn [negb].
  - apply Z.ltb_lt in E.
    unfold focusIndex. cbn [games set_games].
    rewrite bool_decide_eq_false_2 by lia. simpl.
    rewrite clamp_id by lia. done.
  - apply Z.ltb_ge in E.
    unfold focusIndex. cbn [games set_games set_focusedIndex].
    case_bool_decide as Hz; simpl.
    + repeat split; lia.
    + rewrite clamp_id by lia. repeat split; lia.
Qed.

Lemma deleteGame_removes_card_witness :
  games (deleteGame 0 true (Some true) Fixtures.coverflow_middle)
  = [Sample.game "puzzle_box"; Sample.game "space-runner"] ∧
  focusedIndex (deleteGame 0 true (Some true) Fixtures.coverflow_middle) = 1.
Proof.
  destruct (deleteGame_removes_card 0 Fixtures.coverflow_middle)
    as (Hg & Hf & _).
  - simpl. lia.
  - intros _. simpl. lia.
  - split; [exact Hg|exact Hf].
Defined.

End FrontendMore.

(** ** The gamepad manager: overlays, persistence, sticks *)

Module GamepadMore.
Import Gamepad.

(** The arithmetic of [(i + 1) % n] and [(i - 1 + n) % n]. *)
Lemma rem_next_bounds (i n : Z) : 0 ≤ i → 0 < n → 0 ≤ Z.rem (i + 1) n < n.
Proof. intros. apply Z.rem_bound_pos; lia. Qed.

Lemma rem_prev_bounds (i n : Z) : 0 ≤ i → 0 < n → 0 ≤ Z.rem (i - 1 + n) n < n.
Proof. intros. apply Z.rem_bound_pos; lia. Qed.

Lemma rem_next (i n : Z) :
  0 ≤ i < n → Z.rem (i + 1) n = if i =? n - 1 then 0 else i + 1.
Proof.
  intros Hi. destruct (i =? n - 1) eqn:E.
  - apply Z.eqb_eq in E. replace (i + 1) with n by lia. apply Z.rem_same. lia.
  - apply Z.eqb_neq in E. apply Z.rem_small. lia.
Qed.

Lemma rem_prev (i n : Z) :
  0 ≤ i < n → Z.rem (i - 1 + n) n = if i =? 0 then n - 1 else i - 1.
Proof.
  intros Hi. destruct (i =? 0) eqn:E.
  - apply Z.eqb_eq in E. subst i. replace (0 - 1 + n) with (n - 1) by lia.
    apply Z.rem_small. lia.
  - apply Z.eqb_neq in E.
    replace (i - 1 + n) with (i - 1 + 1 * n) by lia.
    rewrite Z.rem_mod_nonneg by lia.
    rewrite Z_mod_plus_full. apply Z.mod_small. lia.
Qed.

Lemma normalize_focus_nonneg (i : Z) : 0 ≤ normalize_focus i.
Proof. unfold normalize_focus. destruct (i <? 0) eqn:E; lia. Qed.

Lemma normalize_focus_id (i : Z) : 0 ≤ i → normalize_focus i = i.
Proof. unfold normalize_focus. intros. destruct (i <? 0) eqn:E; lia. Qed.

Lemma osd_step (d : Direction) (st : St) :
  0 < Z.of_nat (osdButtons (world st)) →
  let n := Z.of_nat (osdButtons (world st)) in
  let i0 := normalize_focus (osdFocusIndex st) in
  world (handleOSDNavigation d st) = world st ∧
  osdFocusIndex (handleOSDNavigation d st)
  = match d with
    | DUp | DLeft => Z.rem (i0 - 1 + n) n
    | DDown | DRight => Z.rem (i0 + 1) n
    end.
Proof.
  intros Hn n i0. unfold handleOSDNavigation. fold n.
  rewrite (proj2 (Z.eqb_neq n 0)) by lia. by destruct d.
Qed.

Lemma game_menu_step (d : Direction) (st : St) :
  0 < Z.of_nat (gameMenuButtons (world st)) →
  let n := Z.of_nat (gameMenuButtons (world st)) in
  let i0 := normalize_focus (gameMenuFocusIndex st) in
  world (handleGameMenuNavigation d st) = world st ∧
  gameMenuFocusIndex (handleGameMenuNavigation d st)
  = match d with
    | DUp | DLeft => Z.rem (i0 - 1 + n) n
    | DDown | DRight => Z.rem (i0 + 1) n
    end.
Proof.
  intros Hn n i0. unfold handleGameMenuNavigation. fold n.
  rewrite (proj2 (Z.eqb_neq n 0)) by lia. by destruct d.
Qed.

(** The three facts both overlays share, on the bare index. *)
Lemma wrap_facts (i n : Z) :
  0 < n →
  let i0 := normalize_focus i in
  (0 ≤ Z.rem (i0 + 1) n < n ∧ 0 ≤ Z.rem (i0 - 1 + n) n < n) ∧
  (0 ≤ i < n →
     Z.rem (normalize_focus (Z.rem (i0 + 1) n) - 1 + n) n = i ∧
     Z.rem (normalize_focus (Z.rem (i0 - 1 + n) n) + 1) n = i) ∧
  (i = n - 1 → Z.rem (i0 + 1) n = 0) ∧
  (i ≤ 0 → Z.rem (i0 - 1 + n) n = n - 1).
Proof.
  intros Hn i0. pose proof (normalize_focus_nonneg i) as H0. fold i0 in H0.
  split; [split; [by apply rem_next_bounds|by apply rem_prev_bounds]|].
  split; [|split].
  - intros Hi. unfold i0. rewrite (normalize_focus_id i) by lia.
    rewrite (rem_next i n), (rem_prev i n) by done. split.
    + destruct (i =? n - 1) eqn:E.
      * apply Z.eqb_eq in E. rewrite (normalize_focus_id 0) by lia.
        rewrite (rem_prev 0 n) by lia. simpl. lia.
      * apply Z.eqb_neq in E. rewrite (normalize_focus_id (i + 1)) by lia.
        rewrite (rem_prev (i + 1) n) by lia.
        rewrite (proj2 (Z.eqb_neq (i + 1) 0)) by lia. lia.
    + destruct (i =? 0) eqn:E.
      * apply Z.eqb_eq in E. rewrite (normalize_focus_id (n - 1)) by lia.
        rewrite (rem_next (n - 1) n) by lia. rewrite Z.eqb_refl. lia.
      * apply Z.eqb_neq in E. rewrite (normalize_focus_id (i - 1)) by lia.
        rewrite (rem_next (i - 1) n) by lia.
        rewrite (proj2 (Z.eqb_neq (i - 1) (n - 1))) by lia. lia.
  - intros ->. unfold i0. rewrite (normalize_focus_id (n - 1)) by lia.
    rewrite (rem_next (n - 1) n) by lia. by rewrite Z.eqb_refl.
  - intros Hi. assert (i0 = 0) as ->.
    { unfold i0, normalize_focus. destruct (i <? 0) eqn:E; [done|].
      apply Z.ltb_ge in E. lia. }
    rewrite (rem_prev 0 n) by lia. done.
Qed.

(** X14. Moving through the OSD buttons with the pad: whatever the index
    was, after a step it names one of the [n] visible buttons; the list is
    a ring (down from the last button reaches the first, up from the first
    the last), and a step down followed by a step up (or the other way
    round) comes back to the button it started from. The page itself is
    not changed by a step. *)
Theorem osd_navigation_is_a_ring (st : St) :
  0 < Z.of_nat (osdButtons (world st)) →
  let n := Z.of_nat (osdButtons (world st)) in
  let i := osdFocusIndex st in
  (∀ d, 0 ≤ osdFocusIndex (handleOSDNavigation d st) < n ∧
        world (handleOSDNavigation d st) = world st) ∧
  (0 ≤ i < n →
     osdFocusIndex (handleOSDNavigation DUp (handleOSDNavigation DDown st)) = i ∧
     osdFocusIndex (handleOSDNavigation DDown (handleOSDNavigation DUp st)) = i) ∧
  (i = n - 1 → osdFocusIndex (handleOSDNavigation DDown st) = 0) ∧
  (i ≤ 0 → osdFocusIndex (handleOSDNavigation DUp st) = n - 1).
Proof.
  intros Hn n i.
  destruct (wrap_facts i n Hn) as ((Hb1 & Hb2) & Hinv & Hlast & Hfirst).
  split; [|split; [|split]].
  - intros d. destruct (osd_step d st Hn) as [Hw ->]. split; [|done].
    by destruct d.
  - intros Hi. destruct (Hinv Hi) as [H1 H2].
    destruct (osd_step DDown st Hn) as [Hw1 Hd].
    destruct (osd_step DUp st Hn) as [Hw2 Hu].
    destruct (osd_step DUp (handleOSDNavigation DDown st)) as [_ ->];
      [by rewrite Hw1|].
    destruct (osd_step DDown (handleOSDNavigation DUp st)) as [_ ->];
      [by rewrite Hw2|].
    rewrite Hw1, Hw2, Hd, Hu. done.
  - intros Hi. destruct (osd_step DDown st Hn) as [_ ->]. by apply Hlast.
  - intros Hi. destruct (osd_step DUp st Hn) as [_ ->]. by apply Hfirst.
Qed.

Lemma osd_navigation_is_a_ring_witness :
  osdFocusIndex
    (handleOSDNavigation DUp (Sample.manager false (Sample.world_of true false)))
  = 2.
Proof.
  destruct (osd_navigation_is_a_ring
              (Sample.manager false (Sample.world_of true false)))
    as (_ & _ & _ & H).
  - reflexivity.
  - apply H. discriminate.
Defined.

(** X15. The same for the buttons of the game menu: every step lands on a
    visible button, the list is a ring, and down and up undo each other. *)
Theorem game_menu_navigation_is_a_ring (st : St) :
  0 < Z.of_nat (gameMenuButtons (world st)) →
  let n := Z.of_nat (gameMenuButtons (world st)) in
  let i := gameMenuFocusIndex st in
  (∀ d, 0 ≤ gameMenuFocusIndex (handleGameMenuNavigation d st) < n ∧
        world (handleGameMenuNavigation d st) = world st) ∧
  (0 ≤ i < n →
     gameMenuFocusIndex
       (handleGameMenuNavigation DUp (handleGameMenuNavigation DDown st)) = i ∧
     gameMenuFocusIndex
       (handleGameMenuNavigation DDown (handleGameMenuNavigation DUp st)) = i) ∧
  (i = n - 1 → gameMenuFocusIndex (handleGameMenuNavigation DDown st) = 0) ∧
  (i ≤ 0 → gameMenuFocusIndex (handleGameMenuNavigation DUp st) = n - 1).
Proof.
  intros Hn n i.
  destruct (wrap_facts i n Hn) as ((Hb1 & Hb2) & Hinv & Hlast & Hfirst).
  split; [|split; [|split]].
  - intros d. destruct (game_menu_step d st Hn) as [Hw ->]. split; [|done].
    by destruct d.
  - intros Hi. destruct (Hinv Hi) as [H1 H2].
    destruct (game_menu_step DDown st Hn) as [Hw1 Hd].
    destruct (game_menu_step DUp st Hn) as [Hw2 Hu].
    destruct (game_menu_step DUp (handleGameMenuNavigation DDown st)) as [_ ->];
      [by rewrite Hw1|].
    destruct (game_menu_step DDown (handleGameMenuNavigation DUp st)) as [_ ->];
      [by rewrite Hw2|].
    rewrite Hw1, Hw2, Hd, Hu. done.
  - intros Hi. destruct (game_menu_step DDown st Hn) as [_ ->]. by apply Hlast.
  - intros Hi. destruct (game_menu_step DUp st Hn) as [_ ->]. by apply Hfirst.
Qed.

Lemma game_menu_navigation_is_a_ring_witness :
  gameMenuFocusIndex
    (handleGameMenuNavigation DUp
       (Sample.manager false (Sample.world_of true false)))
  = 1.
Proof.
  destruct (game_menu_navigation_is_a_ring
              (Sample.manager false (Sample.world_of true false)))
    as (_ & _ & _ & H).
  - reflexivity.
  - apply H. discriminate.
Defined.

(** *** Migration *)

Lemma migrate_face_settled (f : Group) :
  needsMigration (migrate_face f) = false.
Proof.
  unfold migrate_face. destruct (needsMigration f) eqn:E; [|done].
  cbn [omap list_omap fst snd].
  destruct (lookup_button f "north"), (lookup_button f "east"),
    (lookup_button f "south"), (lookup_button f "west"); reflexivity.
Qed.

Lemma migrate_face_idem (f : Group) :
  migrate_face (migrate_face f) = migrate_face f.
Proof.
  unfold migrate_face at 1. by rewrite migrate_face_settled.
Qed.

(** X16. Loading never hands out the old face-button names: the face group
    of whatever [loadMapping] returns has none of [north], [east], [south],
    [west], and migrating it once more changes nothing. *)
Theorem loadMapping_never_legacy (J : Json) (localStorage : Storage) (m : Mapping) :
  loadMapping J localStorage = Some m →
  (∀ f, face m = Some f → needsMigration f = false) ∧ migrate m = m.
Proof.
  unfold loadMapping. intros H.
  destruct (match localStorage !! "gamepadMapping" with
            | Some saved => _ | None => _ end) as [m0|]; [|done].
  cbn [mbind option_bind] in H. injection H as <-.
  unfold migrate. destruct (face m0) as [f0|] eqn:Ef; cbn [face].
  - split; [intros f [= <-]; apply migrate_face_settled|].
    by rewrite migrate_face_idem.
  - by rewrite Ef.
Qed.

Lemma loadMapping_never_legacy_witness :
  (∀ f, face (migrate Sample.legacy_mapping) = Some f → needsMigration f = false) ∧
  migrate (migrate Sample.legacy_mapping) = migrate Sample.legacy_mapping.
Proof.
  apply (loadMapping_never_legacy Sample.json_codec
           {["gamepadMapping" := "legacy"]} (migrate Sample.legacy_mapping)).
  reflexivity.
Defined.

(** *** Dead zone and threshold *)

Lemma Qltb_lt (a b : Q) : Qltb a b = true ↔ (a < b)%Q.
Proof.
  unfold Qltb. rewrite negb_true_iff. split.
  - intros H. apply Qnot_le_lt. intros Hle.
    apply Qle_bool_iff in Hle. congruence.
  - intros H. destruct (Qle_bool b a) eqn:E; [|done].
    apply Qle_bool_iff in E. exfalso. by apply (Qlt_not_le a b).
Qed.

Lemma Qltb_iff_eq (a b c d : Q) :
  ((a < b)%Q ↔ (c < d)%Q) → Qltb a b = Qltb c d.
Proof.
  intros H. destruct (Qltb a b) eqn:E1, (Qltb c d) eqn:E2; try done.
  - apply Qltb_lt, H, Qltb_lt in E1. congruence.
  - apply Qltb_lt, H, Qltb_lt in E2. congruence.
Qed.

Lemma applyDeadzone_cases (v : Q) :
  applyDeadzone v = v ∨ (applyDeadzone v = 0%Q ∧ (Qabs.Qabs v <= 3 # 20)%Q).
Proof.
  unfold applyDeadzone. destruct (Qltb (3 # 20) (Qabs.Qabs v)) eqn:E; [by left|].
  right. split; [done|]. apply Qnot_lt_le. intros H.
  apply Qltb_lt in H. congruence.
Qed.

Lemma threshold_ignores_deadzone (v : Q) :
  Qltb (1 # 2) (applyDeadzone v) = Qltb (1 # 2) v ∧
  Qltb (applyDeadzone v) (- (1 # 2)) = Qltb v (- (1 # 2)).
Proof.
  destruct (applyDeadzone_cases v) as [->|[-> Hsmall]]; [done|].
  apply Qabs.Qabs_Qle_condition in Hsmall as [Hlo Hhi].
  split; apply Qltb_iff_eq; split; intros H.
  - by vm_compute in H.
  - exfalso. apply (Qlt_not_le _ _ H).
    apply (Qle_trans _ (3 # 20)); [done|]. by vm_compute.
  - by vm_compute in H.
  - exfalso. apply (Qlt_not_le _ _ H).
    apply (Qle_trans _ (- (3 # 20))); [by vm_compute|done].
Qed.

Lemma processAnalogToDigital_deadzone (react : Action → World → World)
    (x y : Q) (controllerIndex : nat) (stickName : string) (st : St) :
  processAnalogToDigital react (applyDeadzone x, applyDeadzone y)
    controllerIndex stickName st
  = processAnalogToDigital react (x, y) controllerIndex stickName st.
Proof.
  unfold processAnalogToDigital. cbn [fst snd].
  destruct (threshold_ignores_deadzone x) as [-> ->].
  destruct (threshold_ignores_deadzone y) as [-> ->]. done.
Qed.

(** X17. The dead zone of 0.15 never matters for stick navigation: a
    direction counts as pressed exactly when the raw axis is beyond 0.5, so
    [processAnalogSticks] does what it would do on the raw axes. *)
Theorem deadzone_never_changes_navigation (react : Action → World → World)
    (controller : Controller) (controllerIndex : nat) (st : St) :
  processAnalogSticks react controller controllerIndex st
  = if (length (axes controller) <? 4)%nat then st
    else processAnalogToDigital react (axis controller 2, axis controller 3)
           controllerIndex "rightStick"
           (processAnalogToDigital react (axis controller 0, axis controller 1)
              controllerIndex "leftStick" st).
Proof.
  unfold processAnalogSticks. destruct (_ <? _)%nat; [done|].
  cbv zeta. by rewrite !processAnalogToDigital_deadzone.
Qed.

(** *** Launcher controls *)





End GamepadMore.

(** ** Placeholder cards: wrapping the title *)

Module CardsFacts.
Import Str Cards StrFacts.

Lemma contains_char_app (c : ascii) (a b : string) :
  contains_char c (a +:+ b) = contains_char c a || contains_char c b.
Proof.
  induction a as [|d a IH]; [done|].
  rewrite app_cons. cbn [contains_char]. by rewrite IH, orb_assoc.
Qed.

Lemma contains_char_rev (c : ascii) (s : string) :
  contains_char c (String.rev s) = contains_char c s.
Proof.
  induction s as [|d s IH]; [done|].
  rewrite rev_cons, contains_char_app, IH. cbn [contains_char].
  by rewrite orb_false_r, orb_comm.
Qed.

Lemma split_go_pieces (sep : ascii) (cur s : string) :
  contains_char sep cur = false →
  Forall (λ w, contains_char sep w = false) (split_go sep cur s).
Proof.
  revert cur. induction s as [|c s IH]; intros cur Hcur; cbn [split_go].
  - constructor; [by rewrite contains_char_rev|constructor].
  - destruct (Ascii.eqb c sep) eqn:E.
    + constructor; [by rewrite contains_char_rev|]. by apply IH.
    + apply IH. cbn [contains_char]. by rewrite E.
Qed.

Lemma split_go_nonempty (sep : ascii) (cur s : string) :
  split_go sep cur s ≠ [].
Proof.
  revert cur. induction s as [|c s IH]; intros cur; cbn [split_go]; [done|].
  destruct (Ascii.eqb c sep); [done|apply IH].
Qed.

Lemma join_cons (sep x : string) (l : list string) :
  l ≠ [] → join sep (x :: l) = x +:+ sep +:+ join sep l.
Proof. by destruct l. Qed.

Lemma join_split_go (sep : ascii) (cur s : string) :
  join (String sep "") (split_go sep cur s) = String.rev cur +:+ s.
Proof.
  revert cur. induction s as [|c s IH]; intros cur; cbn [split_go].
  - cbn [join]. by rewrite app_nil_r.
  - destruct (Ascii.eqb c sep) eqn:E.
    + apply Ascii.eqb_eq in E as ->.
      rewrite join_cons by apply split_go_nonempty. by rewrite IH.
    + by rewrite IH, rev_cons, app_assoc.
Qed.

(** Splitting at a character and joining with it gives the text back. *)
Lemma join_split (sep : ascii) (s : string) :
  join (String sep "") (split sep s) = s.
Proof. unfold split. by rewrite join_split_go. Qed.

Lemma join_app (sep : string) (a b : list string) :
  a ≠ [] → b ≠ [] → join sep (a ++ b) = join sep a +:+ sep +:+ join sep b.
Proof.
  intros Ha Hb. induction a as [|x a IH]; [done|].
  destruct a as [|y a].
  - simpl app. by rewrite join_cons.
  - change ((x :: y :: a) ++ b) with (x :: ((y :: a) ++ b)).
    rewrite !join_cons by done. rewrite IH by done. by rewrite !app_assoc.
Qed.

(** One line holding [x y] reads like the two lines [x] and [y]. *)
Lemma join_merge (a b : list string) (x y : string) :
  join " " (a ++ [x +:+ " " +:+ y] ++ b) = join " " (a ++ [x] ++ [y] ++ b).
Proof.
  assert (H : ∀ b, join " " ([x +:+ " " +:+ y] ++ b) = join " " ([x] ++ [y] ++ b)).
  { intros [|z b']; simpl app.
    - done.
    - rewrite !join_cons by done. by rewrite !app_assoc. }
  destruct a as [|a0 a]; [apply H|].
  rewrite !(join_app " " (a0 :: a)) by done. by rewrite H.
Qed.

Section wrapping.
Variable tooWide : string → bool.

Lemma wrap_words_good (words : list string) (line : string) (lines : list string) :
  Forall (λ w, contains_char " " w = false) words →
  line = "" ∨ good_line tooWide line →
  Forall (good_line tooWide) lines →
  Forall (good_line tooWide) (wrap_words tooWide words line lines).
Proof.
  revert line lines. induction words as [|w rest IH]; intros line lines Hw Hl Hls.
  - cbn [wrap_words]. case_bool_decide as E; [done|].
    apply Forall_app. split; [done|]. constructor; [|constructor].
    by destruct Hl.
  - apply Forall_cons in Hw as [Hw Hrest]. cbn [wrap_words].
    set (test := if bool_decide (line = "") then w else line +:+ " " +:+ w).
    destruct (tooWide test) eqn:E.
    + apply IH; [done| |].
      * destruct w; [by left|right]. by split; [|right].
      * case_bool_decide as El; [done|]. apply Forall_app. split; [done|].
        constructor; [|constructor]. by destruct Hl.
    + apply IH; [done| |done].
      destruct test eqn:Et; [by left|right]. by split; [|left].
Qed.

Lemma wrap_words_text (words : list string) (line : string) (lines : list string) :
  Forall (λ w, w ≠ "") words →
  join " " (wrap_words tooWide words line lines)
  = join " " (lines ++ (if bool_decide (line = "") then [] else [line]) ++ words).
Proof.
  revert line lines. induction words as [|w rest IH]; intros line lines Hw.
  - cbn [wrap_words]. rewrite List.app_nil_r.
    case_bool_decide; [by rewrite List.app_nil_r|done].
  - apply Forall_cons in Hw as [Hw Hrest]. cbn [wrap_words].
    assert (Hwb : bool_decide (w = "") = false) by by apply bool_decide_eq_false_2.
    destruct (decide (line = "")) as [->|El].
    + rewrite !(bool_decide_eq_true_2 ("" = "")) by done.
      destruct (tooWide w); rewrite IH by done; by rewrite Hwb.
    + rewrite !(bool_decide_eq_false_2 (line = "")) by done.
      destruct (tooWide _); rewrite IH by done.
      * rewrite Hwb. by rewrite <- List.app_assoc.
      * rewrite bool_decide_eq_false_2 by (by destruct line).
        apply join_merge.
Qed.

End wrapping.

Lemma slice_last_length {A} (n : nat) (l : list A) :
  (length (slice_last n l) ≤ n)%nat.
Proof. unfold slice_last. rewrite List.length_skipn. lia. Qed.

(** X19. The lines [wrapText] returns for a card: at most four, none of them
    empty, and each one either fits into [maxWidth] or is a single word
    (one that is too wide on its own). *)
Theorem wrapText_lines (measureText : string → Q) (text : string) (maxWidth : Q) :
  let lines := wrapText measureText text maxWidth in
  (length lines ≤ 4)%nat ∧
  Forall (λ l, l ≠ "" ∧
               ((measureText l <= maxWidth)%Q ∨ contains_char " " l = false))
         lines.
Proof.
  intros lines. split; [apply slice_last_length|].
  unfold lines, wrapText, slice_last.
  set (tooWide := λ test, Gamepad.Qltb maxWidth (measureText test)).
  assert (H : Forall (good_line tooWide)
                (wrap_words tooWide (split " " text) "" [])).
  { apply wrap_words_good; [|by left|constructor].
    unfold split. by apply split_go_pieces. }
  apply (Forall_impl (good_line tooWide)); [by apply Forall_drop|].
  intros l [Hne Hfit]. split; [done|]. destruct Hfit as [Hfit|Hw]; [left|by right].
  unfold tooWide, Gamepad.Qltb in Hfit. apply negb_false_iff in Hfit.
  by apply Qle_bool_iff.
Qed.

(** X20. Nothing inside the title is lost or reordered by wrapping, only the
    beginning can be cut: when the words are separated by single spaces,
    the returned lines, read one after the other, are the end of the text,
    and lines are dropped in front only when four lines are returned. *)
Theorem wrapText_keeps_the_end (measureText : string → Q) (text : string)
    (maxWidth : Q) :
  Forall (λ w, w ≠ "") (split " " text) →
  ∃ dropped,
    join " " (dropped ++ wrapText measureText text maxWidth) = text ∧
    (dropped = [] ∨ length (wrapText measureText text maxWidth) = 4%nat).
Proof.
  intros Hw. unfold wrapText, slice_last.
  set (tooWide := λ test, Gamepad.Qltb maxWidth (measureText test)).
  set (full := wrap_words tooWide (split " " text) "" []).
  exists (firstn (length full - 4) full). split.
  - rewrite firstn_skipn. unfold full. rewrite wrap_words_text by done.
    simpl app. apply join_split.
  - destruct (decide (length full ≤ 4)%nat) as [Hle|Hgt].
    + left. replace (length full - 4)%nat with 0%nat by lia. done.
    + right. rewrite List.length_skipn. lia.
Qed.

Lemma wrapText_keeps_the_end_witness :
  ∃ dropped,
    join " " (dropped ++ wrapText Fixtures.char_width "SPACE RUNNER TWO" 6)
    = "SPACE RUNNER TWO" ∧
    (dropped = [] ∨ length (wrapText Fixtures.char_width "SPACE RUNNER TWO" 6) = 4%nat).
Proof.
  apply (wrapText_keeps_the_end Fixtures.char_width "SPACE RUNNER TWO" 6).
  repeat constructor; discriminate.
Defined.

End CardsFacts.

(** ** Game pages: where the helper block goes *)

Module PagesFacts.
Import Str Pages StrFacts.

Lemma take_drop (n : nat) (s : string) : take n s +:+ drop n s = s.
Proof.
  revert s. induction n as [|n IH]; intros [|c s]; try done.
  cbn [take drop]. by rewrite app_cons, IH.
Qed.

Lemma take_add (a n : nat) (s : string) :
  take (a + n) s = take a s +:+ take n (drop a s).
Proof.
  revert s. induction a as [|a IH]; intros s; [done|].
  destruct s as [|c s]; [by destruct n|].
  cbn [Nat.add take drop]. by rewrite IH, app_cons.
Qed.

Lemma through_gt_spec (s : string) (n : nat) :
  through_gt s = Some n →
  ∃ x, take n s = x +:+ ">" ∧ contains_char ">" x = false.
Proof.
  revert n. induction s as [|c s IH]; intros n; [done|]. cbn [through_gt].
  destruct (Ascii.eqb c ">") eqn:E.
  - intros [= <-]. apply Ascii.eqb_eq in E as ->. exists "". by destruct s.
  - destruct (through_gt s) as [k|]; [|done]. intros [= <-].
    destruct (IH k eq_refl) as (x & Hx & Hc). exists (String c x).
    cbn [take contains_char]. by rewrite Hx, app_cons, E, Hc.
Qed.

Lemma match_tag_ends (tag s : string) (k : nat) :
  match_tag tag s = Some k → ∃ x, take k s = x +:+ ">".
Proof.
  unfold match_tag. destruct (startsWith _ _); [|done].
  destruct (through_gt _) as [n|] eqn:E; [|done]. intros [= <-].
  apply through_gt_spec in E as (x & Hx & _).
  exists (take (String.length tag) s +:+ x). by rewrite take_add, Hx, app_assoc.
Qed.

Lemma insert_at_match (tag injected s : string) (k : nat) :
  match_tag tag s = Some k →
  inserted injected s (take k s +:+ injected +:+ drop k s).
Proof.
  intros (x & Hx)%match_tag_ends. exists (take k s), (drop k s).
  split; [by rewrite take_drop|]. split; [done|].
  rewrite Hx. apply endsWith_app.
Qed.

Lemma endsWith_cons (c : ascii) (s p : string) :
  endsWith s p = true → endsWith (String c s) p = true.
Proof.
  unfold endsWith. intros [r Hr]%startsWith_inv.
  rewrite rev_cons, Hr, app_assoc. apply startsWith_app.
Qed.

Lemma insert_after_spec (tag injected s out : string) :
  insert_after tag injected s = Some out → inserted injected s out.
Proof.
  revert out. induction s as [|c s IH]; intros out; cbn [insert_after].
  - destruct (match_tag tag "") as [k|] eqn:E; [|done]. intros [= <-].
    by eapply insert_at_match.
  - destruct (match_tag tag (String c s)) as [k|] eqn:E.
    + intros [= <-]. by eapply insert_at_match.
    + destruct (insert_after tag injected s) as [o|]; [|done]. intros [= <-].
      destruct (IH o eq_refl) as (pre & post & -> & -> & He).
      exists (String c pre), post. repeat split; try done.
      by apply endsWith_cons.
Qed.

(** X21. The helper block is put into a game page without touching the page:
    what is served is the text of the file cut in two with the block in
    between, and the cut is at the very beginning or right after a [>]
    (the end of a [<head ...>], [<!doctype ...>] or [<html ...>] tag). *)
Theorem inject_keeps_the_page (injected html : string) :
  ∃ pre post,
    html = pre +:+ post ∧
    inject injected html = pre +:+ injected +:+ post ∧
    (pre = "" ∨ endsWith pre ">" = true).
Proof.
  unfold inject.
  destruct (insert_after "<head" injected html) as [out|] eqn:E1.
  { apply insert_after_spec in E1 as (pre & post & ? & ? & ?).
    exists pre, post. auto. }
  destruct (insert_after_start "<!doctype" injected html) as [out|] eqn:E2.
  { unfold insert_after_start in E2.
    destruct (match_tag "<!doctype" html) as [k|] eqn:Ek; [|done].
    injection E2 as <-.
    destruct (insert_at_match _ injected _ _ Ek) as (pre & post & ? & ? & ?).
    exists pre, post. auto. }
  destruct (insert_after "<html" injected html) as [out|] eqn:E3.
  { apply insert_after_spec in E3 as (pre & post & ? & ? & ?).
    exists pre, post. auto. }
  exists "", html. auto.
Qed.

(** *** A page with a head *)










End PagesFacts.

(** ** Detecting a gamepad button *)

Module DetectionFacts.
Import Gamepad Detection.

Lemma snapshot_other (cs : list (nat * Controller)) (m0 : gmap nat (list bool))
    (idx : nat) :
  idx ∉ cs.*1 → foldl snap_step m0 cs !! idx = m0 !! idx.
Proof.
  revert m0. induction cs as [|p cs IH]; intros m0 Hni; [done|].
  cbn [foldl]. rewrite fmap_cons in Hni. apply not_elem_of_cons in Hni as [Hne Hni].
  rewrite IH by done. unfold snap_step. by rewrite lookup_insert_ne.
Qed.

Lemma snapshot_of (cs : list (nat * Controller)) (m0 : gmap nat (list bool))
    (idx : nat) (c : Controller) :
  NoDup cs.*1 → (idx, c) ∈ cs →
  foldl snap_step m0 cs !! idx = Some (buttons c).
Proof.
  revert m0. induction cs as [|p cs IH]; intros m0 Hnd Hin.
  - by apply elem_of_nil in Hin.
  - rewrite fmap_cons in Hnd. apply NoDup_cons in Hnd as [Hni Hnd].
    cbn [foldl]. apply elem_of_cons in Hin as [<-|Hin].
    + rewrite snapshot_other by done. unfold snap_step. simpl.
      by rewrite lookup_insert_eq.
    + by apply IH.
Qed.

Lemma snapshot_from (cs : list (nat * Controller)) (m0 : gmap nat (list bool))
    (idx : nat) (bs : list bool) :
  foldl snap_step m0 cs !! idx = Some bs →
  m0 !! idx = Some bs ∨ ∃ c, (idx, c) ∈ cs ∧ buttons c = bs.
Proof.
  revert m0. induction cs as [|p cs IH]; intros m0; [by left|].
  cbn [foldl]. intros [H|(c & Hin & Hc)]%IH.
  - unfold snap_step in H. destruct (decide (p.1 = idx)) as [<-|Hne].
    + rewrite lookup_insert_eq in H. injection H as <-. right.
      exists p.2. split; [|done]. destruct p. by left.
    + rewrite lookup_insert_ne in H by done. by left.
  - right. exists c. split; [by right|done].
Qed.

Lemma hd_lookup (snap : list bool) : hd false snap = true ↔ snap !! 0%nat = Some true.
Proof. destruct snap as [|[] snap]; simpl; naive_solver. Qed.

Lemma tl_lookup (snap : list bool) (k : nat) : tl snap !! k = snap !! S k.
Proof. by destruct snap. Qed.

Lemma first_new_press_Some (i j : nat) (snap bs : list bool) :
  first_new_press i snap bs = Some j →
  ∃ k, j = (i + k)%nat ∧ bs !! k = Some true ∧ snap !! k ≠ Some true.
Proof.
  revert i snap. induction bs as [|b bs IH]; intros i snap; [done|].
  cbn [first_new_press]. destruct (b && negb (hd false snap)) eqn:E.
  - intros [= <-]. apply andb_true_iff in E as [-> Hs].
    exists 0%nat. split; [lia|]. split; [done|].
    apply negb_true_iff in Hs. intros H%hd_lookup. congruence.
  - intros (k & -> & Hk & Hs)%IH. exists (S k). split; [lia|]. split; [done|].
    by rewrite <- tl_lookup.
Qed.

Lemma first_new_press_None (i : nat) (snap bs : list bool) :
  first_new_press i snap bs = None →
  ∀ k, bs !! k = Some true → snap !! k = Some true.
Proof.
  revert i snap. induction bs as [|b bs IH]; intros i snap; [done|].
  cbn [first_new_press]. destruct (b && negb (hd false snap)) eqn:E; [done|].
  intros H [|k] Hk.
  - injection Hk as ->. cbn [andb] in E. apply negb_false_iff in E.
    by apply hd_lookup.
  - rewrite <- tl_lookup. by apply (IH _ _ H).
Qed.

Lemma scan_Some (cs : list (nat * Controller)) (snapshot : gmap nat (list bool))
    (j : nat) :
  scan cs snapshot = Some j →
  ∃ idx c, (idx, c) ∈ cs ∧ buttons c !! j = Some true ∧
           default [] (snapshot !! idx) !! j ≠ Some true.
Proof.
  induction cs as [|[idx c] cs IH]; [done|]. cbn [scan].
  destruct (first_new_press 0 _ (buttons c)) as [i|] eqn:E.
  - intros [= <-]. apply first_new_press_Some in E as (k & -> & Hk & Hs).
    exists idx, c. split; [by left|]. done.
  - intros (idx' & c' & Hin & H)%IH. exists idx', c'. split; [by right|done].
Qed.

Lemma scan_None (cs : list (nat * Controller)) (snapshot : gmap nat (list bool)) :
  scan cs snapshot = None →
  ∀ idx c k, (idx, c) ∈ cs → buttons c !! k = Some true →
             default [] (snapshot !! idx) !! k = Some true.
Proof.
  induction cs as [|[idx c] cs IH]; intros H idx' c' k Hin; [by apply elem_of_nil in Hin|].
  cbn [scan] in H. destruct (first_new_press 0 _ (buttons c)) as [i|] eqn:E; [done|].
  apply elem_of_cons in Hin as [[= -> ->]|Hin].
  - by apply (first_new_press_None _ _ _ E).
  - by apply IH.
Qed.

(** X23. Button detection picks new presses only. After detection was
    started with the pads in state [before], a tick with the configurator
    open either picks a button that is down now on some pad and was not
    down on that pad at the start, and then switches detection off, or, if
    every button that is down was already down at the start, changes
    nothing and keeps waiting. A button held when detection starts is never
    picked in that round, even after it was released and pressed again. *)
Theorem detection_picks_only_new_presses (before now : list (nat * Controller)) :
  NoDup before.*1 →
  let d1 := startGamepadButtonDetection before in
  match handleDetectionTick true now d1 with
  | (d2, Some p) =>
      detecting d2 = false ∧
      ∃ idx gp, (idx, gp) ∈ now ∧
                buttons gp !! pickedButton p = Some true ∧
                ∀ gp0, (idx, gp0) ∈ before →
                       buttons gp0 !! pickedButton p ≠ Some true
  | (d2, None) =>
      d2 = d1 ∧
      ∀ idx gp k, (idx, gp) ∈ now → buttons gp !! k = Some true →
                  ∃ gp0, (idx, gp0) ∈ before ∧ buttons gp0 !! k = Some true
  end.
Proof.
  intros Hnd d1. unfold handleDetectionTick. cbn [detecting d1 negb].
  change (detectSnapshot d1) with (foldl snap_step ∅ before).
  destruct (scan now _) as [j|] eqn:E.
  - split; [done|]. apply scan_Some in E as (idx & gp & Hin & Hj & Hs).
    exists idx, gp. split; [done|]. split; [done|]. cbn [pickedButton].
    intros gp0 Hin0 H0. apply Hs.
    by rewrite (snapshot_of _ _ _ _ Hnd Hin0).
  - split; [done|]. intros idx gp k Hin Hk.
    pose proof (scan_None _ _ E idx gp k Hin Hk) as Hs.
    destruct (foldl snap_step ∅ before !! idx) as [bs|] eqn:Eb; [|done].
    apply snapshot_from in Eb as [Eb|(gp0 & Hin0 & <-)]; [done|].
    by exists gp0.
Qed.

Lemma detection_picks_only_new_presses_witness :
  match handleDetectionTick true (Sample.frame [0; 3]%nat)
          (startGamepadButtonDetection (Sample.frame [0%nat])) with
  | (d2, Some p) =>
      detecting d2 = false ∧
      ∃ idx gp, (idx, gp) ∈ Sample.frame [0; 3]%nat ∧
                buttons gp !! pickedButton p = Some true ∧
                ∀ gp0, (idx, gp0) ∈ Sample.frame [0%nat] →
                       buttons gp0 !! pickedButton p ≠ Some true
  | (d2, None) =>
      d2 = startGamepadButtonDetection (Sample.frame [0%nat]) ∧
      ∀ idx gp k, (idx, gp) ∈ Sample.frame [0; 3]%nat →
                  buttons gp !! k = Some true →
                  ∃ gp0, (idx, gp0) ∈ Sample.frame [0%nat] ∧
                         buttons gp0 !! k = Some true
  end.
Proof.
  apply (detection_picks_only_new_presses (Sample.frame [0%nat])
           (Sample.frame [0; 3]%nat)).
  apply NoDup_singleton.
Defined.

End DetectionFacts.
